(** * makeRedisStore: a Redis-backed materialized view of WhatsApp events

    This development embeds [src/Store/makeRedisStore.ts] and proves
    properties of its event handlers and of its read accessors. The source
    file holds two versions of the store; the model follows the later one,
    the named export [makeRedisStore] whose [bind] takes the socket. The
    earlier one, the default export, is embedded in the module [Legacy] as
    far as it differs.

    Modelling conventions.
    - JavaScript values are the type [value]; objects are finite maps from
      property names to values, [undefined] is a value of its own so that
      object literals and [JSON.stringify] behave as in the source.
      Numbers are the integers (counts, timestamps, enum codes); strings are
      ASCII, so that their length is their number of characters.
    - The text produced by [JSON.stringify] is represented by the JSON
      document it denotes; every text the store writes is the text of an
      object.
    - Redis is the data set reached through the commands the store issues
      (GET, SET, SADD, SMEMBERS, RPUSH, LRANGE, LINDEX, LLEN), each with its
      documented semantics, and each of them may fail when the server is
      unreachable. Strings, lists and sets are kept in three maps: the keys
      of the store never name two kinds of value.
    - The socket's [groupMetadata] and the clock are external: the world
      holds what the n-th request, or the n-th reading, gives.
    - An [async] function is a computation of the monad [M]: it transforms
      the world and either returns a value (the promise resolves) or throws
      (the promise rejects). Effects made before a throw stay.
      Handlers run one at a time. Console output is left out. *)

From stdpp Require Import gmap strings list fin_maps pretty.
From Stdlib Require Import ZArith Ascii Lia.

#[local] Open Scope string_scope.
#[local] Open Scope list_scope.
#[local] Open Scope nat_scope.
#[local] Open Scope stdpp_scope.
#[local] Set Warnings "-clear-no-such-hyp".

(** ** JavaScript values *)

#[warnings="-register-all"]
Inductive value :=
| VUndef
| VNull
| VBool (b : bool)
| VNum (n : Z)
| VStr (s : string)
| VArr (xs : list value)
| VObj (o : gmap string value).

Abbreviation obj := (gmap string value).

#[export] Instance value_inhabited : Inhabited value := populate VUndef.

(** [o.k] on an object: a missing property reads as [undefined]. *)
Definition field (o : obj) (k : string) : value := default VUndef (o !! k).

(** JavaScript truthiness. *)
Definition truthy (v : value) : bool :=
  match v with
  | VUndef | VNull => false
  | VBool b => b
  | VNum n => negb (n =? 0)%Z
  | VStr s => negb (String.eqb s "")
  | VArr _ | VObj _ => true
  end.

Definition nullish (v : value) : bool :=
  match v with VUndef | VNull => true | _ => false end.

(** [a || b] and [a ?? b]. *)
Definition js_or (a b : value) : value := if truthy a then a else b.
Definition js_coalesce (a b : value) : value := if nullish a then b else a.

(** [v === n] for a number [n]. *)
Definition strict_eq_num (v : value) (n : Z) : bool :=
  match v with VNum m => (m =? n)%Z | _ => false end.

(** [{...a, ...b}]: the properties of [b] win. *)
Definition spread (a b : obj) : obj := b ∪ a.

(** A record built by assignment, [const rec = {}] and then [rec[k] = v]:
    its own properties and its prototype, [None] standing for
    [Object.prototype], which an object literal starts with. *)
Record js_record := { props : obj; proto : option value }.

Definition empty_record : js_record := {| props := ∅; proto := None |}.

(** Does assigning to [rec.__proto__] reach the setter that
    [Object.prototype] has for that name? Not when the record has an own
    property of the name, nor when its prototype is [null] or is an object
    with an own property of the name; an object or array that was parsed or
    built by the store has [Object.prototype] at the end of its chain. *)
Definition setter_reached (r : js_record) : bool :=
  match props r !! "__proto__" with
  | Some _ => false
  | None =>
      match proto r with
      | None => true
      | Some (VObj p) => negb (bool_decide (is_Some (p !! "__proto__")))
      | Some (VArr _) => true
      | Some _ => false
      end
  end.

(** The values the [__proto__] setter accepts: objects, arrays among them,
    and [null]. *)
Definition settable (v : value) : bool :=
  match v with VObj _ | VArr _ | VNull => true | _ => false end.

(** [rec[k] = v]. For every name but [__proto__] this sets an own property.
    For [__proto__], when the setter is reached, it makes [v] the prototype
    if [v] is an object or [null], does nothing otherwise, and adds no
    property. *)
Definition assign (r : js_record) (k : string) (v : value) : js_record :=
  if String.eqb k "__proto__" && setter_reached r then
    if settable v then {| props := props r; proto := Some v |} else r
  else {| props := <[k := v]> (props r); proto := proto r |}.

(** [String(v)], which is also what a template literal does with [v]. *)
Fixpoint to_String (v : value) : string :=
  match v with
  | VUndef => "undefined"
  | VNull => "null"
  | VBool true => "true"
  | VBool false => "false"
  | VNum n => pretty n
  | VStr s => s
  | VArr xs =>
      (fix join (l : list value) : string :=
         match l with
         | [] => ""
         | x :: r =>
             let sx := if nullish x then "" else to_String x in
             match r with
             | [] => sx
             | _ => sx +:+ "," +:+ join r
             end
         end) xs
  | VObj _ => "[object Object]"
  end.

(** The conversion ioredis applies to a command argument: [null] and
    [undefined] become the empty string, anything else goes through
    [String]. *)
Definition toArg (v : value) : string :=
  if nullish v then "" else to_String v.

(** [s.endsWith(suf)]. *)
Fixpoint ends_with (s suf : string) : bool :=
  String.eqb s suf ||
  match s with
  | EmptyString => false
  | String _ r => ends_with r suf
  end.

(** [s.split('@')[0]]. *)
Fixpoint before_at (s : string) : string :=
  match s with
  | EmptyString => EmptyString
  | String c r => if Ascii.eqb c "@"%char then EmptyString else String c (before_at r)
  end.

(** ** JSON *)

(** What [JSON.parse (JSON.stringify v)] is: a property whose value is
    [undefined] is dropped, an [undefined] array element becomes [null]. *)
Fixpoint json_norm (v : value) : value :=
  match v with
  | VArr xs =>
      VArr (map (fun x => match x with VUndef => VNull | _ => json_norm x end) xs)
  | VObj o =>
      VObj (omap (fun x => match x with VUndef => None | _ => Some (json_norm x) end) o)
  | _ => v
  end.

Definition json_field (x : value) : option value :=
  match x with VUndef => None | _ => Some (json_norm x) end.

Definition json_obj (o : obj) : obj := omap json_field o.

(** A JSON text, represented by the object it is the text of. *)
Inductive json_text := Doc (o : obj).

Definition JSON_stringify (o : obj) : json_text := Doc (json_obj o).
Definition JSON_parse (t : json_text) : obj :=
  match t with Doc o => o end.

(** [raw ? JSON.parse(raw) : dflt], for [raw] a JSON text or [null]: a JSON
    text is a non-empty string, hence truthy. *)
Definition parse_or (dflt : value) (raw : option json_text) : value :=
  match raw with
  | Some t => VObj (JSON_parse t)
  | None => dflt
  end.

(** [raw ? JSON.parse(raw) : {}]. *)
Definition parse_or_empty (raw : option json_text) : obj :=
  match raw with
  | Some t => JSON_parse t
  | None => ∅
  end.

(** ** Exceptions and property access *)

Inductive exn :=
| TypeError     (* reading a property of null or undefined, calling a non-function *)
| RemoteError   (* the socket's groupMetadata promise rejected *)
| RedisError.   (* a Redis command failed *)

Inductive result (A : Type) :=
| Ok (a : A)
| Throw (e : exn).
Arguments Ok {A} a.
Arguments Throw {A} e.

(** [v.k] for [v] neither [null] nor [undefined]. The names the store reads
    are never array indices or method names. *)
Definition read_prop (v : value) (k : string) : value :=
  match v with
  | VObj o => field o k
  | VArr xs => if String.eqb k "length" then VNum (Z.of_nat (length xs)) else VUndef
  | VStr s => if String.eqb k "length" then VNum (Z.of_nat (String.length s)) else VUndef
  | _ => VUndef
  end.

(** [v.k]. *)
Definition get_prop (v : value) (k : string) : result value :=
  if nullish v then Throw TypeError else Ok (read_prop v k).

(** [v?.k]. *)
Definition opt_prop (v : value) (k : string) : value :=
  if nullish v then VUndef else read_prop v k.

(** ** The world: the Redis data set, the socket, the clock *)

(** The socket handed to [bind]. Its [groupMetadata] method, when it has
    one, answers the n-th request made of it with metadata or rejects. *)
Record Socket := { groupMetadata : option (nat → value → option obj) }.

Record world := World {
  strings : gmap string json_text;          (* keys holding a string *)
  lists : gmap string (list json_text);     (* keys holding a list *)
  sets : gmap string (gset string);         (* keys holding a set *)
  cmds : nat;                               (* Redis commands issued so far *)
  down : nat → bool;                        (* does the n-th command fail? *)
  socketRef : option Socket;                (* [let socketRef] of the store *)
  calls : list value;                       (* groupMetadata requests so far *)
  ticks : nat;                              (* Date.now() readings so far *)
  clock : nat → Z                           (* the n-th reading of Date.now() *)
}.

Definition M (A : Type) : Type := world → result A * world.

Definition ret {A} (a : A) : M A := fun w => (Ok a, w).

Definition bind_ {A B} (m : M A) (k : A → M B) : M B :=
  fun w =>
    match m w with
    | (Ok a, w1) => k a w1
    | (Throw e, w1) => (Throw e, w1)
    end.

Definition throw {A} (e : exn) : M A := fun w => (Throw e, w).

Definition lift {A} (r : result A) : M A := fun w => (r, w).

(** [try { body } catch (e) { handler }]. *)
Definition try_catch {A} (body : M A) (handler : exn → M A) : M A :=
  fun w =>
    match body w with
    | (Ok a, w1) => (Ok a, w1)
    | (Throw e, w1) => handler e w1
    end.

Declare Scope js_scope.
Delimit Scope js_scope with js.
Notation "'let!' x ':=' m 'in' k" := (bind_ m (fun x => k))
  (at level 10, x name, m at level 100, k at level 200) : js_scope.
Notation "m ';;' k" := (bind_ m (fun _ => k))
  (at level 100, k at level 200, right associativity) : js_scope.
#[local] Open Scope js_scope.

(** [for (const x of xs) { body }]. *)
Fixpoint for_of {A} (xs : list A) (body : A → M unit) : M unit :=
  match xs with
  | [] => ret tt
  | x :: rest => body x ;; for_of rest body
  end.

Definition world_of {A} (r : result A * world) : world := snd r.
Definition outcome {A} (r : result A * world) : result A := fst r.

(** *** Redis commands *)

Definition with_redis (w : world)
    (s : gmap string json_text) (l : gmap string (list json_text))
    (t : gmap string (gset string)) : world :=
  {| strings := s; lists := l; sets := t;
     cmds := cmds w; down := down w; socketRef := socketRef w;
     calls := calls w; ticks := ticks w; clock := clock w |}.

Definition issued (w : world) : world :=
  {| strings := strings w; lists := lists w; sets := sets w;
     cmds := S (cmds w); down := down w; socketRef := socketRef w;
     calls := calls w; ticks := ticks w; clock := clock w |}.

(** A command is counted, then either fails without effect or runs. *)
Definition command {A} (run : world → A * world) : M A :=
  fun w =>
    if down w (cmds w) then (Throw RedisError, issued w)
    else let (a, w1) := run (issued w) in (Ok a, w1).

Definition list_at (w : world) (key : string) : list json_text :=
  default [] (lists w !! key).
Definition set_at (w : world) (key : string) : gset string :=
  default ∅ (sets w !! key).

(** GET key *)
Definition redis_get (key : string) : M (option json_text) :=
  command (fun w => (strings w !! key, w)).

(** SET key value *)
Definition redis_set (key : string) (v : json_text) : M unit :=
  command (fun w => (tt, with_redis w (<[key := v]> (strings w)) (lists w) (sets w))).

(** SADD key member *)
Definition redis_sadd (key member : string) : M unit :=
  command (fun w =>
    (tt, with_redis w (strings w) (lists w) (<[key := {[member]} ∪ set_at w key]> (sets w)))).

(** SMEMBERS key. Redis promises no order; the model lists the members in
    the order [elements] has them. *)
Definition redis_smembers (key : string) : M (list string) :=
  command (fun w => (elements (set_at w key), w)).

(** RPUSH key value *)
Definition redis_rpush (key : string) (v : json_text) : M unit :=
  command (fun w =>
    (tt, with_redis w (strings w) (<[key := list_at w key ++ [v]]> (lists w)) (sets w))).

(** LLEN key *)
Definition redis_llen (key : string) : M Z :=
  command (fun w => (Z.of_nat (length (list_at w key)), w)).

(** The elements LRANGE selects: negative offsets count from the tail,
    offsets out of range are clipped. *)
Definition lrange {A} (l : list A) (start stop : Z) : list A :=
  let len := Z.of_nat (length l) in
  let start := if (start <? 0)%Z then (len + start)%Z else start in
  let stop := if (stop <? 0)%Z then (len + stop)%Z else stop in
  let start := if (start <? 0)%Z then 0%Z else start in
  if ((stop <? start)%Z || (len <=? start)%Z)%bool then []
  else
    let stop := if (len <=? stop)%Z then (len - 1)%Z else stop in
    take (Z.to_nat (stop - start + 1)) (drop (Z.to_nat start) l).

(** The element LINDEX selects, if any. *)
Definition lindex {A} (l : list A) (i : Z) : option A :=
  let len := Z.of_nat (length l) in
  let i := if (i <? 0)%Z then (len + i)%Z else i in
  if (i <? 0)%Z then None else l !! Z.to_nat i.

(** LRANGE key start stop *)
Definition redis_lrange (key : string) (start stop : Z) : M (list json_text) :=
  command (fun w => (lrange (list_at w key) start stop, w)).

(** LINDEX key index *)
Definition redis_lindex (key : string) (i : Z) : M (option json_text) :=
  command (fun w => (lindex (list_at w key) i, w)).

(** *** The socket and the clock *)

(** [await sock.groupMetadata(jid)] *)
Definition call_groupMetadata (sock : Socket) (jid : value) : M obj :=
  match groupMetadata sock with
  | None => throw TypeError
  | Some answer =>
      fun w =>
        let w1 :=
          {| strings := strings w; lists := lists w; sets := sets w;
             cmds := cmds w; down := down w; socketRef := socketRef w;
             calls := calls w ++ [jid]; ticks := ticks w; clock := clock w |} in
        match answer (length (calls w)) jid with
        | Some meta => (Ok meta, w1)
        | None => (Throw RemoteError, w1)
        end
  end.

(** [Date.now()] *)
Definition Date_now : M Z :=
  fun w =>
    (Ok (clock w (ticks w)),
     {| strings := strings w; lists := lists w; sets := sets w;
        cmds := cmds w; down := down w; socketRef := socketRef w;
        calls := calls w; ticks := S (ticks w); clock := clock w |}).

(** [socketRef = sock] *)
Definition set_socketRef (sock : Socket) : M unit :=
  fun w =>
    (Ok tt,
     {| strings := strings w; lists := lists w; sets := sets w;
        cmds := cmds w; down := down w; socketRef := Some sock;
        calls := calls w; ticks := ticks w; clock := clock w |}).

Definition get_socketRef : M (option Socket) :=
  fun w => (Ok (socketRef w), w).

(** [socketRef?.groupMetadata], as a condition. *)
Definition has_groupMetadata (sref : option Socket) : bool :=
  match sref with
  | Some sock => bool_decide (is_Some (groupMetadata sock))
  | None => false
  end.

(** [await socketRef.groupMetadata(jid)] *)
Definition call_socketRef (sref : option Socket) (jid : value) : M obj :=
  match sref with
  | Some sock => call_groupMetadata sock jid
  | None => throw TypeError
  end.

(** ** The store *)

Inductive MessageDirection := latest | earliest.

(** What the event emitter delivers, with the payload of each event. For
    [messaging-history.set], [messages] is the array the handler iterates
    ([allMessages] in the source). *)
Inductive event :=
| messaging_history_set (chats contacts messages : list obj)
| messages_upsert (messages : list obj)
| chats_upsert (chats : list obj)
| contacts_upsert (contacts : list obj)
| groups_upsert (groups : list obj)
| groups_update (groups : list obj)
| group_participants_update (update : obj).

(** The contact written by the [contacts.upsert] handler: the object literal
    [{...existing, ...contact, name: contact.name || existing.name,
      verifiedName: ..., notify: ...}]. *)
Definition merged_contact (existing contact : obj) : obj :=
  <["notify" := js_or (field contact "notify") (field existing "notify")]>
    (<["verifiedName" := js_or (field contact "verifiedName") (field existing "verifiedName")]>
       (<["name" := js_or (field contact "name") (field existing "name")]>
          (spread existing contact))).

(** [latestMeta.participants?.length || 0] *)
Definition participantCount_of (latestMeta : obj) : value :=
  js_or (opt_prop (field latestMeta "participants") "length") (VNum 0).

(** [xs.filter((p) => p.admin)], which throws at a [null] or [undefined]
    element. *)
Fixpoint filter_admin (xs : list value) : result (list value) :=
  match xs with
  | [] => Ok []
  | p :: rest =>
      match get_prop p "admin" with
      | Throw e => Throw e
      | Ok a =>
          match filter_admin rest with
          | Throw e => Throw e
          | Ok kept => Ok (if truthy a then p :: kept else kept)
          end
      end
  end.

(** [latestMeta.participants?.filter((p) => p.admin)?.map((p) => p.id) || []].
    Only an array has a [filter] method; the elements that pass the filter
    are not nullish, so reading their [id] cannot throw. *)
Definition adminList_of (latestMeta : obj) : result value :=
  let participants := field latestMeta "participants" in
  if nullish participants then Ok (js_or VUndef (VArr []))
  else
    match participants with
    | VArr xs =>
        match filter_admin xs with
        | Throw e => Throw e
        | Ok admins => Ok (js_or (VArr (map (fun p => read_prop p "id") admins)) (VArr []))
        end
    | _ => Throw TypeError
    end.

(** The metadata written by the [group-participants.update] handler. *)
Definition merged_participants
    (existingMeta latestMeta : obj) (participants action : value) (now : Z)
    (participantCount adminList : value) : obj :=
  <["lastParticipantUpdate" :=
      VObj (<["adminList" := adminList]>
           (<["participantCount" := participantCount]>
           (<["updatedAt" := VNum now]>
           (<["action" := action]>
           (<["participants" := participants]> ∅)))))]>
    (spread existingMeta latestMeta).

(** The metadata written by the [groups.update] handler. *)
Definition merged_group (existingMeta group : obj) (now : Z) : obj :=
  <["lastGroupUpdate" := VObj (<["updatedAt" := VNum now]> ∅)]>
    (spread existingMeta group).

(** The digest [mostRecentMessage] builds from a parsed message. *)
Definition digest (msg : obj) : obj :=
  <["messageStubType" := field msg "messageStubType"]>
    (<["messageTimestamp" := field msg "messageTimestamp"]>
       (<["key" := field msg "key"]> ∅)).

(** The entry [getAllChats] pushes for [jid], from the parsed chat, the
    contact ([null] when there is none) and the last message
    ([undefined] when the list is empty). *)
Definition chat_entry (jid : string) (chat : obj) (contact lastMessage : value) : obj :=
  let profilePictureUrl := js_coalesce (opt_prop contact "imgUrl") VUndef in
  let unreadCount := js_coalesce (field chat "unreadCount") (VNum 0) in
  let isGroup := ends_with jid "@g.us" in
  let name :=
    js_coalesce (opt_prop contact "name")
      (js_coalesce (opt_prop contact "notify")
         (js_coalesce (field chat "name") (VStr (before_at jid)))) in
  <["isGroup" := VBool isGroup]>
    (<["unreadCount" := unreadCount]>
       (<["lastMessage" := lastMessage]>
          (<["profilePictureUrl" := profilePictureUrl]>
             (<["name" := name]>
                (<["jid" := VStr jid]> chat))))).

Section Store.

(** The arguments of [makeRedisStore] that the model needs, and the code of
    the stub type [proto.WebMessageInfo.StubType.CIPHERTEXT], which is
    declared outside this file. *)
Variable deviceId : string.
Variable CIPHERTEXT : Z.

Definition prefix : string := "wa:" +:+ deviceId.

Definition key_knownJIDs : string := prefix +:+ ":knownJIDs".
Definition key_chatmeta (id : string) : string := prefix +:+ ":chatmeta:" +:+ id.
Definition key_contact (id : string) : string := prefix +:+ ":contact:" +:+ id.
Definition key_groupmeta (id : string) : string := prefix +:+ ":groupmeta:" +:+ id.
Definition key_messages (jid : string) : string := prefix +:+ ":chat:" +:+ jid +:+ ":messages".

(** *** Event handlers registered by [bind] *)

(** Body of the message loop of [messaging-history.set]. The skipped
    branch reads [msg.key.id] for its warning. *)
Definition history_message (msg : obj) : M unit :=
  if negb (truthy (field msg "message"))
     && strict_eq_num (field msg "messageStubType") CIPHERTEXT
  then
    let! _ := lift (get_prop (field msg "key") "id") in
    ret tt
  else
    let! jid := lift (get_prop (field msg "key") "remoteJid") in
    if truthy jid && truthy (field msg "message") then
      redis_rpush (key_messages (to_String jid)) (JSON_stringify msg) ;;
      redis_sadd key_knownJIDs (toArg jid)
    else ret tt.

(** Body of the chat loop of [messaging-history.set]. *)
Definition history_chat (sock : Socket) (chat : obj) : M unit :=
  let id := field chat "id" in
  redis_set (key_chatmeta (to_String id)) (JSON_stringify chat) ;;
  redis_sadd key_knownJIDs (toArg id) ;;
  let! isGroup :=
    match id with
    | VStr s => ret (ends_with s "@g.us")
    | _ => throw TypeError
    end in
  if isGroup : bool then
    try_catch
      (let! meta := call_groupMetadata sock id in
       redis_set (key_groupmeta (to_String id)) (JSON_stringify meta))
      (fun _ => ret tt)
  else ret tt.

Definition set_contact (contact : obj) : M unit :=
  redis_set (key_contact (to_String (field contact "id"))) (JSON_stringify contact).

Definition on_messaging_history_set (sock : Socket)
    (chats contacts messages : list obj) : M unit :=
  try_catch (for_of messages history_message) (fun _ => ret tt) ;;
  for_of chats (history_chat sock) ;;
  for_of contacts set_contact.

(** Body of the loop of [messages.upsert]. *)
Definition upsert_message (msg : obj) : M unit :=
  let! jid := lift (get_prop (field msg "key") "remoteJid") in
  if truthy jid && truthy (field msg "message") then
    redis_rpush (key_messages (to_String jid)) (JSON_stringify msg) ;;
    redis_sadd key_knownJIDs (toArg jid)
  else ret tt.

Definition on_messages_upsert (messages : list obj) : M unit :=
  for_of messages upsert_message.

(** Body of the loop of [chats.upsert]. *)
Definition upsert_chat (chat : obj) : M unit :=
  redis_set (key_chatmeta (to_String (field chat "id"))) (JSON_stringify chat) ;;
  redis_sadd key_knownJIDs (toArg (field chat "id")).

Definition on_chats_upsert (chats : list obj) : M unit :=
  for_of chats upsert_chat.

(** Body of the loop of [contacts.upsert]. *)
Definition upsert_contact (contact : obj) : M unit :=
  let key := key_contact (to_String (field contact "id")) in
  let! existingRaw := redis_get key in
  let existing := parse_or_empty existingRaw in
  redis_set key (JSON_stringify (merged_contact existing contact)).

Definition on_contacts_upsert (contacts : list obj) : M unit :=
  for_of contacts upsert_contact.

(** Body of the loop of [groups.upsert]. *)
Definition upsert_group (group : obj) : M unit :=
  redis_set (key_groupmeta (to_String (field group "id"))) (JSON_stringify group).

Definition on_groups_upsert (groups : list obj) : M unit :=
  for_of groups upsert_group.

(** Body of the loop of [groups.update]. *)
Definition update_group (group : obj) : M unit :=
  let key := key_groupmeta (to_String (field group "id")) in
  let! existing := redis_get key in
  let existingMeta := parse_or_empty existing in
  let! now := Date_now in
  redis_set key (JSON_stringify (merged_group existingMeta group now)).

Definition on_groups_update (groups : list obj) : M unit :=
  for_of groups update_group.

Definition on_group_participants_update (sock : Socket) (update : obj) : M unit :=
  let id := field update "id" in
  let participants := field update "participants" in
  let action := field update "action" in
  let metaKey := key_groupmeta (to_String id) in
  try_catch
    (let! existing := redis_get metaKey in
     let existingMeta := parse_or_empty existing in
     let! latestMeta :=
       try_catch (call_groupMetadata sock id) (fun _ => ret ∅) in
     let participantCount := participantCount_of latestMeta in
     let! adminList := lift (adminList_of latestMeta) in
     let! now := Date_now in
     redis_set metaKey
       (JSON_stringify
          (merged_participants existingMeta latestMeta participants action now
             participantCount adminList)))
    (fun _ => ret tt).

(** The listener that [bind ev sock] registers for each event. *)
Definition handle (sock : Socket) (e : event) : M unit :=
  match e with
  | messaging_history_set chats contacts messages =>
      on_messaging_history_set sock chats contacts messages
  | messages_upsert messages => on_messages_upsert messages
  | chats_upsert chats => on_chats_upsert chats
  | contacts_upsert contacts => on_contacts_upsert contacts
  | groups_upsert groups => on_groups_upsert groups
  | groups_update groups => on_groups_update groups
  | group_participants_update update => on_group_participants_update sock update
  end.

(** [bind(ev, sock)] keeps the socket; its listeners are [handle sock]. *)
Definition bind (sock : Socket) : M unit := set_socketRef sock.

(** *** Accessors *)

Definition getKnownJIDs : M (list string) := redis_smembers key_knownJIDs.

Definition getChat (jid : string) : M value :=
  let! raw := redis_get (key_chatmeta jid) in
  ret (parse_or VNull raw).

Definition getContact (jid : string) : M value :=
  let! raw := redis_get (key_contact jid) in
  ret (parse_or VNull raw).

(** The loop of [getAllChats], with [result] the array built so far. *)
Fixpoint getAllChats_loop (jids : list string) (result : list obj) : M (list obj) :=
  match jids with
  | [] => ret result
  | jid :: rest =>
      let! chat := getChat jid in
      let! contact := getContact jid in
      match chat with
      | VObj c =>
          let! lastMsgRaw := redis_lindex (key_messages jid) (-1) in
          let lastMessage := parse_or VUndef lastMsgRaw in
          getAllChats_loop rest (result ++ [chat_entry jid c contact lastMessage])
      | _ => getAllChats_loop rest result
      end
  end.

Definition getAllChats : M (list obj) :=
  let! jids := getKnownJIDs in
  getAllChats_loop jids [].

Definition getMessages (jid : string) : M (list obj) :=
  let! raw := redis_lrange (key_messages jid) 0 (-1) in
  ret (map JSON_parse raw).

(** [messages.find(m => m.key.id === id)] *)
Fixpoint find_message (messages : list obj) (id : string) : result (option obj) :=
  match messages with
  | [] => Ok None
  | m :: rest =>
      match get_prop (field m "key") "id" with
      | Throw e => Throw e
      | Ok (VStr s) => if String.eqb s id then Ok (Some m) else find_message rest id
      | Ok _ => find_message rest id
      end
  end.

Definition getMessage (jid id : string) : M (option obj) :=
  let! messages := getMessages jid in
  lift (find_message messages id).

Definition getGroupMetadata (jid : string) : M value :=
  let key := key_groupmeta jid in
  let! raw := redis_get key in
  let! sref := get_socketRef in
  if negb (bool_decide (is_Some raw)) && has_groupMetadata sref then
    try_catch
      (let! latestMeta := call_socketRef sref (VStr jid) in
       redis_set key (JSON_stringify latestMeta) ;;
       ret (VObj latestMeta))
      (fun _ => ret VNull)
  else ret (parse_or VNull raw).

Definition mostRecentMessage (jid : string) : M value :=
  let! raw := redis_lindex (key_messages jid) (-1) in
  match raw with
  | None => ret VNull
  | Some t => ret (VObj (digest (JSON_parse t)))
  end.

(** [count] and [direction] are optional: [None] is an omitted argument. *)
Definition getSingleChatMessages
    (jid : string) (count : option Z) (direction : option MessageDirection)
    : M (list obj) :=
  let count := default 20%Z count in
  let direction := default latest direction in
  let listKey := key_messages jid in
  let! raw :=
    match direction with
    | latest =>
        let! total := redis_llen listKey in
        let start := Z.max (total - count) 0 in
        redis_lrange listKey start (total - 1)
    | earliest => redis_lrange listKey 0 (count - 1)
    end in
  ret (map JSON_parse raw).

(** The loop of [toJSON], filling the three records by assignment; the
    messages of a conversation are an array of objects. *)
Fixpoint toJSON_loop (jids : list string) (chatmeta messages contacts : js_record)
    : M (js_record * js_record * js_record) :=
  match jids with
  | [] => ret (chatmeta, messages, contacts)
  | jid :: rest =>
      let! c := getChat jid in
      let! ms := getMessages jid in
      let! ct := getContact jid in
      toJSON_loop rest
        (assign chatmeta jid c) (assign messages jid (VArr (map VObj ms)))
        (assign contacts jid ct)
  end.

Definition toJSON : M (js_record * js_record * js_record) :=
  let! jids := getKnownJIDs in
  toJSON_loop jids empty_record empty_record empty_record.

End Store.

(** ** Operations of the store *)

(** Everything a client can make the store do: bind it, have one of its
    listeners run on an event, call an accessor. *)
Inductive operation :=
| op_bind (sock : Socket)
| op_event (sock : Socket) (e : event)
| op_getKnownJIDs
| op_getChat (jid : string)
| op_getContact (jid : string)
| op_getAllChats
| op_getMessages (jid : string)
| op_getMessage (jid id : string)
| op_getGroupMetadata (jid : string)
| op_mostRecentMessage (jid : string)
| op_getSingleChatMessages (jid : string) (count : option Z) (direction : option MessageDirection)
| op_toJSON.

(** The world an operation leaves, whether it resolves or rejects. *)
Definition perform (deviceId : string) (CIPHERTEXT : Z) (o : operation) (w : world) : world :=
  match o with
  | op_bind sock => world_of (bind sock w)
  | op_event sock e => world_of (handle deviceId CIPHERTEXT sock e w)
  | op_getKnownJIDs => world_of (getKnownJIDs deviceId w)
  | op_getChat jid => world_of (getChat deviceId jid w)
  | op_getContact jid => world_of (getContact deviceId jid w)
  | op_getAllChats => world_of (getAllChats deviceId w)
  | op_getMessages jid => world_of (getMessages deviceId jid w)
  | op_getMessage jid id => world_of (getMessage deviceId jid id w)
  | op_getGroupMetadata jid => world_of (getGroupMetadata deviceId jid w)
  | op_mostRecentMessage jid => world_of (mostRecentMessage deviceId jid w)
  | op_getSingleChatMessages jid count direction =>
      world_of (getSingleChatMessages deviceId jid count direction w)
  | op_toJSON => world_of (toJSON deviceId w)
  end.

(** The events of a list delivered one after the other to the listeners
    bound with [sock]; a listener that rejects does not stop the next. *)
Fixpoint deliver (deviceId : string) (CIPHERTEXT : Z) (sock : Socket)
    (events : list event) (w : world) : world :=
  match events with
  | [] => w
  | e :: rest =>
      deliver deviceId CIPHERTEXT sock rest (world_of (handle deviceId CIPHERTEXT sock e w))
  end.

(** ** Reading the model *)

(** Redis answers every command. *)
Definition healthy (w : world) : Prop := ∀ n, down w n = false.

(** The members of the known-conversations set. *)
Definition known (deviceId : string) (w : world) : gset string :=
  set_at w (key_knownJIDs deviceId).

(** The stored message list of a conversation. *)
Definition stored_messages (deviceId : string) (w : world) (jid : string) : list json_text :=
  list_at w (key_messages deviceId jid).

(** [msg.key] can be read from. *)
Definition has_key (msg : obj) : Prop := nullish (field msg "key") = false.

(** [msg.key.remoteJid] of a message that has a key. *)
Definition remoteJid_of (msg : obj) : value := read_prop (field msg "key") "remoteJid".

(** The guard [jid && msg.message] of both message loops. *)
Definition accepted (msg : obj) : bool :=
  truthy (remoteJid_of msg) && truthy (field msg "message").

(** The guard holds and the message is addressed to conversation [c]. *)
Definition accepted_for (c : string) (msg : obj) : bool :=
  accepted msg && String.eqb (to_String (remoteJid_of msg)) c.

(** The messages an event carries. *)
Definition messages_of (e : event) : list obj :=
  match e with
  | messaging_history_set _ _ messages => messages
  | messages_upsert messages => messages
  | _ => []
  end.

(** The chats whose ids an event registers. *)
Definition chats_of (e : event) : list obj :=
  match e with
  | messaging_history_set chats _ _ => chats
  | chats_upsert chats => chats
  | _ => []
  end.

(** A chat whose [id] is a string, as the type [Chat] declares it. *)
Definition string_id (chat : obj) : Prop := ∃ s, field chat "id" = VStr s.

(** The payload is as the event's type declares it where the handlers
    depend on that: every message has a key and, in a history snapshot, every
    chat id is a string. *)
Definition well_typed (e : event) : Prop :=
  Forall has_key (messages_of e) ∧
  match e with
  | messaging_history_set chats _ _ => Forall string_id chats
  | _ => True
  end.

(** The ids an event's chats register. *)
Definition chat_ids (chats : list obj) : gset string :=
  list_to_set (map (λ chat, toArg (field chat "id")) chats).

(** The conversations the accepted messages of a list are addressed to. *)
Definition message_jids (messages : list obj) : gset string :=
  list_to_set (map (λ msg, to_String (remoteJid_of msg)) (List.filter accepted messages)).

(** The texts appended to conversation [c] on account of a list of messages. *)
Definition appended_for (c : string) (messages : list obj) : list json_text :=
  map JSON_stringify (List.filter (accepted_for c) messages).

(** The chat texts an event writes, a later chat of the same id winning. *)
Fixpoint chat_writes (deviceId : string) (chats : list obj) : gmap string json_text :=
  match chats with
  | [] => ∅
  | chat :: rest =>
      chat_writes deviceId rest
        ∪ {[key_chatmeta deviceId (to_String (field chat "id")) := JSON_stringify chat]}
  end.

(** The three name fields of a contact. *)
Definition name_field (k : string) : bool :=
  String.eqb k "name" || String.eqb k "verifiedName" || String.eqb k "notify".

(** The entry [getAllChats] builds for [jid], if chat metadata is stored
    for it. *)
Definition summary_of (deviceId : string) (w : world) (jid : string) : option obj :=
  match strings w !! key_chatmeta deviceId jid with
  | Some t =>
      Some (chat_entry jid (JSON_parse t)
              (parse_or VNull (strings w !! key_contact deviceId jid))
              (parse_or VUndef (last (stored_messages deviceId w jid))))
  | None => None
  end.

(** What the re-fetch of the handler obtains, if it succeeds. *)
Definition fetched_meta (sock : Socket) (w : world) (id : value) : option obj :=
  match groupMetadata sock with
  | Some answer => answer (length (calls w)) id
  | None => None
  end.

(** The participants that group metadata lists, none when it has no such
    list. *)
Definition participants_of (meta : obj) : list value :=
  match field meta "participants" with VArr ps => ps | _ => [] end.

(** Group metadata as the socket delivers it: its [participants], when it
    has any, is an array without [null] or [undefined] elements. *)
Definition listed_participants (meta : obj) : Prop :=
  nullish (field meta "participants") = true ∨
  ∃ ps, field meta "participants" = VArr ps ∧ Forall (λ p, nullish p = false) ps.

(** The ids of the participants that are admins. *)
Definition admin_ids (ps : list value) : list value :=
  map (λ p, read_prop p "id") (List.filter (λ p, truthy (read_prop p "admin")) ps).

(** ** Relations between worlds *)

Definition keeps (R : relation world) {A} (m : M A) : Prop :=
  ∀ w, R w (world_of (m w)).

(** The data only grows: the fault schedule and the clock are fixed, no set
    loses a member, every list is extended at its tail. *)
Definition evolves (w w' : world) : Prop :=
  down w' = down w ∧ clock w' = clock w ∧
  (∀ key, set_at w key ⊆ set_at w' key) ∧
  (∀ key, list_at w key `prefix_of` list_at w' key).

(** No list changes. *)
Definition same_lists (w w' : world) : Prop := lists w' = lists w.

(** No set changes. *)
Definition same_sets (w w' : world) : Prop := sets w' = sets w.

(** ** Sample data *)

(** A newly created store on a reachable server, not yet bound. *)
Definition fresh_world : world :=
  {| strings := ∅; lists := ∅; sets := ∅; cmds := 0; down := λ _, false;
     socketRef := None; calls := []; ticks := 0;
     clock := λ n, (1700000000000 + Z.of_nat n)%Z |}.

(** A socket whose metadata requests all fail. *)
Definition offline_socket : Socket := {| groupMetadata := Some (λ _ _, None) |}.

(** A socket that answers every metadata request with [{subject: "Team"}]. *)
Definition team_socket : Socket :=
  {| groupMetadata := Some (λ _ _, Some {["subject" := VStr "Team"]}) |}.

(** A socket that answers with the metadata of a group of three, one of
    them an admin. *)
Definition group_socket : Socket :=
  {| groupMetadata :=
       Some (λ _ _,
         Some {[ "id" := VStr "team@g.us"; "subject" := VStr "Team";
                 "participants" :=
                   VArr [ VObj {[ "id" := VStr "ann@s.whatsapp.net";
                                  "admin" := VStr "admin" ]};
                          VObj {[ "id" := VStr "bob@s.whatsapp.net" ]};
                          VObj {[ "id" := VStr "cat@s.whatsapp.net" ]} ] ]}) |}.

(** A message with a text content. *)
Definition text_message (jid id text : string) : obj :=
  {[ "key" := VObj {[ "remoteJid" := VStr jid; "id" := VStr id ]};
     "message" := VObj {[ "conversation" := VStr text ]} ]}.

(** A message without content that only carries a stub type. *)
Definition stub_message (jid id : string) (stubType : Z) : obj :=
  {[ "key" := VObj {[ "remoteJid" := VStr jid; "id" := VStr id ]};
     "messageStubType" := VNum stubType ]}.

(** The update that adds a third participant to the group. *)
Definition cat_joins : obj :=
  {[ "id" := VStr "team@g.us"; "action" := VStr "add";
     "participants" := VArr [ VStr "cat@s.whatsapp.net" ] ]}.

(** A world in which one conversation has chat metadata and a message and
    another is known through a message only. *)
Definition two_conversations : world :=
  deliver "dev" 2 offline_socket
    [ chats_upsert [ {[ "id" := VStr "ann@s.whatsapp.net"; "name" := VStr "Ann" ]} ];
      messages_upsert
        [ text_message "ann@s.whatsapp.net" "1" "hello";
          text_message "bob@s.whatsapp.net" "2" "hi" ] ]
    fresh_world.

(** A world in which the metadata of a group with two participants, one of
    them an admin, is stored. *)
Definition one_group : world :=
  deliver "dev" 2 offline_socket
    [ groups_upsert
        [ {[ "id" := VStr "team@g.us"; "subject" := VStr "Team";
             "participants" :=
               VArr [ VObj {[ "id" := VStr "ann@s.whatsapp.net"; "admin" := VStr "admin" ]};
                      VObj {[ "id" := VStr "bob@s.whatsapp.net" ]} ] ]} ] ]
    fresh_world.

(** ** The claims as the specification words them, where the code differs *)

Definition id_of (o : obj) : string := toArg (field o "id").

(** The conversation ids an event carries: chat ids, the remoteJid of each
    message that has one, contact ids, group ids. *)
Definition carried_ids (e : event) : list string :=
  let jids messages :=
    map (λ msg, to_String (remoteJid_of msg))
      (List.filter (λ msg, truthy (remoteJid_of msg)) messages) in
  match e with
  | messaging_history_set chats _ messages => map id_of chats ++ jids messages
  | messages_upsert messages => jids messages
  | chats_upsert chats => map id_of chats
  | contacts_upsert contacts => map id_of contacts
  | groups_upsert groups => map id_of groups
  | groups_update groups => map id_of groups
  | group_participants_update update => [id_of update]
  end.

(** "If the event carries a conversation id then after the handler runs that
    id is a member of the known-conversations set." *)
Definition every_carried_id_is_known : Prop :=
  ∀ deviceId CIPHERTEXT sock e w id,
    healthy w → well_typed e → id ∈ carried_ids e →
    id ∈ known deviceId (world_of (handle deviceId CIPHERTEXT sock e w)).

(** "No content payload and a stub type that marks an undecryptable
    placeholder." *)
Definition placeholder (CIPHERTEXT : Z) (msg : obj) : bool :=
  negb (truthy (field msg "message"))
  && strict_eq_num (field msg "messageStubType") CIPHERTEXT.

(** "A snapshot message is skipped if it is a placeholder; otherwise (it
    has a remoteJid) it is appended to that conversation's list and the
    conversation is added to the known set." *)
Definition every_other_message_is_appended : Prop :=
  ∀ deviceId CIPHERTEXT sock chats contacts messages w msg c,
    healthy w → well_typed (messaging_history_set chats contacts messages) →
    msg ∈ messages → placeholder CIPHERTEXT msg = false →
    remoteJid_of msg = VStr c → c ≠ "" →
    let w' := world_of (handle deviceId CIPHERTEXT sock
                          (messaging_history_set chats contacts messages) w) in
    JSON_stringify msg ∈ stored_messages deviceId w' c ∧ c ∈ known deviceId w'.

(** "For every group id with no metadata stored under its key,
    getGroupMetadata performs one remote fetch." *)
Definition missing_metadata_is_fetched : Prop :=
  ∀ deviceId w g,
    healthy w → strings w !! key_groupmeta deviceId g = None →
    calls (world_of (getGroupMetadata deviceId g w)) = calls w ++ [VStr g].

(** "The summary's last-message digest is the final entry of the
    conversation's message list reduced to key, timestamp and stub type." *)
Definition summaries_carry_digest : Prop :=
  ∀ deviceId w result entry jid t,
    healthy w →
    outcome (getAllChats deviceId w) = Ok result →
    entry ∈ result → field entry "jid" = VStr jid →
    last (stored_messages deviceId w jid) = Some t →
    field entry "lastMessage" = VObj (digest (JSON_parse t)).

(** "Whichever metadata is freshest": what the re-fetch returned, and the
    stored metadata when the re-fetch failed. *)
Definition freshest (existingMeta : obj) (fetched : option obj) : obj :=
  default existingMeta fetched.

(** "The handler computes the participant count from whichever metadata is
    freshest and writes it in the annotation." *)
Definition annotation_counts_freshest : Prop :=
  ∀ deviceId CIPHERTEXT sock update w,
    healthy w →
    let id := field update "id" in
    let metaKey := key_groupmeta deviceId (to_String id) in
    let existingMeta := parse_or_empty (strings w !! metaKey) in
    let w' := world_of (handle deviceId CIPHERTEXT sock (group_participants_update update) w) in
    ∃ stored,
      strings w' !! metaKey = Some (Doc stored) ∧
      read_prop (field stored "lastParticipantUpdate") "participantCount"
      = participantCount_of (freshest existingMeta (fetched_meta sock w id)).

(** ** Further readings of the model *)

(** The operations that only read: every accessor but [getGroupMetadata],
    which may fetch and store. *)
Definition reads_only (o : operation) : bool :=
  match o with
  | op_bind _ | op_event _ _ | op_getGroupMetadata _ => false
  | _ => true
  end.

(** Nothing but the count of issued commands differs. *)
Definition untouched (w w' : world) : Prop :=
  strings w' = strings w ∧ lists w' = lists w ∧ sets w' = sets w ∧
  socketRef w' = socketRef w ∧ calls w' = calls w ∧ ticks w' = ticks w.

(** A fresh store whose server cannot be reached. *)
Definition outage_world : world :=
  {| strings := ∅; lists := ∅; sets := ∅; cmds := 0; down := λ _, true;
     socketRef := None; calls := []; ticks := 0;
     clock := λ n, (1700000000000 + Z.of_nat n)%Z |}.

(** Every stored message carries content and is filed under the
    conversation its own remoteJid names. *)
Definition filed (deviceId : string) (w : world) : Prop :=
  ∀ c t, t ∈ stored_messages deviceId w c → accepted_for c (JSON_parse t) = true.

(** [filed] is not lost. *)
Definition stays_filed (deviceId : string) (w w' : world) : Prop :=
  filed deviceId w → filed deviceId w'.

(** [m.key.id === id], for a message that has a key. *)
Definition has_id (id : string) (m : obj) : bool :=
  match read_prop (field m "key") "id" with
  | VStr s => String.eqb s id
  | _ => false
  end.

(** Every conversation that has stored messages is a known one. *)
Definition listed (deviceId : string) (w : world) : Prop :=
  ∀ c, stored_messages deviceId w c ≠ [] → c ∈ known deviceId w.

(** The texts written for a list of objects under the keys [key] makes of
    their ids, a later object of the same id winning. *)
Fixpoint id_writes (key : string → string) (os : list obj) : gmap string json_text :=
  match os with
  | [] => ∅
  | o :: rest => id_writes key rest ∪ {[key (to_String (field o "id")) := JSON_stringify o]}
  end.

(** The last object of a list whose id renders as [id]. *)
Definition last_with_id (id : string) (os : list obj) : option obj :=
  List.find (λ o, String.eqb (to_String (field o "id")) id) (rev os).

(** [chat.id.endsWith('@g.us')], for a chat whose id is a string. *)
Definition group_chat (chat : obj) : bool :=
  match field chat "id" with
  | VStr s => ends_with s "@g.us"
  | _ => false
  end.

(** A fresh store whose server fails the second command it is sent, and
    only that one. *)
Definition flaky_world : world :=
  {| strings := ∅; lists := ∅; sets := ∅; cmds := 0; down := λ n, Nat.eqb n 1;
     socketRef := None; calls := []; ticks := 0;
     clock := λ n, (1700000000000 + Z.of_nat n)%Z |}.

(** No string key is written and no remote request is made. *)
Definition quiet (w w' : world) : Prop :=
  strings w' = strings w ∧ calls w' = calls w.

(** The remote requests the chat loop of a history snapshot makes: one for
    each group chat, in order, when the socket has [groupMetadata]. *)
Definition snapshot_requests (sock : Socket) (chats : list obj) : list value :=
  match groupMetadata sock with
  | Some _ => map (λ chat, field chat "id") (List.filter group_chat chats)
  | None => []
  end.

(** What an accessor that parses one string key answers after the objects
    [os] were written over that kind of key: the last object with the id, as
    it reads back from its text, or else what the text stored before gives. *)
Definition replaced_by (os : list obj) (id : string) (before : option json_text) : value :=
  match last_with_id id os with
  | Some o => VObj (JSON_parse (JSON_stringify o))
  | None => parse_or VNull before
  end.

(** The properties of an entry of [getAllChats] that the accessor computes;
    every other property is the stored chat's. *)
Definition computed_field (k : string) : bool :=
  bool_decide (k ∈ ["jid"; "name"; "profilePictureUrl"; "lastMessage";
                    "unreadCount"; "isGroup"]).

(** No remote request is made. *)
Definition silent (w w' : world) : Prop := calls w' = calls w.

(** The remote requests an operation can make, in order: group metadata for
    the group chats of a history snapshot, for the group of a participants
    update, for the group [getGroupMetadata] is asked about. *)
Definition requests_of (o : operation) : list value :=
  match o with
  | op_event sock (messaging_history_set chats _ _) => snapshot_requests sock chats
  | op_event sock (group_participants_update update) =>
      match groupMetadata sock with
      | Some _ => [field update "id"]
      | None => []
      end
  | op_getGroupMetadata jid => [VStr jid]
  | _ => []
  end.

(** The calls are those before and then a part of [requests]. *)
Definition asks (requests : list value) (w w' : world) : Prop :=
  ∃ extra, calls w' = calls w ++ extra ∧ extra `prefix_of` requests.

(** ** The earlier version of the store *)

(** The default export of the source file: [makeRedisStore(deviceId, redis)],
    whose [bind] takes the event emitter alone. It registers listeners for
    five events only, keeps no socket and never asks the remote side for
    anything. Its chat loops, its group loop and its accessors other than
    [getAllChats] and [getGroupMetadata] have the same text as in the later
    version and are shared with it. *)
Module Legacy.

(** The entry [getAllChats] pushes for [jid]:
    [{jid, name: (chat && 'name' in chat ? chat.name : null) ?? contact?.name
      ?? contact?.notify ?? '', ...(chat || {})}], in which the properties
    of the chat come last and win. *)
Definition chat_entry (jid : string) (chat contact : value) : obj :=
  let own_name :=
    match chat with
    | VObj c => if bool_decide (is_Some (c !! "name")) then field c "name" else VNull
    | _ => VNull
    end in
  let name :=
    js_coalesce
      (js_coalesce (js_coalesce own_name (opt_prop contact "name"))
         (opt_prop contact "notify"))
      (VStr "") in
  let props := match chat with VObj c => c | _ => ∅ end in
  spread (<["name" := name]> (<["jid" := VStr jid]> ∅)) props.

Section Store.
Variable deviceId : string.

(** Body of the message loops of [messaging-history.set] and of
    [messages.upsert]. *)
Definition store_message (msg : obj) : M unit :=
  let! jid := lift (get_prop (field msg "key") "remoteJid") in
  if truthy jid then
    redis_rpush (key_messages deviceId (to_String jid)) (JSON_stringify msg) ;;
    redis_sadd (key_knownJIDs deviceId) (toArg jid)
  else ret tt.

Definition on_messaging_history_set (chats contacts messages : list obj) : M unit :=
  for_of chats (upsert_chat deviceId) ;;
  for_of contacts (set_contact deviceId) ;;
  for_of messages store_message.

Definition on_messages_upsert (messages : list obj) : M unit :=
  for_of messages store_message.

Definition on_contacts_upsert (contacts : list obj) : M unit :=
  for_of contacts (set_contact deviceId).

(** The listeners that [bind ev] registers; an event without a listener
    changes nothing. *)
Definition handle (e : event) : M unit :=
  match e with
  | messaging_history_set chats contacts messages =>
      on_messaging_history_set chats contacts messages
  | messages_upsert messages => on_messages_upsert messages
  | chats_upsert chats => on_chats_upsert deviceId chats
  | contacts_upsert contacts => on_contacts_upsert contacts
  | groups_upsert groups => on_groups_upsert deviceId groups
  | groups_update _ | group_participants_update _ => ret tt
  end.

(** The loop of [getAllChats], which pushes an entry for every id. *)
Fixpoint getAllChats_loop (jids : list string) (result : list obj) : M (list obj) :=
  match jids with
  | [] => ret result
  | jid :: rest =>
      let! chat := getChat deviceId jid in
      let! contact := getContact deviceId jid in
      getAllChats_loop rest (result ++ [chat_entry jid chat contact])
  end.

Definition getAllChats : M (list obj) :=
  let! jids := getKnownJIDs deviceId in
  getAllChats_loop jids [].

Definition getGroupMetadata (jid : string) : M value :=
  let! raw := redis_get (key_groupmeta deviceId jid) in
  ret (parse_or VNull raw).

End Store.

(** The events of a list delivered one after the other to the listeners. *)
Fixpoint deliver (deviceId : string) (events : list event) (w : world) : world :=
  match events with
  | [] => w
  | e :: rest => deliver deviceId rest (world_of (handle deviceId e w))
  end.

(** The guard [jid] of the message loops. *)
Definition addressed (msg : obj) : bool := truthy (remoteJid_of msg).

Definition addressed_to (c : string) (msg : obj) : bool :=
  addressed msg && String.eqb (to_String (remoteJid_of msg)) c.

(** What [getAllChats] answers for [jid] from the data set. *)
Definition summary_of (deviceId : string) (w : world) (jid : string) : obj :=
  chat_entry jid
    (parse_or VNull (strings w !! key_chatmeta deviceId jid))
    (parse_or VNull (strings w !! key_contact deviceId jid)).

End Legacy.

(** A measure of the values nested in a value, on which to do induction. *)
Fixpoint vsize (v : value) : nat :=
  match v with
  | VArr xs => S (foldr (λ x acc, vsize x + acc) 0 xs)
  | VObj o => S (map_fold (λ _ x acc, vsize x + acc) 0 o)
  | _ => 0
  end.

(** ** Reasoning principles *)

(** *** Keys *)

Lemma list_ascii_of_string_app (a b : string) :
  String.list_ascii_of_string (a +:+ b) = String.list_ascii_of_string a ++ String.list_ascii_of_string b.
Proof. induction a as [|c a IH]; simpl; [done|]. by rewrite IH. Qed.

Lemma string_app_inj_r (a b s : string) : a +:+ s = b +:+ s → a = b.
Proof.
  intros H. apply (f_equal String.list_ascii_of_string) in H.
  rewrite !list_ascii_of_string_app in H.
  apply app_inv_tail in H.
  rewrite <- (String.string_of_list_ascii_of_string a), <- (String.string_of_list_ascii_of_string b).
  by rewrite H.
Qed.

Section Keys.
Variable deviceId : string.

Lemma key_messages_inj c d :
  key_messages deviceId c = key_messages deviceId d → c = d.
Proof.
  unfold key_messages. intros H.
  apply (inj (String.app _)) in H. apply (inj (String.app _)) in H.
  by apply string_app_inj_r in H.
Qed.

Lemma key_chatmeta_inj c d :
  key_chatmeta deviceId c = key_chatmeta deviceId d → c = d.
Proof.
  unfold key_chatmeta. intros H.
  apply (inj (String.app _)) in H. by apply (inj (String.app _)) in H.
Qed.

Lemma key_contact_inj c d :
  key_contact deviceId c = key_contact deviceId d → c = d.
Proof.
  unfold key_contact. intros H.
  apply (inj (String.app _)) in H. by apply (inj (String.app _)) in H.
Qed.

Lemma key_groupmeta_inj c d :
  key_groupmeta deviceId c = key_groupmeta deviceId d → c = d.
Proof.
  unfold key_groupmeta. intros H.
  apply (inj (String.app _)) in H. by apply (inj (String.app _)) in H.
Qed.

Lemma key_chatmeta_contact c d : key_chatmeta deviceId c ≠ key_contact deviceId d.
Proof.
  unfold key_chatmeta, key_contact. intros H.
  apply (inj (String.app _)) in H. discriminate H.
Qed.

Lemma key_chatmeta_groupmeta c d : key_chatmeta deviceId c ≠ key_groupmeta deviceId d.
Proof.
  unfold key_chatmeta, key_groupmeta. intros H.
  apply (inj (String.app _)) in H. discriminate H.
Qed.

Lemma key_contact_groupmeta c d : key_contact deviceId c ≠ key_groupmeta deviceId d.
Proof.
  unfold key_contact, key_groupmeta. intros H.
  apply (inj (String.app _)) in H. discriminate H.
Qed.
(** The set key, the list keys and the string keys are apart: no key holds
    values of two kinds. *)
Lemma key_kinds_apart c d :
  key_knownJIDs deviceId ≠ key_messages deviceId c ∧
  key_knownJIDs deviceId ≠ key_chatmeta deviceId d ∧
  key_knownJIDs deviceId ≠ key_contact deviceId d ∧
  key_knownJIDs deviceId ≠ key_groupmeta deviceId d ∧
  key_messages deviceId c ≠ key_chatmeta deviceId d ∧
  key_messages deviceId c ≠ key_contact deviceId d ∧
  key_messages deviceId c ≠ key_groupmeta deviceId d.
Proof.
  unfold key_knownJIDs, key_messages, key_chatmeta, key_contact, key_groupmeta.
  repeat split; intros H; apply (inj (String.app _)) in H; discriminate H.
Qed.
End Keys.

(** *** Relations that every step of a computation respects *)

Section Keeps.
Context (R : relation world) `{!PreOrder R}.

Lemma keeps_ret {A} (a : A) : keeps R (ret a).
Proof. intros w. reflexivity. Qed.

Lemma keeps_throw {A} (e : exn) : keeps R (@throw A e).
Proof. intros w. reflexivity. Qed.

Lemma keeps_lift {A} (r : result A) : keeps R (lift r).
Proof. intros w. reflexivity. Qed.

Lemma keeps_bind {A B} (m : M A) (k : A → M B) :
  keeps R m → (∀ a, keeps R (k a)) → keeps R (bind_ m k).
Proof.
  intros Hm Hk w. unfold bind_, world_of. specialize (Hm w). unfold world_of in Hm.
  destruct (m w) as [[a|e] w1]; simpl in *; [|done].
  etransitivity; [exact Hm|]. apply Hk.
Qed.

Lemma keeps_try_catch {A} (body : M A) (handler : exn → M A) :
  keeps R body → (∀ e, keeps R (handler e)) → keeps R (try_catch body handler).
Proof.
  intros Hm Hk w. unfold try_catch, world_of. specialize (Hm w). unfold world_of in Hm.
  destruct (body w) as [[a|e] w1]; simpl in *; [done|].
  etransitivity; [exact Hm|]. apply Hk.
Qed.

Lemma keeps_for_of {A} (xs : list A) (body : A → M unit) :
  (∀ x, keeps R (body x)) → keeps R (for_of xs body).
Proof.
  intros Hb. induction xs as [|x xs IH]; simpl.
  - apply keeps_ret.
  - apply keeps_bind; [apply Hb|]. intros _. exact IH.
Qed.

Lemma keeps_command {A} (run : world → A * world) :
  (∀ w, R w (issued w)) → (∀ w, R w (run w).2) → keeps R (command run).
Proof.
  intros Hi Hr w. unfold command, world_of.
  destruct (down w (cmds w)); simpl; [apply Hi|].
  specialize (Hr (issued w)). destruct (run (issued w)) as [a w1]; simpl in *.
  etransitivity; [apply Hi|exact Hr].
Qed.
End Keeps.

#[export] Instance evolves_preorder : PreOrder evolves.
Proof.
  split.
  - intros w. by repeat split.
  - intros a b c (H1 & H2 & H3 & H4) (G1 & G2 & G3 & G4). repeat split.
    + congruence.
    + congruence.
    + intros key. etransitivity; [apply H3|apply G3].
    + intros key. etransitivity; [apply H4|apply G4].
Qed.

#[export] Instance same_lists_preorder : PreOrder same_lists.
Proof. split; unfold same_lists; [done|congruence]. Qed.
#[export] Instance same_sets_preorder : PreOrder same_sets.
Proof. split; unfold same_sets; [done|congruence]. Qed.

Lemma set_at_insert w s l t key (x : gset string) k :
  set_at (with_redis w s l (<[key := x]> t)) k =
  if decide (key = k) then x else default ∅ (t !! k).
Proof.
  unfold set_at; simpl. rewrite lookup_insert. by destruct (decide (key = k)).
Qed.

Lemma list_at_insert w s t key (x : list json_text) (l : gmap string (list json_text)) k :
  list_at (with_redis w s (<[key := x]> l) t) k =
  if decide (key = k) then x else default [] (l !! k).
Proof.
  unfold list_at; simpl. rewrite lookup_insert. by destruct (decide (key = k)).
Qed.

Ltac solve_relation :=
  first
    [ reflexivity
    | unfold evolves; simpl; repeat split; try reflexivity; intros ?key;
      rewrite ?set_at_insert, ?list_at_insert;
      try case_decide; subst; try reflexivity;
      first [ set_solver | by apply prefix_app_r ] ].

Ltac keeps_leaf :=
  first
    [ apply keeps_ret | apply keeps_throw | apply keeps_lift
    | apply keeps_command; [typeclasses eauto | intros ?w; simpl; solve_relation ..]
    | intros ?w; unfold world_of; simpl; repeat case_match; simpl; solve_relation ].

Ltac keeps_auto :=
  repeat first
    [ progress intros
    | match goal with |- PreOrder _ => typeclasses eauto end
    | apply keeps_bind
    | apply keeps_try_catch
    | apply keeps_for_of
    | keeps_leaf
    | match goal with
      | |- keeps _ (if ?b then _ else _) => destruct b
      | |- keeps _ (match ?x with _ => _ end) => destruct x
      | |- keeps _ (let (_, _) := ?x in _) => destruct x
      end ].

Create HintDb store.

#[export] Hint Unfold
  history_message history_chat set_contact on_messaging_history_set
  upsert_message on_messages_upsert upsert_chat on_chats_upsert
  upsert_contact on_contacts_upsert upsert_group on_groups_upsert
  update_group on_groups_update on_group_participants_update handle bind
  getKnownJIDs getChat getContact getAllChats getMessages getMessage
  getGroupMetadata mostRecentMessage getSingleChatMessages toJSON
  redis_get redis_set redis_sadd redis_smembers redis_rpush redis_llen
  redis_lrange redis_lindex call_socketRef call_groupMetadata Date_now
  set_socketRef get_socketRef : store.

Section Framing.
Variable deviceId : string.
Variable CIPHERTEXT : Z.

Lemma getAllChats_loop_evolves jids result :
  keeps evolves (getAllChats_loop deviceId jids result).
Proof.
  revert result. induction jids as [|jid rest IH]; intros result; simpl.
  - keeps_auto.
  - autounfold with store. keeps_auto; apply IH.
Qed.

Lemma toJSON_loop_evolves jids a b c :
  keeps evolves (toJSON_loop deviceId jids a b c).
Proof.
  revert a b c. induction jids as [|jid rest IH]; intros a b c; simpl.
  - keeps_auto.
  - autounfold with store. keeps_auto; apply IH.
Qed.

Lemma upsert_chat_evolves chat : keeps evolves (upsert_chat deviceId chat).
Proof. autounfold with store; keeps_auto. Qed.

Lemma upsert_message_evolves msg : keeps evolves (upsert_message deviceId msg).
Proof. autounfold with store; keeps_auto. Qed.

Lemma history_messages_evolves messages :
  keeps evolves (for_of messages (history_message deviceId CIPHERTEXT)).
Proof. autounfold with store; keeps_auto. Qed.

Lemma history_chat_evolves sock chat : keeps evolves (history_chat deviceId sock chat).
Proof. autounfold with store; keeps_auto. Qed.

Lemma history_chats_evolves sock chats :
  keeps evolves (for_of chats (history_chat deviceId sock)).
Proof. autounfold with store; keeps_auto. Qed.

Lemma set_contact_evolves contact : keeps evolves (set_contact deviceId contact).
Proof. autounfold with store; keeps_auto. Qed.

Lemma on_chats_upsert_evolves chats : keeps evolves (on_chats_upsert deviceId chats).
Proof. autounfold with store; keeps_auto. Qed.

Lemma handle_evolves sock e : keeps evolves (handle deviceId CIPHERTEXT sock e).
Proof. destruct e; autounfold with store; keeps_auto. Qed.

(** No operation removes a member of a set or disturbs a stored list. *)
Lemma perform_evolves o w : evolves w (perform deviceId CIPHERTEXT o w).
Proof.
  destruct o; unfold perform.
  - by autounfold with store.
  - apply handle_evolves.
  - revert w. fold (keeps evolves (getKnownJIDs deviceId)).
    autounfold with store. keeps_auto.
  - revert w. fold (keeps evolves (getChat deviceId jid)).
    autounfold with store. keeps_auto.
  - revert w. fold (keeps evolves (getContact deviceId jid)).
    autounfold with store. keeps_auto.
  - revert w. fold (keeps evolves (getAllChats deviceId)).
    autounfold with store. keeps_auto. apply getAllChats_loop_evolves.
  - revert w. fold (keeps evolves (getMessages deviceId jid)).
    autounfold with store. keeps_auto.
  - revert w. fold (keeps evolves (getMessage deviceId jid id)).
    autounfold with store. keeps_auto.
  - revert w. fold (keeps evolves (getGroupMetadata deviceId jid)).
    autounfold with store. keeps_auto.
  - revert w. fold (keeps evolves (mostRecentMessage deviceId jid)).
    autounfold with store. keeps_auto.
  - revert w. fold (keeps evolves (getSingleChatMessages deviceId jid count direction)).
    autounfold with store. keeps_auto.
  - revert w. fold (keeps evolves (toJSON deviceId)).
    autounfold with store. keeps_auto. apply toJSON_loop_evolves.
Qed.

Lemma deliver_evolves sock events w :
  evolves w (deliver deviceId CIPHERTEXT sock events w).
Proof.
  revert w. induction events as [|e rest IH]; intros w; simpl; [reflexivity|].
  etransitivity; [apply (handle_evolves sock e)|apply IH].
Qed.

(** Only the two handlers that carry messages touch a list. *)
Lemma handle_same_lists sock e :
  messages_of e = [] → keeps same_lists (handle deviceId CIPHERTEXT sock e).
Proof.
  destruct e; simpl; intros Hm; subst; autounfold with store; simpl; keeps_auto.
Qed.

(** The handlers for contacts and groups do not touch a set. *)
Lemma handle_same_sets sock e :
  messages_of e = [] → chats_of e = [] →
  keeps same_sets (handle deviceId CIPHERTEXT sock e).
Proof.
  destruct e; simpl; intros Hm Hc; subst; autounfold with store; simpl; keeps_auto.
Qed.
End Framing.

(** *** Running on a healthy server *)

Lemma evolves_healthy w w' : evolves w w' → healthy w → healthy w'.
Proof. intros (Hd & _) H n. rewrite Hd. apply H. Qed.

Lemma bind_run {A B} (m : M A) (k : A → M B) w a w1 :
  m w = (Ok a, w1) → bind_ m k w = k a w1.
Proof. intros H. unfold bind_. by rewrite H. Qed.

Lemma keeps_run {A} (R : relation world) (m : M A) w r w1 :
  keeps R m → m w = (r, w1) → R w w1.
Proof. intros Hk E. specialize (Hk w). by rewrite E in Hk. Qed.

Lemma for_of_app {A} (xs ys : list A) (body : A → M unit) w :
  for_of (xs ++ ys) body w = (for_of xs body ;; for_of ys body) w.
Proof.
  revert w. induction xs as [|x xs IH]; intros w; simpl; [done|].
  unfold bind_. destruct (body x w) as [[[]|e] w1]; [|done].
  rewrite IH. done.
Qed.

Lemma healthy_run {A} (m : M A) w r w1 :
  keeps evolves m → healthy w → m w = (r, w1) → healthy w1.
Proof. intros Hk H E. eapply evolves_healthy; [|done]. by eapply keeps_run. Qed.

Ltac step_evolves := autounfold with store; keeps_auto.

(** Close an equation between closed terms by evaluation. *)
Ltac vm_refl :=
  match goal with |- ?a = ?b => vm_cast_no_check (@eq_refl _ b) end.

(** Settle a decidable closed proposition by evaluation. *)
Ltac vm_decide :=
  match goal with |- ?P => refine (@bool_decide_eq_true_1 P _ _); vm_refl end.

Ltac run_healthy H :=
  autounfold with store;
  unfold bind_, command, try_catch, lift, ret, throw, world_of, outcome;
  simpl; repeat (rewrite H; simpl).

Section Running.
Variable deviceId : string.
Variable CIPHERTEXT : Z.

Lemma upsert_chat_run w chat :
  healthy w →
  ∃ w', upsert_chat deviceId chat w = (Ok tt, w') ∧
    strings w' =
      <[key_chatmeta deviceId (to_String (field chat "id")) := JSON_stringify chat]> (strings w) ∧
    lists w' = lists w ∧
    (∀ key, set_at w' key =
       if decide (key_knownJIDs deviceId = key)
       then {[toArg (field chat "id")]} ∪ set_at w key else set_at w key).
Proof.
  intros H. run_healthy H. eexists; split; [reflexivity|]. simpl.
  repeat split. intros key. rewrite set_at_insert. by case_decide; subst.
Qed.

Lemma on_chats_upsert_run w chats :
  healthy w →
  ∃ w', on_chats_upsert deviceId chats w = (Ok tt, w') ∧
    strings w' = chat_writes deviceId chats ∪ strings w ∧
    lists w' = lists w ∧
    (∀ key, set_at w' key =
       if decide (key_knownJIDs deviceId = key)
       then chat_ids chats ∪ set_at w key else set_at w key).
Proof.
  unfold on_chats_upsert. revert w.
  induction chats as [|chat rest IH]; intros w H; simpl.
  - exists w. repeat split; [by rewrite (left_id_L ∅ (∪))|].
    intros key. case_decide; [|done]. unfold chat_ids; simpl. set_solver.
  - destruct (upsert_chat_run w chat H) as (w1 & E1 & S1 & L1 & K1).
    assert (H1 : healthy w1) by exact ((healthy_run _ _ _ _ (upsert_chat_evolves deviceId _) H E1)).
    destruct (IH w1 H1) as (w2 & E2 & S2 & L2 & K2).
    exists w2. rewrite (bind_run _ _ _ _ _ E1), E2. repeat split.
    + rewrite S2, S1. rewrite <- (assoc_L (∪)). f_equal.
      by rewrite insert_union_singleton_l.
    + congruence.
    + intros key. rewrite K2, K1. case_decide; [|done].
      unfold chat_ids; simpl. set_solver.
Qed.

(** On a message that has a key the history loop does what the upsert
    loop does: the placeholder test only skips what the guard
    [jid && msg.message] rejects anyway. *)
Lemma history_message_upsert msg w :
  has_key msg →
  history_message deviceId CIPHERTEXT msg w = upsert_message deviceId msg w.
Proof.
  unfold has_key, history_message, upsert_message, get_prop. intros ->.
  destruct (truthy (field msg "message")) eqn:Em; simpl; [done|].
  destruct (strict_eq_num _ _); unfold bind_, lift; simpl; [|done].
  by rewrite andb_false_r.
Qed.

Lemma upsert_message_run w msg :
  healthy w → has_key msg →
  ∃ w', upsert_message deviceId msg w = (Ok tt, w') ∧
    strings w' = strings w ∧
    (∀ c, stored_messages deviceId w' c =
       stored_messages deviceId w c
         ++ (if accepted_for c msg then [JSON_stringify msg] else [])) ∧
    (∀ key, set_at w' key =
       if decide (key_knownJIDs deviceId = key)
       then (if accepted msg then {[to_String (remoteJid_of msg)]} else ∅) ∪ set_at w key
       else set_at w key).
Proof.
  intros H Hk. unfold has_key in Hk. unfold accepted_for, accepted, remoteJid_of.
  unfold upsert_message, get_prop. rewrite Hk.
  set (jid := read_prop (field msg "key") "remoteJid").
  unfold bind_ at 1, lift; simpl.
  destruct (truthy jid && truthy (field msg "message")) eqn:Ea; simpl.
  - run_healthy H. eexists; split; [reflexivity|]. simpl. repeat split.
    + intros c. unfold stored_messages. rewrite list_at_insert.
      destruct (String.eqb_spec (to_String jid) c) as [->|Hne].
      * by rewrite decide_True.
      * rewrite decide_False; [by rewrite app_nil_r|].
        intros Heq. by apply key_messages_inj in Heq.
    + intros key. rewrite set_at_insert. case_decide; subst; [|done].
      assert (toArg jid = to_String jid) as ->; [|done].
      unfold toArg. destruct jid; simpl in *; done.
  - exists w. repeat split.
    + intros c. by rewrite app_nil_r.
    + intros key. case_decide; [|done]. by rewrite (left_id_L ∅ (∪)).
Qed.

Lemma message_loop_run w messages :
  healthy w → Forall has_key messages →
  ∃ w', for_of messages (upsert_message deviceId) w = (Ok tt, w') ∧
    strings w' = strings w ∧
    (∀ c, stored_messages deviceId w' c =
       stored_messages deviceId w c ++ appended_for c messages) ∧
    (∀ key, set_at w' key =
       if decide (key_knownJIDs deviceId = key)
       then message_jids messages ∪ set_at w key else set_at w key).
Proof.
  revert w. induction messages as [|msg rest IH]; intros w H Hk; simpl.
  - exists w. repeat split.
    + intros c. unfold appended_for; simpl. by rewrite app_nil_r.
    + intros key. case_decide; [|done]. unfold message_jids; simpl. set_solver.
  - inversion Hk as [|? ? Hm Hr]; subst.
    destruct (upsert_message_run w msg H Hm) as (w1 & E1 & S1 & L1 & K1).
    assert (H1 : healthy w1) by exact ((healthy_run _ _ _ _ (upsert_message_evolves deviceId _) H E1)).
    destruct (IH w1 H1 Hr) as (w2 & E2 & S2 & L2 & K2).
    exists w2. rewrite (bind_run _ _ _ _ _ E1), E2. repeat split.
    + congruence.
    + intros c. rewrite L2, L1, <- (assoc_L (++)). f_equal.
      unfold appended_for; simpl. by destruct (accepted_for c msg).
    + intros key. rewrite K2, K1. case_decide; [|done].
      unfold message_jids; simpl. destruct (accepted msg); simpl; set_solver.
Qed.

Lemma history_loop_run w messages :
  Forall has_key messages →
  for_of messages (history_message deviceId CIPHERTEXT) w
  = for_of messages (upsert_message deviceId) w.
Proof.
  revert w. induction messages as [|msg rest IH]; intros w Hk; simpl; [done|].
  inversion Hk as [|? ? Hm Hr]; subst. unfold bind_.
  rewrite (history_message_upsert msg w Hm).
  destruct (upsert_message deviceId msg w) as [[[]|e] w1]; [|done].
  by apply IH.
Qed.

Lemma history_chat_run sock w chat :
  healthy w → string_id chat →
  ∃ w', history_chat deviceId sock chat w = (Ok tt, w') ∧
    lists w' = lists w ∧
    (∀ key, set_at w' key =
       if decide (key_knownJIDs deviceId = key)
       then {[toArg (field chat "id")]} ∪ set_at w key else set_at w key).
Proof.
  intros H [id Hid]. unfold history_chat. rewrite Hid.
  run_healthy H.
  destruct (ends_with id "@g.us"); simpl.
  - destruct (groupMetadata sock) as [answer|]; simpl.
    + destruct (answer _ _); simpl; repeat (rewrite H; simpl);
        (eexists; split; [reflexivity|]; simpl; split; [done|]);
        intros key; unfold set_at; simpl; rewrite lookup_insert;
        by case_decide; subst.
    + eexists; split; [reflexivity|]; simpl; split; [done|].
      intros key; unfold set_at; simpl; rewrite lookup_insert.
      by case_decide; subst.
  - eexists; split; [reflexivity|]; simpl; split; [done|].
    intros key; unfold set_at; simpl; rewrite lookup_insert.
    by case_decide; subst.
Qed.

Lemma history_chats_run sock w chats :
  healthy w → Forall string_id chats →
  ∃ w', for_of chats (history_chat deviceId sock) w = (Ok tt, w') ∧
    lists w' = lists w ∧
    (∀ key, set_at w' key =
       if decide (key_knownJIDs deviceId = key)
       then chat_ids chats ∪ set_at w key else set_at w key).
Proof.
  revert w. induction chats as [|chat rest IH]; intros w H Hs; simpl.
  - exists w. repeat split. intros key. case_decide; [|done].
    unfold chat_ids; simpl. set_solver.
  - inversion Hs as [|? ? Hc Hr]; subst.
    destruct (history_chat_run sock w chat H Hc) as (w1 & E1 & L1 & K1).
    assert (H1 : healthy w1) by exact ((healthy_run _ _ _ _ (history_chat_evolves deviceId _ _) H E1)).
    destruct (IH w1 H1 Hr) as (w2 & E2 & L2 & K2).
    exists w2. rewrite (bind_run _ _ _ _ _ E1), E2. repeat split.
    + congruence.
    + intros key. rewrite K2, K1. case_decide; [|done].
      unfold chat_ids; simpl. set_solver.
Qed.

Lemma history_contacts_run w contacts :
  healthy w →
  ∃ w', for_of contacts (set_contact deviceId) w = (Ok tt, w') ∧
    lists w' = lists w ∧ sets w' = sets w.
Proof.
  revert w. induction contacts as [|contact rest IH]; intros w H; simpl.
  - by exists w.
  - assert (∃ w1, set_contact deviceId contact w = (Ok tt, w1) ∧
              lists w1 = lists w ∧ sets w1 = sets w) as (w1 & E1 & L1 & K1).
    { run_healthy H. by eexists. }
    assert (H1 : healthy w1) by exact ((healthy_run _ _ _ _ (set_contact_evolves deviceId _) H E1)).
    destruct (IH w1 H1) as (w2 & E2 & L2 & K2).
    exists w2. rewrite (bind_run _ _ _ _ _ E1), E2. repeat split; congruence.
Qed.

(** The whole history handler on a well-typed snapshot. *)
Lemma on_messaging_history_set_run sock w chats contacts messages :
  healthy w → Forall has_key messages → Forall string_id chats →
  ∃ w', on_messaging_history_set deviceId CIPHERTEXT sock chats contacts messages w
        = (Ok tt, w') ∧
    (∀ c, stored_messages deviceId w' c =
       stored_messages deviceId w c ++ appended_for c messages) ∧
    known deviceId w' = chat_ids chats ∪ message_jids messages ∪ known deviceId w.
Proof.
  intros H Hk Hs. unfold on_messaging_history_set.
  destruct (message_loop_run w messages H Hk) as (w1 & E1 & S1 & L1 & K1).
  rewrite <- history_loop_run in E1 by done.
  assert (H1 : healthy w1).
  { exact (healthy_run _ _ _ _ (history_messages_evolves deviceId CIPHERTEXT _) H E1). }
  destruct (history_chats_run sock w1 chats H1 Hs) as (w2 & E2 & L2 & K2).
  assert (H2 : healthy w2).
  { exact (healthy_run _ _ _ _ (history_chats_evolves deviceId _ _) H1 E2). }
  destruct (history_contacts_run w2 contacts H2) as (w3 & E3 & L3 & K3).
  exists w3. split.
  - unfold bind_ at 1, try_catch. rewrite E1. by rewrite (bind_run _ _ _ _ _ E2).
  - split.
    + intros c. unfold stored_messages in *. unfold list_at in *.
      by rewrite L3, L2, L1.
    + unfold known, set_at. rewrite K3. fold (set_at w2 (key_knownJIDs deviceId)).
      rewrite K2, K1, !decide_True by done. set_solver.
Qed.
End Running.

(** *** The list commands *)

Lemma lrange_all {A} (l : list A) : lrange l 0 (-1) = l.
Proof.
  unfold lrange. simpl.
  destruct l as [|x l]; [done|].
  set (len := Z.of_nat (length (x :: l))).
  assert (0 < len)%Z by (unfold len; simpl; lia).
  rewrite (proj2 (Z.ltb_ge (len + -1) 0)) by lia.
  rewrite (proj2 (Z.leb_gt len 0)) by lia.
  rewrite (proj2 (Z.leb_gt len (len + -1))) by lia. simpl.
  replace (Z.to_nat (len + -1 - 0 + 1)) with (length (x :: l)) by (unfold len; lia).
  by rewrite firstn_all.
Qed.

Lemma lindex_last {A} (l : list A) : lindex l (-1) = last l.
Proof.
  unfold lindex. simpl.
  destruct l as [|x l] using rev_ind; [done|].
  rewrite length_app, last_snoc. simpl.
  rewrite (proj2 (Z.ltb_ge (Z.of_nat (length l + 1) + -1) 0)) by lia.
  replace (Z.to_nat (Z.of_nat (length l + 1) + -1)) with (length l) by lia.
  by rewrite list_lookup_middle.
Qed.

Section Reading.
Variable deviceId : string.

Lemma getMessages_run w jid :
  healthy w →
  getMessages deviceId jid w
  = (Ok (map JSON_parse (stored_messages deviceId w jid)), issued w).
Proof. intros H. run_healthy H. by rewrite lrange_all. Qed.
End Reading.

Section Handling.
Variable deviceId : string.
Variable CIPHERTEXT : Z.

(** What a listener does to the message lists and to the known set. *)
Lemma handle_run sock e w :
  healthy w → well_typed e →
  let w' := world_of (handle deviceId CIPHERTEXT sock e w) in
  (∀ c, stored_messages deviceId w' c =
     stored_messages deviceId w c ++ appended_for c (messages_of e)) ∧
  known deviceId w' =
    chat_ids (chats_of e) ∪ message_jids (messages_of e) ∪ known deviceId w.
Proof.
  intros H [Hk Hs].
  assert (Hother : messages_of e = [] → chats_of e = [] →
    let w' := world_of (handle deviceId CIPHERTEXT sock e w) in
    (∀ c, stored_messages deviceId w' c =
       stored_messages deviceId w c ++ appended_for c (messages_of e)) ∧
    known deviceId w' =
      chat_ids (chats_of e) ∪ message_jids (messages_of e) ∪ known deviceId w).
  { intros Em Ec. simpl. rewrite Em, Ec.
    pose proof (handle_same_lists deviceId CIPHERTEXT sock e Em w) as Hl.
    pose proof (handle_same_sets deviceId CIPHERTEXT sock e Em Ec w) as Ht.
    unfold same_lists in Hl. unfold same_sets in Ht. split.
    - intros c. unfold stored_messages, list_at. rewrite Hl.
      unfold appended_for; simpl. by rewrite app_nil_r.
    - unfold known, set_at. rewrite Ht. unfold chat_ids, message_jids; simpl.
      set_solver. }
  destruct e as [chats contacts messages|messages|chats|?|?|?|?];
    try (by apply Hother); simpl in *.
  - destruct (on_messaging_history_set_run deviceId CIPHERTEXT sock w
                chats contacts messages H Hk Hs) as (w1 & E1 & L1 & K1).
    by rewrite E1.
  - destruct (message_loop_run deviceId w messages H Hk) as (w1 & E1 & S1 & L1 & K1).
    unfold on_messages_upsert. rewrite E1. simpl. split; [done|].
    unfold known. rewrite K1, decide_True by done.
    unfold chat_ids; simpl. set_solver.
  - destruct (on_chats_upsert_run deviceId w chats H) as (w1 & E1 & S1 & L1 & K1).
    rewrite E1. simpl. split.
    + intros c. unfold stored_messages, list_at. rewrite L1.
      unfold appended_for; simpl. by rewrite app_nil_r.
    + unfold known. rewrite K1, decide_True by done.
      unfold message_jids; simpl. set_solver.
Qed.

Lemma deliver_healthy sock events w :
  healthy w → healthy (deliver deviceId CIPHERTEXT sock events w).
Proof. apply evolves_healthy, deliver_evolves. Qed.

Lemma deliver_run sock events w c :
  healthy w → Forall well_typed events →
  stored_messages deviceId (deliver deviceId CIPHERTEXT sock events w) c =
    stored_messages deviceId w c ++ appended_for c (flat_map messages_of events).
Proof.
  revert w. induction events as [|e rest IH]; intros w H Ht; simpl.
  - unfold appended_for; simpl. by rewrite app_nil_r.
  - inversion Ht as [|? ? He Hr]; subst.
    rewrite IH; [|by apply (evolves_healthy w); [apply handle_evolves|]|done].
    destruct (handle_run sock e w H He) as [L _]. rewrite L.
    rewrite <- (assoc_L (++)). f_equal.
    unfold appended_for. by rewrite List.filter_app, map_app.
Qed.
End Handling.

(** ** The claims *)

Lemma fresh_world_healthy : healthy fresh_world.
Proof. intros n. reflexivity. Qed.

(** C7. Handling the same [chats.upsert] event twice in succession leaves
    the stored chat metadata as handling it once does: every [getChat]
    answers the same, and the whole data set (strings, lists, sets) is the
    same. *)
Theorem chats_upsert_idempotent deviceId CIPHERTEXT sock chats w :
  healthy w →
  let once := world_of (handle deviceId CIPHERTEXT sock (chats_upsert chats) w) in
  let twice := world_of (handle deviceId CIPHERTEXT sock (chats_upsert chats) once) in
  (∀ chat, chat ∈ chats →
     strings twice !! key_chatmeta deviceId (to_String (field chat "id"))
     = strings once !! key_chatmeta deviceId (to_String (field chat "id"))) ∧
  (∀ jid, outcome (getChat deviceId jid twice) = outcome (getChat deviceId jid once)) ∧
  strings twice = strings once ∧ lists twice = lists once ∧
  (∀ key, set_at twice key = set_at once key).
Proof.
  intros H. simpl.
  destruct (on_chats_upsert_run deviceId w chats H) as (w1 & E1 & S1 & L1 & K1).
  rewrite E1. simpl.
  assert (H1 : healthy w1) by exact ((healthy_run _ _ _ _ (on_chats_upsert_evolves deviceId _) H E1)).
  destruct (on_chats_upsert_run deviceId w1 chats H1) as (w2 & E2 & S2 & L2 & K2).
  rewrite E2. simpl.
  assert (H2 : healthy w2) by exact ((healthy_run _ _ _ _ (on_chats_upsert_evolves deviceId _) H1 E2)).
  assert (S : strings w2 = strings w1).
  { by rewrite S2, S1, (assoc_L (∪)), (idemp_L (∪)). }
  repeat split.
  - intros chat _. by rewrite S.
  - intros jid. run_healthy H2. run_healthy H1. by rewrite S.
  - done.
  - done.
  - intros key. rewrite K2, K1. case_decide; [|done]. set_solver.
Qed.

Lemma chats_upsert_idempotent_witness :
  healthy fresh_world ∧
  let e := chats_upsert [ {[ "id" := VStr "team@g.us"; "name" := VStr "Team" ]} ] in
  let once := world_of (handle "dev" 2 offline_socket e fresh_world) in
  let twice := world_of (handle "dev" 2 offline_socket e once) in
  strings twice = strings once.
Proof.
  split; [exact fresh_world_healthy|].
  exact (proj1 (proj2 (proj2
    (chats_upsert_idempotent "dev" 2 offline_socket
       [ {[ "id" := VStr "team@g.us"; "name" := VStr "Team" ]} ]
       fresh_world fresh_world_healthy)))).
Defined.

(** C1 (as stated, refuted). The handler of [contacts.upsert] run on a
    contact of id [alice@s.whatsapp.net], from a fresh store, leaves the
    known set without that id, although the event carries it. *)
Lemma contact_id_is_not_registered :
  let alice := "alice@s.whatsapp.net" in
  let e := contacts_upsert [ {[ "id" := VStr alice; "name" := VStr "Alice" ]} ] in
  let w' := world_of (handle "dev" 2 offline_socket e fresh_world) in
  (healthy fresh_world ∧ well_typed e ∧ alice ∈ carried_ids e) ∧
  (alice ∉ known "dev" w') ∧
  (¬ every_carried_id_is_known).
Proof.
  intros alice e w'.
  assert (Ht : well_typed e) by (split; [constructor|done]).
  assert (Hc : alice ∈ carried_ids e) by vm_decide.
  assert (Hn : alice ∉ known "dev" w') by vm_decide.
  split; [exact (conj fresh_world_healthy (conj Ht Hc))|]. split; [exact Hn|].
  intros Hclaim. apply Hn.
  exact (Hclaim "dev" 2%Z offline_socket e fresh_world alice fresh_world_healthy Ht Hc).
Qed.

(** C1 (amended). After a listener has run on a well-typed event, with Redis
    reachable, the known set is the set before together with the ids of the
    event's chats (history snapshot, chats.upsert) and the remoteJid of every
    message that has a non-empty remoteJid and a content payload (history
    snapshot, messages.upsert): contact ids and group ids are not added.
    And no operation of the store, on any world, removes a member. *)
Theorem known_conversations_grow deviceId CIPHERTEXT sock e w :
  healthy w → well_typed e →
  known deviceId (world_of (handle deviceId CIPHERTEXT sock e w))
  = chat_ids (chats_of e) ∪ message_jids (messages_of e) ∪ known deviceId w ∧
  (∀ o w0, known deviceId w0 ⊆ known deviceId (perform deviceId CIPHERTEXT o w0)).
Proof.
  intros H Ht. split.
  - apply (handle_run deviceId CIPHERTEXT sock e w H Ht).
  - intros o w0. apply perform_evolves.
Qed.

Lemma known_conversations_grow_witness :
  let e := messages_upsert
             [ text_message "bob@s.whatsapp.net" "m1" "hi";
               stub_message "carol@s.whatsapp.net" "m2" 20 ] in
  (healthy fresh_world ∧ well_typed e) ∧
  known "dev" (world_of (handle "dev" 2 offline_socket e fresh_world))
  = chat_ids (chats_of e) ∪ message_jids (messages_of e) ∪ known "dev" fresh_world.
Proof.
  assert (Ht : well_typed
                 (messages_upsert
                    [ text_message "bob@s.whatsapp.net" "m1" "hi";
                      stub_message "carol@s.whatsapp.net" "m2" 20 ])).
  { split; [|done]. repeat constructor. }
  split; [split; [exact fresh_world_healthy|exact Ht]|].
  exact (proj1 (known_conversations_grow "dev" 2 offline_socket _ fresh_world
                  fresh_world_healthy Ht)).
Defined.

(** C2. Starting from any world with Redis reachable, after any sequence of
    well-typed events, [getMessages c] returns the messages stored for [c]
    before, followed by the messages of the events that were appended for
    [c] (those addressed to [c] that carry content), in the order of their
    delivery, whatever was delivered for other conversations in between.
    And no operation of the store, on any world, changes the entries already
    in a list or their order: the old list is a prefix of the new one. *)
Theorem messages_append_in_order deviceId CIPHERTEXT sock events w c :
  healthy w → Forall well_typed events →
  outcome (getMessages deviceId c (deliver deviceId CIPHERTEXT sock events w))
  = Ok (map JSON_parse
          (stored_messages deviceId w c
             ++ map JSON_stringify
                  (List.filter (accepted_for c) (flat_map messages_of events)))) ∧
  (∀ o w0 jid,
     stored_messages deviceId w0 jid
       `prefix_of` stored_messages deviceId (perform deviceId CIPHERTEXT o w0) jid).
Proof.
  intros H Ht. split.
  - rewrite getMessages_run by by apply deliver_healthy.
    simpl. by rewrite deliver_run.
  - intros o w0 jid. apply perform_evolves.
Qed.

Lemma messages_append_in_order_witness :
  let c := "chat-c@s.whatsapp.net" in
  let d := "chat-d@s.whatsapp.net" in
  let m1 := text_message c "1" "one" in
  let m2 := text_message c "2" "two" in
  let m3 := text_message c "3" "three" in
  let events :=
    [ messages_upsert [ m1; text_message d "x" "other" ];
      messages_upsert [ text_message d "y" "other"; m2 ];
      messages_upsert [ text_message d "z" "other" ];
      messages_upsert [ m3 ] ] in
  (healthy fresh_world ∧ Forall well_typed events) ∧
  outcome (getMessages "dev" c (deliver "dev" 2 offline_socket events fresh_world))
  = Ok [ m1; m2; m3 ].
Proof.
  intros c d m1 m2 m3 events.
  assert (Ht : Forall well_typed events).
  { repeat constructor. }
  split; [split; [exact fresh_world_healthy|exact Ht]|].
  rewrite (proj1 (messages_append_in_order "dev" 2 offline_socket events fresh_world c
                    fresh_world_healthy Ht)).
  vm_refl.
Defined.

(** C3 (as stated, refuted). A snapshot message addressed to [team@g.us]
    that has no content and the stub type 20, with 2 the code of the
    undecryptable placeholder, is not a placeholder and has a remoteJid; the
    handler neither appends it nor registers its conversation. *)
Lemma stub_without_content_is_not_appended :
  let c := "team@g.us" in
  let msg := stub_message c "s1" 20 in
  let e := messaging_history_set [] [] [msg] in
  let w' := world_of (handle "dev" 2 offline_socket e fresh_world) in
  (healthy fresh_world ∧ well_typed e ∧
   placeholder 2 msg = false ∧ remoteJid_of msg = VStr c) ∧
  (stored_messages "dev" w' c = [] ∧ c ∉ known "dev" w') ∧
  (¬ every_other_message_is_appended).
Proof.
  intros c msg e w'.
  assert (Ht : well_typed e) by (split; repeat constructor).
  assert (Hn : c ∉ known "dev" w') by vm_decide.
  assert (Hp : placeholder 2 msg = false) by vm_refl.
  assert (Hj : remoteJid_of msg = VStr c) by vm_refl.
  split; [exact (conj fresh_world_healthy (conj Ht (conj Hp Hj)))|].
  split; [split; [vm_refl|exact Hn]|].
  intros Hclaim. apply Hn.
  refine (proj2 (Hclaim "dev" 2%Z offline_socket [] [] [msg] fresh_world msg c
                   fresh_world_healthy Ht _ Hp Hj _)).
  - apply list_elem_of_here.
  - discriminate.
Qed.

(** C3 (amended). For a well-typed history snapshot, with Redis reachable:
    a message is appended to the list of the conversation it is addressed to,
    and that conversation joins the known set, exactly when the message has a
    non-empty remoteJid and a content payload. A message without content, the
    undecryptable placeholder among them, is not appended and registers
    nothing: the known set gains the chat ids of the snapshot and the
    conversations of the appended messages, nothing else. *)
Theorem history_appends_messages_with_content
    deviceId CIPHERTEXT sock chats contacts messages w :
  healthy w → well_typed (messaging_history_set chats contacts messages) →
  let w' := world_of (handle deviceId CIPHERTEXT sock
                        (messaging_history_set chats contacts messages) w) in
  (∀ c, stored_messages deviceId w' c
        = stored_messages deviceId w c
            ++ map JSON_stringify (List.filter (accepted_for c) messages)) ∧
  known deviceId w' = chat_ids chats ∪ message_jids messages ∪ known deviceId w ∧
  (∀ msg c, accepted_for c msg = true ↔
     truthy (remoteJid_of msg) = true ∧ truthy (field msg "message") = true ∧
     to_String (remoteJid_of msg) = c) ∧
  (∀ msg, placeholder CIPHERTEXT msg = true → accepted msg = false).
Proof.
  intros H Ht.
  destruct (handle_run deviceId CIPHERTEXT sock _ w H Ht) as [L K].
  repeat split.
  - exact L.
  - exact K.
  - unfold accepted_for, accepted in *.
    destruct (truthy (remoteJid_of msg)); [done|by rewrite andb_false_l in *].
  - unfold accepted_for, accepted in *.
    destruct (truthy (field msg "message")); [done|].
    by rewrite andb_false_r, andb_false_l in *.
  - unfold accepted_for in *. apply andb_true_iff in H0 as [_ H0].
    by apply String.eqb_eq.
  - intros (H1 & H2 & H3). unfold accepted_for, accepted.
    rewrite H1, H2; simpl. by apply String.eqb_eq.
  - intros msg Hp. unfold placeholder in Hp. unfold accepted.
    apply andb_true_iff in Hp as [Hp _]. apply negb_true_iff in Hp.
    by rewrite Hp, andb_false_r.
Qed.

Lemma history_appends_messages_with_content_witness :
  let c := "team@g.us" in
  let messages :=
    [ text_message c "1" "hello"; stub_message c "2" 2; stub_message c "3" 20 ] in
  let e := messaging_history_set [] [] messages in
  (healthy fresh_world ∧ well_typed e) ∧
  stored_messages "dev" (world_of (handle "dev" 2 offline_socket e fresh_world)) c
  = [ JSON_stringify (text_message c "1" "hello") ].
Proof.
  intros c messages e.
  assert (Ht : well_typed e) by (split; repeat constructor).
  split; [split; [exact fresh_world_healthy|exact Ht]|].
  rewrite (proj1 (history_appends_messages_with_content "dev" 2 offline_socket
                    [] [] messages fresh_world fresh_world_healthy Ht)).
  vm_refl.
Defined.

(** *** Contacts *)

Lemma field_json_obj (o : obj) (k : string) :
  field (json_obj o) k = json_norm (field o k).
Proof.
  unfold field, json_obj. rewrite lookup_omap.
  destruct (o !! k) as [v|]; simpl; [|done]. by destruct v.
Qed.

Lemma upsert_contact_run deviceId w contact :
  healthy w →
  let key := key_contact deviceId (to_String (field contact "id")) in
  let existing := parse_or_empty (strings w !! key) in
  ∃ w', upsert_contact deviceId contact w = (Ok tt, w') ∧
    strings w' = <[key := JSON_stringify (merged_contact existing contact)]> (strings w) ∧
    lists w' = lists w ∧ sets w' = sets w.
Proof. intros H. run_healthy H. by eexists. Qed.

Lemma merged_contact_name existing contact k :
  name_field k = true →
  field (merged_contact existing contact) k
  = if truthy (field contact k) then field contact k else field existing k.
Proof.
  unfold name_field. intros Hk.
  apply orb_true_iff in Hk as [Hk|Hk]; [apply orb_true_iff in Hk as [Hk|Hk]|];
    apply String.eqb_eq in Hk; subst k; unfold merged_contact, field at 1.
  - rewrite lookup_insert_ne, lookup_insert_ne, lookup_insert_eq by done. done.
  - rewrite lookup_insert_ne, lookup_insert_eq by done. done.
  - rewrite lookup_insert_eq. done.
Qed.

Lemma merged_contact_other existing contact k :
  name_field k = false →
  merged_contact existing contact !! k
  = match contact !! k with Some v => Some v | None => existing !! k end.
Proof.
  unfold name_field. intros Hk.
  apply orb_false_iff in Hk as [Hk H3]. apply orb_false_iff in Hk as [H1 H2].
  apply String.eqb_neq in H1, H2, H3.
  unfold merged_contact, spread.
  rewrite !lookup_insert_ne by done. rewrite lookup_union.
  destruct (contact !! k), (existing !! k); done.
Qed.

(** The handler on a list of contacts, with Redis reachable: it resolves,
    and writes to the keys of the contacts it is given and to no other. *)
Lemma on_contacts_upsert_run deviceId w contacts :
  healthy w →
  ∃ w', on_contacts_upsert deviceId contacts w = (Ok tt, w') ∧ healthy w' ∧
    lists w' = lists w ∧ sets w' = sets w ∧
    (∀ key, Forall (λ c, key_contact deviceId (to_String (field c "id")) ≠ key) contacts →
            strings w' !! key = strings w !! key).
Proof.
  unfold on_contacts_upsert. revert w.
  induction contacts as [|contact rest IH]; intros w H.
  - by exists w.
  - destruct (upsert_contact_run deviceId w contact H) as (w1 & E1 & S1 & L1 & K1).
    assert (H1 : healthy w1).
    { refine (healthy_run _ _ _ _ _ H E1). step_evolves. }
    destruct (IH w1 H1) as (w2 & E2 & H2 & L2 & K2 & F2).
    exists w2. simpl for_of. rewrite (bind_run _ _ _ _ _ E1), E2.
    split; [done|]. split; [done|]. split; [congruence|]. split; [congruence|].
    intros key Hk. inversion Hk as [|? ? Hc Hr]; subst.
    rewrite (F2 key Hr), S1. by rewrite lookup_insert_ne.
Qed.

(** C4. With Redis reachable, the [contacts.upsert] handler takes the
    contacts of the event in order and resolves, and for each of them, the
    first as well as any later one, it replaces the record stored under the
    contact's key at that moment by the JSON text of the merge of that
    record (the empty object when there is none) with the incoming contact,
    and writes nothing else. In the merge each of [name], [verifiedName] and
    [notify] is the incoming value when that is non-empty (truthy) and the
    existing value otherwise, and every other field is the incoming one when
    the update names it and the existing one otherwise. The record of a
    contact that the event does not name is not touched. Merging
    [{name: "", verifiedName: "Alice V"}] into [{name: "Alice", notify: "A"}]
    gives [{name: "Alice", notify: "A", verifiedName: "Alice V"}]. *)
Theorem contacts_upsert_merges deviceId CIPHERTEXT sock pre contact post w :
  healthy w →
  let run contacts := handle deviceId CIPHERTEXT sock (contacts_upsert contacts) in
  let before := world_of (run pre w) in
  let after := world_of (run (pre ++ [contact]) w) in
  let key := key_contact deviceId (to_String (field contact "id")) in
  let existing := parse_or_empty (strings before !! key) in
  let merged := merged_contact existing contact in
  outcome (run (pre ++ contact :: post) w) = Ok tt ∧
  world_of (run (pre ++ contact :: post) w) = world_of (run post after) ∧
  strings after = <[key := JSON_stringify merged]> (strings before) ∧
  strings after !! key = Some (JSON_stringify merged) ∧
  (∀ k, name_field k = true →
     field merged k
     = if truthy (field contact k) then field contact k else field existing k) ∧
  (∀ k, name_field k = true →
     field (JSON_parse (JSON_stringify merged)) k
     = json_norm (if truthy (field contact k) then field contact k else field existing k)) ∧
  (∀ k, name_field k = false →
     merged !! k = match contact !! k with Some v => Some v | None => existing !! k end) ∧
  (∀ id, Forall (λ c, to_String (field c "id") ≠ id) (pre ++ contact :: post) →
     strings (world_of (run (pre ++ contact :: post) w)) !! key_contact deviceId id
     = strings w !! key_contact deviceId id) ∧
  merged_contact
    {[ "name" := VStr "Alice"; "notify" := VStr "A" ]}
    {[ "name" := VStr ""; "verifiedName" := VStr "Alice V" ]}
  = {[ "name" := VStr "Alice"; "notify" := VStr "A"; "verifiedName" := VStr "Alice V" ]}.
Proof.
  intros H. simpl.
  destruct (on_contacts_upsert_run deviceId w pre H) as (w0 & E0 & H0 & _).
  destruct (upsert_contact_run deviceId w0 contact H0) as (w1 & E1 & S1 & _).
  assert (H1 : healthy w1).
  { refine (healthy_run _ _ _ _ _ H0 E1). step_evolves. }
  destruct (on_contacts_upsert_run deviceId w1 post H1) as (w2 & E2 & H2 & _).
  assert (Ea : on_contacts_upsert deviceId (pre ++ [contact]) w = (Ok tt, w1)).
  { unfold on_contacts_upsert in *. rewrite for_of_app, (bind_run _ _ _ _ _ E0).
    simpl for_of. by rewrite (bind_run _ _ _ _ _ E1). }
  assert (Er : on_contacts_upsert deviceId (pre ++ contact :: post) w = (Ok tt, w2)).
  { unfold on_contacts_upsert in *. rewrite for_of_app, (bind_run _ _ _ _ _ E0).
    simpl for_of. by rewrite (bind_run _ _ _ _ _ E1). }
  rewrite E0, Ea, Er. simpl. rewrite E2. simpl.
  split; [done|]. split; [done|]. split; [exact S1|].
  split; [by rewrite S1, lookup_insert_eq|].
  split; [apply merged_contact_name|]. split.
  { intros k Hk. by rewrite field_json_obj, merged_contact_name. }
  split; [apply merged_contact_other|]. split; [|vm_refl].
  intros id Hid.
  destruct (on_contacts_upsert_run deviceId w (pre ++ contact :: post) H)
    as (w2' & Er' & _ & _ & _ & F).
  rewrite Er in Er'. injection Er' as <-. apply F.
  eapply Forall_impl; [exact Hid|]. intros c Hc Hk. simpl in Hc.
  by apply key_contact_inj in Hk.
Qed.

Lemma contacts_upsert_merges_witness :
  let alice := "alice@s.whatsapp.net" in
  let bob := "bob@s.whatsapp.net" in
  let w :=
    world_of (handle "dev" 2 offline_socket
                (contacts_upsert
                   [ {[ "id" := VStr alice; "name" := VStr "Alice"; "notify" := VStr "A" ]} ])
                fresh_world) in
  let first : obj := {[ "id" := VStr bob; "name" := VStr "Bob" ]} in
  let second : obj :=
    {[ "id" := VStr alice; "name" := VStr ""; "verifiedName" := VStr "Alice V" ]} in
  let third : obj := {[ "id" := VStr bob; "notify" := VStr "B" ]} in
  let r := handle "dev" 2 offline_socket (contacts_upsert [first; second; third]) w in
  healthy w ∧
  outcome r = Ok tt ∧
  strings (world_of (handle "dev" 2 offline_socket (contacts_upsert [first; second]) w))
    !! key_contact "dev" alice
  = Some (Doc {[ "id" := VStr alice; "name" := VStr "Alice"; "notify" := VStr "A";
                 "verifiedName" := VStr "Alice V" ]}) ∧
  strings (world_of r) !! key_contact "dev" bob
  = Some (Doc {[ "id" := VStr bob; "name" := VStr "Bob"; "notify" := VStr "B" ]}).
Proof.
  intros alice bob w first second third r.
  assert (H : healthy w) by (intros n; reflexivity).
  destruct (contacts_upsert_merges "dev" 2 offline_socket [first] second [third] w H)
    as (Ho & _ & _ & Hs & _).
  split; [exact H|]. split; [exact Ho|]. split.
  - refine (eq_trans Hs _). vm_refl.
  - vm_refl.
Defined.

(** *** Windows *)

Lemma lrange_latest {A} (l : list A) (k : Z) :
  (0 ≤ k)%Z →
  lrange l (Z.max (Z.of_nat (length l) - k) 0) (Z.of_nat (length l) - 1)
  = drop (length l - Z.to_nat k) l.
Proof.
  intros Hk.
  destruct (decide (l = [])) as [->|Hne].
  { unfold lrange. rewrite drop_nil, take_nil. by repeat case_match. }
  unfold lrange.
  set (n := Z.of_nat (length l)). set (start := Z.max (n - k) 0).
  assert (0 ≤ start)%Z by (unfold start; lia).
  rewrite (proj2 (Z.ltb_ge start 0)) by lia.
  assert (0 < n)%Z.
  { unfold n. destruct l; [done|simpl; lia]. }
  rewrite (proj2 (Z.ltb_ge (n - 1) 0)) by lia.
  rewrite (proj2 (Z.ltb_ge start 0)) by lia.
  destruct (decide (k = 0%Z)) as [->|Hk0].
  - assert (start = n) as -> by (unfold start; lia).
    rewrite (proj2 (Z.ltb_lt (n - 1) n)) by lia. simpl.
    replace (length l - Z.to_nat 0) with (length l) by lia.
    by rewrite drop_all.
  - assert (start < n)%Z by (unfold start; lia).
    rewrite (proj2 (Z.ltb_ge (n - 1) start)) by lia.
    rewrite (proj2 (Z.leb_gt n start)) by lia. simpl.
    rewrite (proj2 (Z.leb_gt n (n - 1))) by lia.
    replace (Z.to_nat start) with (length l - Z.to_nat k) by (unfold start, n; lia).
    apply take_ge. rewrite length_drop. unfold start, n. lia.
Qed.

Lemma lrange_earliest {A} (l : list A) (k : Z) :
  (1 ≤ k)%Z → lrange l 0 (k - 1)%Z = take (Z.to_nat k) l.
Proof.
  intros Hk. unfold lrange. simpl.
  rewrite (proj2 (Z.ltb_ge (k - 1) 0)) by lia.
  rewrite (proj2 (Z.ltb_ge (k - 1) 0)) by lia. simpl.
  destruct (Z.leb_spec (Z.of_nat (length l)) 0) as [Hn|Hn].
  - assert (l = []) as -> by (apply length_zero_iff_nil; lia).
    by rewrite take_nil.
  - change (Z.to_nat 0) with 0. rewrite drop_0.
    destruct (Z.leb_spec (Z.of_nat (length l)) (k - 1)) as [Hle|Hgt].
    + rewrite !take_ge by lia. done.
    + f_equal. lia.
Qed.

Section Windows.
Variable deviceId : string.

(** The latest window: the last [min k n] stored messages, in stored order. *)
Lemma getSingleChatMessages_latest w jid k :
  healthy w → (0 ≤ k)%Z →
  let l := stored_messages deviceId w jid in
  outcome (getSingleChatMessages deviceId jid (Some k) (Some latest) w)
  = Ok (map JSON_parse (drop (length l - Z.to_nat k) l)).
Proof.
  intros H Hk. run_healthy H.
  unfold stored_messages. by rewrite lrange_latest.
Qed.

(** The earliest window, for a count of at least one: the first [min k n]
    stored messages. *)
Lemma getSingleChatMessages_earliest w jid k :
  healthy w → (1 ≤ k)%Z →
  outcome (getSingleChatMessages deviceId jid (Some k) (Some earliest) w)
  = Ok (map JSON_parse (take (Z.to_nat k) (stored_messages deviceId w jid))).
Proof.
  intros H Hk. run_healthy H.
  unfold stored_messages. by rewrite lrange_earliest.
Qed.

(** The earliest window for a count of zero: LRANGE 0 -1 is the whole list. *)
Lemma getSingleChatMessages_earliest_zero w jid :
  healthy w →
  outcome (getSingleChatMessages deviceId jid (Some 0%Z) (Some earliest) w)
  = Ok (map JSON_parse (stored_messages deviceId w jid)).
Proof.
  intros H. run_healthy H.
  unfold stored_messages. by rewrite lrange_all.
Qed.

(** An omitted count is 20, an omitted direction is [latest]. *)
Lemma getSingleChatMessages_defaults w jid direction :
  getSingleChatMessages deviceId jid None direction w
  = getSingleChatMessages deviceId jid (Some 20%Z) direction w ∧
  getSingleChatMessages deviceId jid None None w
  = getSingleChatMessages deviceId jid (Some 20%Z) (Some latest) w.
Proof. done. Qed.
End Windows.

(** C5. The earliest window of a count of zero is not empty: on a
    conversation with three stored messages [getSingleChatMessages] with
    count 0 and direction [earliest] returns all three, while the first
    [min 0 3] messages are none, and while direction [latest] returns none
    for the same count. *)
Theorem earliest_window_of_zero_returns_all :
  let c := "chat-c@s.whatsapp.net" in
  let m1 := text_message c "1" "one" in
  let m2 := text_message c "2" "two" in
  let m3 := text_message c "3" "three" in
  let w := deliver "dev" 2 offline_socket [ messages_upsert [ m1; m2; m3 ] ] fresh_world in
  outcome (getMessages "dev" c w) = Ok [ m1; m2; m3 ] ∧
  outcome (getSingleChatMessages "dev" c (Some 0%Z) (Some earliest) w) = Ok [ m1; m2; m3 ] ∧
  outcome (getSingleChatMessages "dev" c (Some 0%Z) (Some latest) w) = Ok [].
Proof. repeat split; vm_refl. Qed.

(** C6 (as stated, refuted). On a fresh store, never bound to a socket,
    [getGroupMetadata] of a group without stored metadata returns [null]
    and makes no remote request. *)
Lemma unbound_store_does_not_fetch :
  let g := "team@g.us" in
  let r := getGroupMetadata "dev" g fresh_world in
  (healthy fresh_world ∧ strings fresh_world !! key_groupmeta "dev" g = None) ∧
  (outcome r = Ok VNull ∧ calls (world_of r) = []) ∧
  (¬ missing_metadata_is_fetched).
Proof.
  intros g r.
  assert (Hnone : strings fresh_world !! key_groupmeta "dev" g = None) by vm_refl.
  split; [exact (conj fresh_world_healthy Hnone)|].
  split; [split; vm_refl|].
  intros Hclaim.
  specialize (Hclaim "dev" fresh_world g fresh_world_healthy Hnone).
  vm_compute in Hclaim. discriminate Hclaim.
Qed.

(** C6 (amended). With Redis reachable and no metadata stored for a group:
    when a socket that has [groupMetadata] was bound, [getGroupMetadata] makes
    exactly one remote request; if it is answered with metadata, the JSON
    text of that metadata is stored under the group's key and the metadata
    is returned, and a second call makes no request and returns the stored
    metadata; if the request fails, the call returns [null], throws nothing
    and stores nothing. When no such socket was bound the call makes no
    request and returns [null]. *)
Theorem group_metadata_fallback deviceId w g :
  healthy w → strings w !! key_groupmeta deviceId g = None →
  let r := getGroupMetadata deviceId g w in
  let w' := world_of r in
  (∀ sock answer,
     socketRef w = Some sock → groupMetadata sock = Some answer →
     calls w' = calls w ++ [VStr g] ∧
     match answer (length (calls w)) (VStr g) with
     | Some M =>
         outcome r = Ok (VObj M) ∧
         strings w' !! key_groupmeta deviceId g = Some (JSON_stringify M) ∧
         outcome (getGroupMetadata deviceId g w') = Ok (VObj (JSON_parse (JSON_stringify M))) ∧
         calls (world_of (getGroupMetadata deviceId g w')) = calls w'
     | None => outcome r = Ok VNull ∧ strings w' = strings w
     end) ∧
  (has_groupMetadata (socketRef w) = false →
   outcome r = Ok VNull ∧ calls w' = calls w ∧ strings w' = strings w).
Proof.
  intros H Hnone. simpl. split.
  - intros sock answer Hs Ha.
    unfold getGroupMetadata. run_healthy H. rewrite Hnone, Hs. simpl.
    rewrite Ha. simpl.
    destruct (answer (length (calls w)) (VStr g)) as [M|] eqn:EM; simpl.
    + repeat (rewrite H; simpl). split; [done|]. split; [done|].
      split; [by rewrite lookup_insert_eq|].
      rewrite lookup_insert_eq. simpl. done.
    + done.
  - intros Hno. unfold getGroupMetadata. run_healthy H. rewrite Hnone, Hno. done.
Qed.

Lemma group_metadata_fallback_witness :
  let g := "team@g.us" in
  let w := world_of (bind team_socket fresh_world) in
  let w' := world_of (getGroupMetadata "dev" g w) in
  (healthy w ∧ strings w !! key_groupmeta "dev" g = None) ∧
  outcome (getGroupMetadata "dev" g w) = Ok (VObj {[ "subject" := VStr "Team" ]}) ∧
  calls w' = [VStr g] ∧
  outcome (getGroupMetadata "dev" g w') = Ok (VObj {[ "subject" := VStr "Team" ]}) ∧
  calls (world_of (getGroupMetadata "dev" g w')) = [VStr g].
Proof.
  intros g w w'.
  assert (H : healthy w) by (intros n; reflexivity).
  assert (Hnone : strings w !! key_groupmeta "dev" g = None) by reflexivity.
  split; [by split|].
  destruct (proj1 (group_metadata_fallback "dev" w g H Hnone) team_socket _ eq_refl eq_refl)
    as (Hc & Ho & _ & Ho2 & Hc2).
  split; [exact Ho|]. split; [exact Hc|]. split.
  - refine (eq_trans Ho2 _). vm_refl.
  - exact (eq_trans Hc2 Hc).
Defined.

(** *** Summaries *)

Section Summaries.
Variable deviceId : string.

Lemma getAllChats_loop_run jids result w :
  healthy w →
  ∃ w', getAllChats_loop deviceId jids result w
        = (Ok (result ++ omap (summary_of deviceId w) jids), w') ∧
    strings w' = strings w ∧ lists w' = lists w ∧ sets w' = sets w ∧
    down w' = down w ∧ calls w' = calls w.
Proof.
  revert result w. induction jids as [|jid rest IH]; intros result w H; simpl.
  - exists w. by rewrite app_nil_r.
  - unfold summary_of at 1. run_healthy H.
    destruct (strings w !! key_chatmeta deviceId jid) as [t|] eqn:Et; simpl.
    + repeat (rewrite H; simpl). rewrite lindex_last.
      match goal with |- context [getAllChats_loop _ _ ?r ?w1] =>
        destruct (IH r w1) as (w2 & E2 & S2 & L2 & K2 & D2 & C2); [exact H|] end.
      rewrite E2. exists w2. split; [|done].
      by rewrite <- (assoc_L (++)).
    + match goal with |- context [getAllChats_loop _ _ ?r ?w1] =>
        destruct (IH r w1) as (w2 & E2 & S2 & L2 & K2 & D2 & C2); [exact H|] end.
      rewrite E2. exists w2. split; [|done]. done.
Qed.

Lemma getAllChats_run w :
  healthy w →
  outcome (getAllChats deviceId w)
  = Ok (omap (summary_of deviceId w) (elements (known deviceId w))).
Proof.
  intros H. unfold getAllChats, getKnownJIDs, redis_smembers, bind_, command, outcome.
  rewrite H. simpl.
  match goal with |- context [getAllChats_loop _ ?js ?r ?w1] =>
    destruct (getAllChats_loop_run js r w1 H) as (w2 & E2 & _) end.
  rewrite E2. done.
Qed.

Lemma chat_entry_jid jid chat contact lastMessage :
  field (chat_entry jid chat contact lastMessage) "jid" = VStr jid.
Proof.
  unfold chat_entry, field. cbv zeta.
  rewrite !lookup_insert_ne by done. by rewrite lookup_insert_eq.
Qed.

Lemma chat_entry_lastMessage jid chat contact lastMessage :
  field (chat_entry jid chat contact lastMessage) "lastMessage" = lastMessage.
Proof.
  unfold chat_entry, field. cbv zeta.
  rewrite !lookup_insert_ne by done. by rewrite lookup_insert_eq.
Qed.

(** The entries of the view, by conversation. *)
Lemma getAllChats_entry w entry jid :
  entry ∈ omap (summary_of deviceId w) (elements (known deviceId w)) ∧
  field entry "jid" = VStr jid
  ↔ jid ∈ known deviceId w ∧ summary_of deviceId w jid = Some entry.
Proof.
  rewrite list_elem_of_omap. split.
  - intros [(j & Hj & Hs) Hf]. apply elem_of_elements in Hj.
    assert (j = jid) as ->; [|done].
    unfold summary_of in Hs. destruct (strings w !! _); [|done].
    injection Hs as <-. rewrite chat_entry_jid in Hf. by injection Hf.
  - intros [Hk Hs]. split.
    + exists jid. by rewrite elem_of_elements.
    + unfold summary_of in Hs. destruct (strings w !! _); [|done].
      injection Hs as <-. apply chat_entry_jid.
Qed.
End Summaries.

(** C10. With Redis reachable, [getAllChats] returns an entry for a
    conversation exactly when the conversation is in the known set and chat
    metadata is stored for it; every entry carries the id of its
    conversation. A known conversation without stored chat metadata has no
    entry. *)
Theorem summaries_need_chat_metadata deviceId w :
  healthy w →
  ∃ result,
    outcome (getAllChats deviceId w) = Ok result ∧
    (∀ jid, (∃ entry, entry ∈ result ∧ field entry "jid" = VStr jid)
            ↔ jid ∈ known deviceId w ∧ is_Some (strings w !! key_chatmeta deviceId jid)) ∧
    (∀ entry, entry ∈ result → ∃ jid, field entry "jid" = VStr jid).
Proof.
  intros H. eexists. split; [by apply getAllChats_run|]. split.
  - intros jid. split.
    + intros (entry & He). apply getAllChats_entry in He as [Hk Hs].
      split; [done|]. unfold summary_of in Hs.
      by destruct (strings w !! key_chatmeta deviceId jid).
    + intros [Hk [t Ht]].
      exists (chat_entry jid (JSON_parse t)
                (parse_or VNull (strings w !! key_contact deviceId jid))
                (parse_or VUndef (last (stored_messages deviceId w jid)))).
      apply getAllChats_entry. split; [done|]. unfold summary_of. by rewrite Ht.
  - intros entry He. apply list_elem_of_omap in He as (jid & _ & Hs).
    exists jid. unfold summary_of in Hs.
    destruct (strings w !! key_chatmeta deviceId jid); [|done].
    injection Hs as <-. apply chat_entry_jid.
Qed.

Lemma two_conversations_healthy : healthy two_conversations.
Proof. intros n. reflexivity. Qed.

Lemma summaries_need_chat_metadata_witness :
  healthy two_conversations ∧
  ∃ result,
    outcome (getAllChats "dev" two_conversations) = Ok result ∧
    (∀ jid, (∃ entry, entry ∈ result ∧ field entry "jid" = VStr jid)
            ↔ jid ∈ known "dev" two_conversations
              ∧ is_Some (strings two_conversations !! key_chatmeta "dev" jid)) ∧
    (∀ entry, entry ∈ result → ∃ jid, field entry "jid" = VStr jid).
Proof.
  split; [exact two_conversations_healthy|].
  exact (summaries_need_chat_metadata "dev" two_conversations two_conversations_healthy).
Defined.

(** C8 (as stated, refuted). In a store where [ann@s.whatsapp.net] has chat
    metadata and one text message, the only entry of [getAllChats] carries
    the whole message in [lastMessage], content included, not its digest. *)
Lemma summary_carries_full_message :
  let ann := "ann@s.whatsapp.net" in
  let msg := text_message ann "1" "hello" in
  let entry :=
    chat_entry ann {[ "id" := VStr ann; "name" := VStr "Ann" ]} VNull (VObj msg) in
  (healthy two_conversations ∧
   last (stored_messages "dev" two_conversations ann) = Some (JSON_stringify msg)) ∧
  (outcome (getAllChats "dev" two_conversations) = Ok [entry] ∧
   field entry "lastMessage" = VObj msg ∧
   read_prop (VObj msg) "message" = VObj {[ "conversation" := VStr "hello" ]} ∧
   read_prop (VObj (digest msg)) "message" = VUndef) ∧
  (¬ summaries_carry_digest).
Proof.
  intros ann msg entry.
  assert (Hlast : last (stored_messages "dev" two_conversations ann)
                  = Some (JSON_stringify msg)) by vm_refl.
  assert (Hall : outcome (getAllChats "dev" two_conversations) = Ok [entry]) by vm_refl.
  split; [exact (conj two_conversations_healthy Hlast)|].
  split; [split; [exact Hall|split; [vm_refl|split; vm_refl]]|].
  intros Hclaim.
  specialize (Hclaim "dev" two_conversations [entry] entry ann (JSON_stringify msg)
                two_conversations_healthy Hall).
  assert (Hd : field entry "lastMessage" = VObj (digest (JSON_parse (JSON_stringify msg)))).
  { apply Hclaim; [apply list_elem_of_here|vm_refl|exact Hlast]. }
  apply (f_equal (λ v, read_prop v "message")) in Hd.
  vm_compute in Hd. discriminate Hd.
Qed.

(** C8 (amended). With Redis reachable, the [lastMessage] of an entry of
    [getAllChats] is the final entry of the conversation's message list,
    parsed and whole, content included ([undefined] when the list is empty).
    The digest of key, timestamp and stub type is what [mostRecentMessage]
    returns for that same final entry: an object with exactly the properties
    [key], [messageTimestamp] and [messageStubType], each with the value the
    final entry has for it ([undefined] where it has none), and so without
    the content of the message. *)
Theorem summaries_carry_last_message deviceId w :
  healthy w →
  ∃ result,
    outcome (getAllChats deviceId w) = Ok result ∧
    (∀ entry jid,
       entry ∈ result → field entry "jid" = VStr jid →
       field entry "lastMessage"
       = parse_or VUndef (last (stored_messages deviceId w jid))) ∧
    (∀ jid,
       outcome (mostRecentMessage deviceId jid w)
       = Ok (match last (stored_messages deviceId w jid) with
             | Some t => VObj (digest (JSON_parse t))
             | None => VNull
             end)) ∧
    (∀ msg k, is_Some (digest msg !! k) →
       k = "key" ∨ k = "messageTimestamp" ∨ k = "messageStubType") ∧
    (∀ jid t,
       last (stored_messages deviceId w jid) = Some t →
       ∃ d, outcome (mostRecentMessage deviceId jid w) = Ok (VObj d) ∧
         ∀ k, d !! k
              = if bool_decide (k ∈ ["key"; "messageTimestamp"; "messageStubType"])
                then Some (field (JSON_parse t) k) else None).
Proof.
  intros H. eexists. split; [by apply getAllChats_run|]. split; [|split; [|split]].
  - intros entry jid He Hj.
    destruct (proj1 (getAllChats_entry deviceId w entry jid) (conj He Hj)) as [_ Hs].
    unfold summary_of in Hs.
    destruct (strings w !! key_chatmeta deviceId jid); [|done].
    injection Hs as <-. apply chat_entry_lastMessage.
  - intros jid. unfold mostRecentMessage, redis_lindex, bind_, command, outcome.
    rewrite H. simpl. rewrite lindex_last. unfold stored_messages.
    change (list_at (issued w) (key_messages deviceId jid))
      with (list_at w (key_messages deviceId jid)).
    by destruct (last (list_at w (key_messages deviceId jid))).
  - intros msg k [v Hv]. unfold digest in Hv.
    destruct (decide ("messageStubType" = k)) as [<-|?]; [by auto|].
    destruct (decide ("messageTimestamp" = k)) as [<-|?]; [by auto|].
    destruct (decide ("key" = k)) as [<-|?]; [by auto|].
    rewrite !lookup_insert_ne in Hv by done. by rewrite lookup_empty in Hv.
  - intros jid t Ht. exists (digest (JSON_parse t)). split.
    + unfold mostRecentMessage, redis_lindex, bind_, command, outcome.
      rewrite H. simpl. rewrite lindex_last.
      change (list_at (issued w) (key_messages deviceId jid))
        with (stored_messages deviceId w jid).
      by rewrite Ht.
    + intros k. unfold digest.
      destruct (decide ("messageStubType" = k)) as [<-|?];
        [by rewrite lookup_insert_eq|].
      destruct (decide ("messageTimestamp" = k)) as [<-|?];
        [by rewrite lookup_insert_ne, lookup_insert_eq by done|].
      destruct (decide ("key" = k)) as [<-|?];
        [by rewrite !lookup_insert_ne, lookup_insert_eq by done|].
      rewrite !lookup_insert_ne, lookup_empty by done.
      rewrite bool_decide_eq_false_2; [done|].
      rewrite !elem_of_cons, elem_of_nil. naive_solver.
Qed.

Lemma summaries_carry_last_message_witness :
  healthy two_conversations ∧
  ∃ result,
    outcome (getAllChats "dev" two_conversations) = Ok result ∧
    (∀ entry jid,
       entry ∈ result → field entry "jid" = VStr jid →
       field entry "lastMessage"
       = parse_or VUndef (last (stored_messages "dev" two_conversations jid))) ∧
    (∀ jid,
       outcome (mostRecentMessage "dev" jid two_conversations)
       = Ok (match last (stored_messages "dev" two_conversations jid) with
             | Some t => VObj (digest (JSON_parse t))
             | None => VNull
             end)) ∧
    (∀ msg k, is_Some (digest msg !! k) →
       k = "key" ∨ k = "messageTimestamp" ∨ k = "messageStubType") ∧
    (∀ jid t,
       last (stored_messages "dev" two_conversations jid) = Some t →
       ∃ d, outcome (mostRecentMessage "dev" jid two_conversations) = Ok (VObj d) ∧
         ∀ k, d !! k
              = if bool_decide (k ∈ ["key"; "messageTimestamp"; "messageStubType"])
                then Some (field (JSON_parse t) k) else None).
Proof.
  split; [exact two_conversations_healthy|].
  exact (summaries_carry_last_message "dev" two_conversations two_conversations_healthy).
Defined.

(** *** Participant updates *)

Lemma one_group_healthy : healthy one_group.
Proof. intros n. reflexivity. Qed.

(** C9 (as stated, refuted). In a store that holds the metadata of a group
    of two, when the re-fetch fails, the annotation written for an update
    counts no participant and lists no admin, although the stored metadata,
    the freshest there is, has two participants. *)
Lemma failed_fetch_counts_nobody :
  let g := "team@g.us" in
  let w' := world_of (handle "dev" 2 offline_socket (group_participants_update cat_joins)
                        one_group) in
  let existingMeta := parse_or_empty (strings one_group !! key_groupmeta "dev" g) in
  let annotation :=
    field (parse_or_empty (strings w' !! key_groupmeta "dev" g)) "lastParticipantUpdate" in
  (healthy one_group ∧ fetched_meta offline_socket one_group (VStr g) = None ∧
   participantCount_of existingMeta = VNum 2) ∧
  (read_prop annotation "participantCount" = VNum 0 ∧
   read_prop annotation "adminList" = VArr []) ∧
  (¬ annotation_counts_freshest).
Proof.
  intros g w' existingMeta annotation.
  split; [split; [exact one_group_healthy|split; vm_refl]|].
  split; [split; vm_refl|].
  intros Hclaim.
  destruct (Hclaim "dev" 2%Z offline_socket cat_joins one_group one_group_healthy)
    as (stored & Hs & Hc).
  vm_compute in Hs. injection Hs as <-.
  vm_compute in Hc. discriminate Hc.
Qed.

Section Participants.
Variable deviceId : string.
Variable CIPHERTEXT : Z.

Lemma on_group_participants_update_resolves sock update w :
  outcome (on_group_participants_update deviceId sock update w) = Ok tt.
Proof.
  unfold on_group_participants_update, try_catch, outcome.
  match goal with |- context [bind_ ?m ?k w] => destruct (bind_ m k w) as [[[]|e] w1] end;
    done.
Qed.

Lemma on_group_participants_update_run sock update w :
  healthy w →
  let id := field update "id" in
  let metaKey := key_groupmeta deviceId (to_String id) in
  let existingMeta := parse_or_empty (strings w !! metaKey) in
  let latestMeta := default ∅ (fetched_meta sock w id) in
  let w' := world_of (on_group_participants_update deviceId sock update w) in
  match adminList_of latestMeta with
  | Ok adminList =>
      strings w' =
        <[metaKey :=
            JSON_stringify
              (merged_participants existingMeta latestMeta
                 (field update "participants") (field update "action")
                 (clock w (ticks w)) (participantCount_of latestMeta) adminList)]>
          (strings w)
  | Throw _ => strings w' = strings w
  end ∧
  calls w' = match groupMetadata sock with
             | Some _ => calls w ++ [id]
             | None => calls w
             end.
Proof.
  intros H. simpl. unfold fetched_meta.
  unfold on_group_participants_update. run_healthy H.
  destruct (groupMetadata sock) as [answer|]; simpl.
  - destruct (answer (length (calls w)) (field update "id")) as [m|]; simpl.
    + destruct (adminList_of m); simpl; repeat (rewrite H; simpl); done.
    + destruct (adminList_of ∅) eqn:E; simpl; repeat (rewrite H; simpl); done.
  - destruct (adminList_of ∅) eqn:E; simpl; repeat (rewrite H; simpl); done.
Qed.

Lemma filter_admin_listed ps :
  Forall (λ p, nullish p = false) ps →
  filter_admin ps = Ok (List.filter (λ p, truthy (read_prop p "admin")) ps).
Proof.
  induction 1 as [|p ps Hp Hps IH]; [done|].
  simpl. unfold get_prop. rewrite Hp, IH.
  by destruct (truthy (read_prop p "admin")).
Qed.

Lemma participantCount_of_listed meta :
  listed_participants meta →
  participantCount_of meta = VNum (Z.of_nat (length (participants_of meta))).
Proof.
  unfold participantCount_of, participants_of, opt_prop.
  intros [Hn|(ps & -> & _)].
  - rewrite Hn. by destruct (field meta "participants").
  - simpl. unfold js_or. simpl. by destruct ps.
Qed.

Lemma adminList_of_listed meta :
  listed_participants meta →
  adminList_of meta = Ok (VArr (admin_ids (participants_of meta))).
Proof.
  unfold adminList_of, participants_of, admin_ids.
  intros [Hn|(ps & -> & Hps)].
  - rewrite Hn. by destruct (field meta "participants").
  - simpl. by rewrite (filter_admin_listed ps Hps).
Qed.

Lemma merged_participants_other existingMeta latestMeta participants action now count admins k :
  k ≠ "lastParticipantUpdate" →
  merged_participants existingMeta latestMeta participants action now count admins !! k
  = match latestMeta !! k with Some v => Some v | None => existingMeta !! k end.
Proof.
  intros Hk. unfold merged_participants, spread.
  rewrite lookup_insert_ne by done. rewrite lookup_union.
  by destruct (latestMeta !! k), (existingMeta !! k).
Qed.

Lemma merged_participants_annotation
    existingMeta latestMeta participants action now count admins :
  merged_participants existingMeta latestMeta participants action now count admins
    !! "lastParticipantUpdate"
  = Some (VObj {[ "participants" := participants; "action" := action;
                  "updatedAt" := VNum now; "participantCount" := count;
                  "adminList" := admins ]}).
Proof.
  unfold merged_participants. rewrite lookup_insert_eq. reflexivity.
Qed.
End Participants.

(** C9 (amended). With Redis reachable, the handler reads the stored
    metadata (the empty object when there is none), asks the socket for the
    metadata again and takes the empty object when that fails, computes the
    participant count and the admin ids from the fetched metadata alone (0
    and the empty list when the fetch failed), and stores the JSON text of
    the stored metadata overlaid with the fetched one and annotated with
    [lastParticipantUpdate = {participants, action, updatedAt,
    participantCount, adminList}]; it stores nothing when the participants
    of the fetched metadata cannot be filtered. When the fetched metadata
    lists its participants as the socket delivers them (or lists none), the
    stored object has, under every name but [lastParticipantUpdate], the
    fetched value where the fetched metadata has the property and the
    stored one where it has not; and its [lastParticipantUpdate] is the
    update's participants and action, the time read, the number of fetched
    participants and the ids of those of them that are admins. Whatever the
    world, the socket and the update, the handler resolves: no error leaves
    it. *)
Theorem participants_update_annotates deviceId CIPHERTEXT sock update w :
  healthy w →
  let id := field update "id" in
  let metaKey := key_groupmeta deviceId (to_String id) in
  let existingMeta := parse_or_empty (strings w !! metaKey) in
  let latestMeta := default ∅ (fetched_meta sock w id) in
  let w' := world_of (handle deviceId CIPHERTEXT sock (group_participants_update update) w) in
  match adminList_of latestMeta with
  | Ok adminList =>
      strings w' =
        <[metaKey :=
            JSON_stringify
              (merged_participants existingMeta latestMeta
                 (field update "participants") (field update "action")
                 (clock w (ticks w)) (participantCount_of latestMeta) adminList)]>
          (strings w)
  | Throw _ => strings w' = strings w
  end ∧
  calls w' = match groupMetadata sock with
             | Some _ => calls w ++ [id]
             | None => calls w
             end ∧
  (fetched_meta sock w id = None →
   participantCount_of latestMeta = VNum 0 ∧ adminList_of latestMeta = Ok (VArr [])) ∧
  (∀ sock0 update0 w0,
     outcome (handle deviceId CIPHERTEXT sock0 (group_participants_update update0) w0)
     = Ok tt) ∧
  (listed_participants latestMeta →
   ∃ stored,
     strings w' !! metaKey = Some (JSON_stringify stored) ∧
     (∀ k, k ≠ "lastParticipantUpdate" →
        stored !! k = match latestMeta !! k with Some v => Some v | None => existingMeta !! k end) ∧
     stored !! "lastParticipantUpdate"
     = Some (VObj {[ "participants" := field update "participants";
                     "action" := field update "action";
                     "updatedAt" := VNum (clock w (ticks w));
                     "participantCount" :=
                       VNum (Z.of_nat (length (participants_of latestMeta)));
                     "adminList" := VArr (admin_ids (participants_of latestMeta)) ]})).
Proof.
  intros H. simpl. split; [|split; [|split; [|split]]].
  - apply (on_group_participants_update_run deviceId sock update w H).
  - apply (on_group_participants_update_run deviceId sock update w H).
  - by intros ->.
  - intros sock0 update0 w0. apply on_group_participants_update_resolves.
  - intros Hl.
    pose proof (proj1 (on_group_participants_update_run deviceId sock update w H)) as Hs.
    simpl in Hs. rewrite (adminList_of_listed _ Hl) in Hs.
    rewrite (participantCount_of_listed _ Hl) in Hs.
    eexists. split; [by rewrite Hs, lookup_insert_eq|]. split.
    + intros k Hk. by apply merged_participants_other.
    + apply merged_participants_annotation.
Qed.

Lemma participants_update_annotates_witness :
  let w' := world_of (handle "dev" 2 group_socket (group_participants_update cat_joins)
                        one_group) in
  healthy one_group ∧
  calls w' = [ VStr "team@g.us" ] ∧
  outcome (handle "dev" 2 group_socket (group_participants_update cat_joins) one_group)
  = Ok tt ∧
  ∃ stored,
    strings w' !! key_groupmeta "dev" "team@g.us" = Some (JSON_stringify stored) ∧
    stored !! "subject" = Some (VStr "Team") ∧
    stored !! "lastParticipantUpdate"
    = Some (VObj {[ "participants" := VArr [ VStr "cat@s.whatsapp.net" ];
                    "action" := VStr "add";
                    "updatedAt" := VNum 1700000000000;
                    "participantCount" := VNum 3;
                    "adminList" := VArr [ VStr "ann@s.whatsapp.net" ] ]}).
Proof.
  intros w'.
  destruct (participants_update_annotates "dev" 2 group_socket cat_joins one_group
              one_group_healthy) as (_ & Hc & _ & Hr & Hl).
  split; [exact one_group_healthy|]. split; [exact Hc|]. split; [apply Hr|].
  destruct Hl as (stored & Hs & Ho & Ha).
  { right. eexists. split; [reflexivity|]. repeat constructor. }
  exists stored. split; [exact Hs|]. split.
  - rewrite (Ho "subject") by done. vm_refl.
  - refine (eq_trans Ha _). vm_refl.
Defined.

(** What the handler stores for that update: the fetched metadata with the
    annotation, counting three participants and one admin. *)
Example participants_update_example :
  let w' := world_of (handle "dev" 2 group_socket (group_participants_update cat_joins)
                        one_group) in
  parse_or VNull (strings w' !! key_groupmeta "dev" "team@g.us")
  = VObj {[ "id" := VStr "team@g.us"; "subject" := VStr "Team";
            "participants" :=
              VArr [ VObj {[ "id" := VStr "ann@s.whatsapp.net"; "admin" := VStr "admin" ]};
                     VObj {[ "id" := VStr "bob@s.whatsapp.net" ]};
                     VObj {[ "id" := VStr "cat@s.whatsapp.net" ]} ];
            "lastParticipantUpdate" :=
              VObj {[ "participants" := VArr [ VStr "cat@s.whatsapp.net" ];
                      "action" := VStr "add";
                      "updatedAt" := VNum 1700000000000;
                      "participantCount" := VNum 3;
                      "adminList" := VArr [ VStr "ann@s.whatsapp.net" ] ]} ]}.
Proof. intros w'. vm_refl. Qed.


(** ** Further properties of the store *)

(** *** Accessors only read *)

#[export] Instance untouched_preorder : PreOrder untouched.
Proof.
  split.
  - intros w. by repeat split.
  - intros a b c (H1 & H2 & H3 & H4 & H5 & H6) (G1 & G2 & G3 & G4 & G5 & G6).
    repeat split; congruence.
Qed.

(** As [keeps_auto], for a relation whose instances on the worlds of a step
    are closed by [tac]. *)
Ltac keeps_with tac :=
  repeat first
    [ progress intros
    | match goal with |- PreOrder _ => typeclasses eauto end
    | apply keeps_bind
    | apply keeps_try_catch
    | apply keeps_for_of
    | apply keeps_ret | apply keeps_throw | apply keeps_lift
    | apply keeps_command; [typeclasses eauto | intros ?w; tac ..]
    | match goal with
      | |- keeps _ (if ?b then _ else _) => destruct b
      | |- keeps _ (match ?x with _ => _ end) => destruct x
      | |- keeps _ (let (_, _) := ?x in _) => destruct x
      end
    | match goal with
      | |- keeps _ _ => intros ?w; unfold world_of; tac
      end ].

Ltac solve_untouched := simpl; repeat case_match; simpl; by repeat split.

Section ReadOnly.
Variable deviceId : string.
Variable CIPHERTEXT : Z.

Lemma getAllChats_loop_untouched jids result :
  keeps untouched (getAllChats_loop deviceId jids result).
Proof.
  revert result. induction jids as [|jid rest IH]; intros result; simpl.
  - keeps_with solve_untouched.
  - autounfold with store. keeps_with solve_untouched; apply IH.
Qed.

Lemma toJSON_loop_untouched jids a b c :
  keeps untouched (toJSON_loop deviceId jids a b c).
Proof.
  revert a b c. induction jids as [|jid rest IH]; intros a b c; simpl.
  - keeps_with solve_untouched.
  - autounfold with store. keeps_with solve_untouched; apply IH.
Qed.

Lemma perform_untouched o w :
  reads_only o = true → untouched w (perform deviceId CIPHERTEXT o w).
Proof.
  destruct o; simpl; try discriminate; intros _.
  - revert w. fold (keeps untouched (getKnownJIDs deviceId)).
    autounfold with store. keeps_with solve_untouched.
  - revert w. fold (keeps untouched (getChat deviceId jid)).
    autounfold with store. keeps_with solve_untouched.
  - revert w. fold (keeps untouched (getContact deviceId jid)).
    autounfold with store. keeps_with solve_untouched.
  - revert w. fold (keeps untouched (getAllChats deviceId)).
    autounfold with store. keeps_with solve_untouched. apply getAllChats_loop_untouched.
  - revert w. fold (keeps untouched (getMessages deviceId jid)).
    autounfold with store. keeps_with solve_untouched.
  - revert w. fold (keeps untouched (getMessage deviceId jid id)).
    autounfold with store. keeps_with solve_untouched.
  - revert w. fold (keeps untouched (mostRecentMessage deviceId jid)).
    autounfold with store. keeps_with solve_untouched.
  - revert w. fold (keeps untouched (getSingleChatMessages deviceId jid count direction)).
    autounfold with store. keeps_with solve_untouched.
  - revert w. fold (keeps untouched (toJSON deviceId)).
    autounfold with store. keeps_with solve_untouched. apply toJSON_loop_untouched.
Qed.
End ReadOnly.

(** X1. Every accessor but [getGroupMetadata] only reads: in any world,
    also when Redis fails, it leaves the strings, the lists, the sets, the
    bound socket, the log of remote requests and the clock as they were. *)
Theorem accessors_only_read deviceId CIPHERTEXT o w :
  reads_only o = true → untouched w (perform deviceId CIPHERTEXT o w).
Proof. apply perform_untouched. Qed.

Lemma accessors_only_read_witness :
  reads_only op_getAllChats = true ∧
  untouched two_conversations (perform "dev" 2 op_getAllChats two_conversations).
Proof.
  split; [reflexivity|].
  exact (accessors_only_read "dev" 2 op_getAllChats two_conversations eq_refl).
Defined.

(** *** Outages *)

(** X2. When Redis fails the command an accessor issues first, the accessor
    rejects with the Redis error: an outage is not answered with [null] or
    with an empty list. *)
Theorem outage_is_reported deviceId w :
  down w (cmds w) = true →
  outcome (getKnownJIDs deviceId w) = Throw RedisError ∧
  outcome (getAllChats deviceId w) = Throw RedisError ∧
  outcome (toJSON deviceId w) = Throw RedisError ∧
  (∀ jid, outcome (getChat deviceId jid w) = Throw RedisError ∧
          outcome (getContact deviceId jid w) = Throw RedisError ∧
          outcome (getMessages deviceId jid w) = Throw RedisError ∧
          outcome (getGroupMetadata deviceId jid w) = Throw RedisError ∧
          outcome (mostRecentMessage deviceId jid w) = Throw RedisError) ∧
  (∀ jid id, outcome (getMessage deviceId jid id w) = Throw RedisError) ∧
  (∀ jid count direction,
     outcome (getSingleChatMessages deviceId jid count direction w) = Throw RedisError).
Proof.
  intros H.
  repeat split; intros;
    autounfold with store; unfold bind_, command, outcome;
    try destruct (default latest direction); simpl; unfold bind_, command;
    by rewrite H.
Qed.

Lemma outage_is_reported_witness :
  down outage_world (cmds outage_world) = true ∧
  outcome (getChat "dev" "ann@s.whatsapp.net" outage_world) = Throw RedisError ∧
  outcome (getAllChats "dev" outage_world) = Throw RedisError.
Proof.
  destruct (outage_is_reported "dev" outage_world eq_refl) as (_ & Ha & _ & Hj & _).
  split; [reflexivity|]. split; [apply Hj|exact Ha].
Defined.



(** *** JSON documents *)

Lemma truthy_json_norm v : truthy (json_norm v) = truthy v.
Proof. by destruct v. Qed.

Lemma nullish_json_norm v : nullish (json_norm v) = nullish v.
Proof. by destruct v. Qed.

Lemma to_String_json_norm v : to_String (json_norm v) = to_String v.
Proof.
  revert v. fix IH 1. intros [| |b|n|s|xs|o]; try reflexivity.
  simpl. induction xs as [|x xs IHxs]; [reflexivity|].
  simpl.
  assert (Hx : (if nullish (match x with VUndef => VNull | _ => json_norm x end) then ""
                else to_String (match x with VUndef => VNull | _ => json_norm x end))
               = (if nullish x then "" else to_String x)).
  { pose proof (IH x) as Hx. destruct x; try reflexivity. exact Hx. }
  rewrite Hx. destruct xs as [|y ys]; [reflexivity|].
  simpl in IHxs |- *. by rewrite IHxs.
Qed.

Lemma read_prop_json_norm v k : read_prop (json_norm v) k = json_norm (read_prop v k).
Proof.
  destruct v; simpl; try done.
  - by destruct (String.eqb k "length").
  - destruct (String.eqb k "length"); [|done]. by rewrite length_map.
  - apply field_json_obj.
Qed.

Lemma remoteJid_of_json msg :
  remoteJid_of (json_obj msg) = json_norm (remoteJid_of msg).
Proof. unfold remoteJid_of. by rewrite field_json_obj, read_prop_json_norm. Qed.

Lemma accepted_for_json c msg : accepted_for c (json_obj msg) = accepted_for c msg.
Proof.
  unfold accepted_for, accepted.
  by rewrite remoteJid_of_json, field_json_obj, !truthy_json_norm, to_String_json_norm.
Qed.

Lemma has_key_json msg : has_key (json_obj msg) ↔ has_key msg.
Proof. unfold has_key. by rewrite field_json_obj, nullish_json_norm. Qed.

Lemma has_id_json id msg : has_id id (json_obj msg) = has_id id msg.
Proof.
  unfold has_id. rewrite field_json_obj, read_prop_json_norm.
  by destruct (read_prop (field msg "key") "id").
Qed.

(** *** Stored messages *)

#[export] Instance stays_filed_preorder deviceId : PreOrder (stays_filed deviceId).
Proof.
  split.
  - intros w Hf. exact Hf.
  - intros a b c Hab Hbc Ha. apply Hbc, Hab, Ha.
Qed.

Lemma keeps_weaken {A} (R R' : relation world) (m : M A) :
  (∀ w w', R w w' → R' w w') → keeps R m → keeps R' m.
Proof. intros HR Hm w. apply HR, Hm. Qed.

Lemma same_lists_stays_filed deviceId w w' :
  same_lists w w' → stays_filed deviceId w w'.
Proof.
  unfold same_lists, stays_filed, filed, stored_messages, list_at. by intros ->.
Qed.

Section Filed.
Variable deviceId : string.
Variable CIPHERTEXT : Z.

Lemma filed_rpush w w' jid msg :
  filed deviceId w →
  accepted_for (to_String jid) msg = true →
  lists w' =
    <[key_messages deviceId (to_String jid) :=
        list_at w (key_messages deviceId (to_String jid)) ++ [JSON_stringify msg]]>
      (lists w) →
  filed deviceId w'.
Proof.
  intros Hf Ha Hl c x. unfold stored_messages, list_at. rewrite Hl, lookup_insert.
  case_decide as Hk.
  - apply key_messages_inj in Hk. subst c. simpl.
    rewrite elem_of_app, list_elem_of_singleton. intros [Hx| ->].
    + by apply Hf.
    + simpl. by rewrite accepted_for_json.
  - apply Hf.
Qed.

Lemma guarded_rpush_filed msg jid :
  truthy jid && truthy (field msg "message") = true →
  jid = remoteJid_of msg →
  keeps (stays_filed deviceId)
    (redis_rpush (key_messages deviceId (to_String jid)) (JSON_stringify msg) ;;
     redis_sadd (key_knownJIDs deviceId) (toArg jid)).
Proof.
  intros Hg Hj w Hf.
  assert (Ha : accepted_for (to_String jid) msg = true).
  { unfold accepted_for, accepted. rewrite <- Hj, Hg. simpl. by apply String.eqb_eq. }
  unfold redis_rpush, redis_sadd, bind_, command, world_of.
  destruct (down w (cmds w)); simpl; [exact Hf|].
  match goal with |- context [if ?b then _ else _] => destruct b end; simpl;
    by apply (filed_rpush w _ jid msg Hf Ha).
Qed.

Lemma upsert_message_filed msg : keeps (stays_filed deviceId) (upsert_message deviceId msg).
Proof.
  unfold upsert_message, get_prop.
  destruct (nullish (field msg "key")) eqn:Hk.
  - by intros w.
  - intros w. unfold bind_ at 1, lift.
    destruct (truthy _ && truthy _) eqn:Hg.
    + by apply guarded_rpush_filed.
    + by intros ?.
Qed.

Lemma history_message_filed msg :
  keeps (stays_filed deviceId) (history_message deviceId CIPHERTEXT msg).
Proof.
  unfold history_message, get_prop.
  destruct (negb _ && _).
  - destruct (nullish (field msg "key")); by intros w.
  - destruct (nullish (field msg "key")) eqn:Hk.
    + by intros w.
    + intros w. unfold bind_ at 1, lift.
      destruct (truthy _ && truthy _) eqn:Hg.
      * by apply guarded_rpush_filed.
      * by intros ?.
Qed.

Lemma handle_filed sock e : keeps (stays_filed deviceId) (handle deviceId CIPHERTEXT sock e).
Proof.
  destruct e as [chats contacts messages|messages|chats|?|?|?|?];
    try (apply (keeps_weaken same_lists);
         [apply same_lists_stays_filed|by apply handle_same_lists]).
  - unfold handle, on_messaging_history_set.
    apply keeps_bind; [typeclasses eauto| |intros _].
    + apply keeps_try_catch; [typeclasses eauto| |intros ?].
      * apply keeps_for_of; [typeclasses eauto|]. apply history_message_filed.
      * apply keeps_ret. typeclasses eauto.
    + apply (keeps_weaken same_lists); [apply same_lists_stays_filed|].
      autounfold with store. keeps_auto.
  - unfold handle, on_messages_upsert.
    apply keeps_for_of; [typeclasses eauto|]. apply upsert_message_filed.
Qed.

Lemma perform_filed o w : stays_filed deviceId w (perform deviceId CIPHERTEXT o w).
Proof.
  destruct (reads_only o) eqn:Hr.
  - apply same_lists_stays_filed.
    by destruct (perform_untouched deviceId CIPHERTEXT o w Hr) as (_ & ? & _).
  - destruct o; try discriminate Hr; unfold perform.
    + by apply same_lists_stays_filed.
    + apply handle_filed.
    + apply same_lists_stays_filed. revert w.
      fold (keeps same_lists (getGroupMetadata deviceId jid)).
      autounfold with store. keeps_auto.
Qed.
End Filed.

Lemma fresh_world_filed deviceId : filed deviceId fresh_world.
Proof. intros c t Ht. by apply elem_of_nil in Ht. Qed.

Lemma deliver_filed deviceId CIPHERTEXT sock events w :
  filed deviceId w → filed deviceId (deliver deviceId CIPHERTEXT sock events w).
Proof.
  revert w. induction events as [|e rest IH]; intros w Hf; simpl; [done|].
  apply IH. by apply (handle_filed deviceId CIPHERTEXT sock e w).
Qed.

Lemma two_conversations_filed : filed "dev" two_conversations.
Proof. apply deliver_filed, fresh_world_filed. Qed.

Lemma find_app_first {A} (f : A → bool) (l1 l2 : list A) :
  List.find f (l1 ++ l2)
  = match List.find f l1 with Some x => Some x | None => List.find f l2 end.
Proof. induction l1 as [|x l1 IH]; simpl; [done|]. by destruct (f x). Qed.

(** X4. Every operation and every sequence of events keeps the stored
    message lists well filed: each stored message carries a content payload
    and a non-empty remoteJid, and lies in the list of the conversation that
    remoteJid names. This holds in any world, also through Redis failures and
    ill-typed payloads. *)
Theorem stored_messages_stay_filed deviceId CIPHERTEXT w :
  filed deviceId w →
  (∀ o, filed deviceId (perform deviceId CIPHERTEXT o w)) ∧
  (∀ sock events, filed deviceId (deliver deviceId CIPHERTEXT sock events w)).
Proof.
  intros Hf. split.
  - intros o. by apply perform_filed.
  - intros sock events. by apply deliver_filed.
Qed.

Lemma stored_messages_stay_filed_witness :
  filed "dev" fresh_world ∧ filed "dev" two_conversations.
Proof.
  split; [exact (fresh_world_filed "dev")|].
  exact (proj2 (stored_messages_stay_filed "dev" 2 fresh_world (fresh_world_filed "dev"))
           offline_socket _).
Defined.

Lemma accepted_for_has_key c msg : accepted_for c msg = true → has_key msg.
Proof.
  unfold accepted_for, accepted, remoteJid_of, has_key.
  by destruct (field msg "key").
Qed.

Lemma find_message_find messages id :
  Forall has_key messages →
  find_message messages id = Ok (List.find (has_id id) messages).
Proof.
  induction 1 as [|m rest Hk _ IH]; simpl; [done|].
  unfold get_prop, has_id. rewrite Hk.
  destruct (read_prop (field m "key") "id"); try exact IH.
  by destruct (String.eqb s id).
Qed.

Lemma filed_has_key deviceId w c :
  filed deviceId w → Forall has_key (map JSON_parse (stored_messages deviceId w c)).
Proof.
  intros Hf. apply Forall_forall. intros m Hm.
  apply list_elem_of_fmap in Hm as (t & -> & Ht).
  eapply accepted_for_has_key, Hf, Ht.
Qed.

(** X5. With Redis reachable and the lists well filed, [getMessage] returns
    the first stored message of the conversation whose key id is the one
    asked for, and [undefined] when there is none; it does not throw. A
    message just appended is found by its id unless an older message of the
    conversation has the same id, in which case the older one is returned:
    appending removes no duplicate. *)
Theorem getMessage_finds_first deviceId CIPHERTEXT sock w c id msg :
  healthy w → filed deviceId w →
  accepted_for c msg = true → has_id id msg = true →
  let old := map JSON_parse (stored_messages deviceId w c) in
  let w' := world_of (handle deviceId CIPHERTEXT sock (messages_upsert [msg]) w) in
  outcome (getMessage deviceId c id w) = Ok (List.find (has_id id) old) ∧
  outcome (getMessage deviceId c id w')
  = Ok (Some (default (JSON_parse (JSON_stringify msg)) (List.find (has_id id) old))).
Proof.
  intros H Hf Ha Hi. simpl.
  assert (Hget : ∀ w0, healthy w0 → filed deviceId w0 →
    outcome (getMessage deviceId c id w0)
    = Ok (List.find (has_id id) (map JSON_parse (stored_messages deviceId w0 c)))).
  { intros w0 H0 Hf0. unfold getMessage, bind_, outcome.
    rewrite (getMessages_run deviceId w0 c H0). unfold lift. simpl.
    by apply find_message_find, filed_has_key. }
  split; [by apply Hget|].
  assert (Ht : well_typed (messages_upsert [msg])).
  { split; [|done]. constructor; [|constructor]. by eapply accepted_for_has_key. }
  rewrite Hget.
  - destruct (handle_run deviceId CIPHERTEXT sock _ w H Ht) as [Hl _].
    simpl in Hl. rewrite Hl. unfold appended_for. simpl. rewrite Ha. simpl.
    rewrite map_app, find_app_first. simpl. rewrite has_id_json, Hi.
    by destruct (find _ _).
  - apply (evolves_healthy w); [|done].
    apply (handle_evolves deviceId CIPHERTEXT sock (messages_upsert [msg]) w).
  - by apply (handle_filed deviceId CIPHERTEXT sock (messages_upsert [msg]) w).
Qed.

Lemma getMessage_finds_first_witness :
  let c := "ann@s.whatsapp.net" in
  let msg := text_message c "7" "again" in
  let w' := world_of (handle "dev" 2 offline_socket (messages_upsert [msg]) two_conversations) in
  (healthy two_conversations ∧ filed "dev" two_conversations ∧
   accepted_for c msg = true ∧ has_id "7" msg = true) ∧
  outcome (getMessage "dev" c "7" two_conversations) = Ok None ∧
  outcome (getMessage "dev" c "7" w') = Ok (Some msg).
Proof.
  intros c msg w'.
  pose proof two_conversations_filed as Hf.
  assert (Ha : accepted_for c msg = true) by vm_refl.
  assert (Hi : has_id "7" msg = true) by vm_refl.
  split; [exact (conj two_conversations_healthy (conj Hf (conj Ha Hi)))|].
  destruct (getMessage_finds_first "dev" 2 offline_socket two_conversations c "7" msg
              two_conversations_healthy Hf Ha Hi) as [H1 H2].
  split.
  - refine (eq_trans H1 _). vm_refl.
  - refine (eq_trans H2 _). vm_refl.
Defined.

(** *** Payloads that break off a loop *)

Section Keyless.
Variable deviceId : string.
Variable CIPHERTEXT : Z.

Lemma upsert_message_keyless msg w :
  nullish (field msg "key") = true →
  upsert_message deviceId msg w = (Throw TypeError, w).
Proof. intros Hk. unfold upsert_message, get_prop, bind_, lift. by rewrite Hk. Qed.

Lemma history_message_keyless msg w :
  nullish (field msg "key") = true →
  history_message deviceId CIPHERTEXT msg w = (Throw TypeError, w).
Proof.
  intros Hk. unfold history_message, get_prop, bind_, lift. rewrite Hk.
  by destruct (negb _ && _).
Qed.

Lemma upsert_loop_keyless pre bad post w :
  healthy w → Forall has_key pre → nullish (field bad "key") = true →
  ∃ w', for_of (pre ++ bad :: post) (upsert_message deviceId) w = (Throw TypeError, w') ∧
    healthy w' ∧ strings w' = strings w ∧
    (∀ c, stored_messages deviceId w' c
          = stored_messages deviceId w c ++ appended_for c pre) ∧
    (∀ key, set_at w' key =
       if decide (key_knownJIDs deviceId = key)
       then message_jids pre ∪ set_at w key else set_at w key).
Proof.
  intros H Hp Hb.
  destruct (message_loop_run deviceId w pre H Hp) as (w1 & E1 & S1 & L1 & K1).
  exists w1. rewrite for_of_app. rewrite (bind_run _ _ _ _ _ E1). simpl.
  unfold bind_. rewrite (upsert_message_keyless bad w1 Hb). repeat split; try done.
  refine (healthy_run _ _ _ _ _ H E1). apply keeps_for_of; [typeclasses eauto|].
  apply upsert_message_evolves.
Qed.
End Keyless.

(** X6. The [messages.upsert] handler does not undo what it did when it
    breaks off: given a message whose key cannot be read, it rejects with a
    TypeError after the messages before it were handled as usual, and
    handles none of the messages after it. *)
Theorem messages_upsert_breaks_off deviceId CIPHERTEXT sock pre bad post w :
  healthy w → Forall has_key pre → nullish (field bad "key") = true →
  let r := handle deviceId CIPHERTEXT sock (messages_upsert (pre ++ bad :: post)) w in
  outcome r = Throw TypeError ∧
  (∀ c, stored_messages deviceId (world_of r) c
        = stored_messages deviceId w c ++ appended_for c pre) ∧
  known deviceId (world_of r) = message_jids pre ∪ known deviceId w.
Proof.
  intros H Hp Hb. simpl. unfold on_messages_upsert.
  destruct (upsert_loop_keyless deviceId pre bad post w H Hp Hb)
    as (w1 & E1 & _ & _ & L1 & K1).
  rewrite E1. simpl. repeat split; [done|].
  unfold known. by rewrite K1, decide_True.
Qed.

Lemma messages_upsert_breaks_off_witness :
  let c := "ann@s.whatsapp.net" in
  let m1 := text_message c "1" "one" in
  let bad : obj := {[ "message" := VObj {[ "conversation" := VStr "two" ]} ]} in
  let m3 := text_message c "3" "three" in
  let r := handle "dev" 2 offline_socket (messages_upsert [m1; bad; m3]) fresh_world in
  (healthy fresh_world ∧ Forall has_key [m1] ∧ nullish (field bad "key") = true) ∧
  outcome r = Throw TypeError ∧
  stored_messages "dev" (world_of r) c = [JSON_stringify m1].
Proof.
  intros c m1 bad m3 r.
  assert (Hp : Forall has_key [m1]) by (repeat constructor).
  assert (Hb : nullish (field bad "key") = true) by reflexivity.
  split; [exact (conj fresh_world_healthy (conj Hp Hb))|].
  destruct (messages_upsert_breaks_off "dev" 2 offline_socket [m1] bad [m3] fresh_world
              fresh_world_healthy Hp Hb) as (Ho & Hl & _).
  split; [exact Ho|]. refine (eq_trans (Hl c) _). vm_refl.
Defined.


(** *** Conversations with messages *)

(** X8. With Redis reachable, well-typed events keep every conversation that
    has stored messages in the known set, so that [getAllChats] and [toJSON],
    which start from the known set, can reach them. *)
Theorem conversations_with_messages_are_known deviceId CIPHERTEXT sock events w :
  healthy w → Forall well_typed events → listed deviceId w →
  listed deviceId (deliver deviceId CIPHERTEXT sock events w).
Proof.
  revert w. induction events as [|e rest IH]; intros w H Ht Hl; simpl; [done|].
  inversion Ht as [|? ? He Hr]; subst.
  apply IH; [|done|].
  { apply (evolves_healthy w); [|done]. apply (handle_evolves deviceId CIPHERTEXT sock e w). }
  destruct (handle_run deviceId CIPHERTEXT sock e w H He) as [L K].
  intros c Hc. rewrite K. rewrite L in Hc.
  destruct (stored_messages deviceId w c) as [|t ts] eqn:Es.
  - simpl in Hc. unfold appended_for in Hc.
    destruct (List.filter (accepted_for c) (messages_of e)) as [|m ms] eqn:Ef; [done|].
    assert (Hm : In m (List.filter (accepted_for c) (messages_of e))).
    { rewrite Ef. by left. }
    apply filter_In in Hm as [Hin Ha].
    apply elem_of_union_l, elem_of_union_r. unfold message_jids.
    apply elem_of_list_to_set, list_elem_of_fmap. exists m.
    unfold accepted_for in Ha. apply andb_true_iff in Ha as [Ha Hj].
    apply String.eqb_eq in Hj. split; [done|].
    apply list_elem_of_In, filter_In. by split.
  - apply elem_of_union_r, Hl. by rewrite Es.
Qed.

Lemma conversations_with_messages_are_known_witness :
  let events :=
    [ messages_upsert [ text_message "ann@s.whatsapp.net" "1" "hello" ] ] in
  (healthy fresh_world ∧ Forall well_typed events ∧ listed "dev" fresh_world) ∧
  listed "dev" (deliver "dev" 2 offline_socket events fresh_world).
Proof.
  intros events.
  assert (Ht : Forall well_typed events) by (repeat constructor).
  assert (Hl : listed "dev" fresh_world) by (by intros c Hc).
  split; [exact (conj fresh_world_healthy (conj Ht Hl))|].
  exact (conversations_with_messages_are_known "dev" 2 offline_socket events fresh_world
           fresh_world_healthy Ht Hl).
Defined.

(** X9. Appending a message and registering its conversation are two
    commands and no transaction: when RPUSH succeeds and the SADD after it
    fails, the handler rejects, the message stays stored, and its
    conversation is not added to the known set. *)
Theorem failed_sadd_leaves_message deviceId CIPHERTEXT sock msg rest w :
  down w (cmds w) = false → down w (S (cmds w)) = true →
  has_key msg → accepted msg = true →
  let c := to_String (remoteJid_of msg) in
  let r := handle deviceId CIPHERTEXT sock (messages_upsert (msg :: rest)) w in
  outcome r = Throw RedisError ∧
  stored_messages deviceId (world_of r) c
  = stored_messages deviceId w c ++ [JSON_stringify msg] ∧
  known deviceId (world_of r) = known deviceId w.
Proof.
  intros H0 H1 Hk Ha. simpl.
  unfold on_messages_upsert. simpl. unfold upsert_message, get_prop.
  unfold has_key in Hk. rewrite Hk. unfold accepted, remoteJid_of in Ha.
  unfold bind_, lift. rewrite Ha.
  unfold redis_rpush, redis_sadd, command. rewrite H0. simpl. rewrite H1. simpl.
  repeat split.
  unfold stored_messages, remoteJid_of, list_at. simpl.
  by rewrite lookup_insert_eq.
Qed.

Lemma failed_sadd_leaves_message_witness :
  let c := "ann@s.whatsapp.net" in
  let msg := text_message c "1" "hello" in
  let r := handle "dev" 2 offline_socket (messages_upsert [msg]) flaky_world in
  (down flaky_world (cmds flaky_world) = false ∧
   down flaky_world (S (cmds flaky_world)) = true ∧
   has_key msg ∧ accepted msg = true) ∧
  outcome r = Throw RedisError ∧
  stored_messages "dev" (world_of r) c = [JSON_stringify msg] ∧
  known "dev" (world_of r) = ∅.
Proof.
  intros c msg r.
  assert (Hk : has_key msg) by reflexivity.
  assert (Ha : accepted msg = true) by vm_refl.
  split; [exact (conj eq_refl (conj eq_refl (conj Hk Ha)))|].
  destruct (failed_sadd_leaves_message "dev" 2 offline_socket msg [] flaky_world
              eq_refl eq_refl Hk Ha) as (Ho & Hl & Hn).
  split; [exact Ho|]. split.
  - refine (eq_trans Hl _). vm_refl.
  - exact Hn.
Defined.

(** *** Chats and contacts *)

Lemma id_writes_lookup key os id :
  (∀ a b, key a = key b → a = b) →
  id_writes key os !! key id = JSON_stringify <$> last_with_id id os.
Proof.
  intros Hinj. unfold last_with_id. induction os as [|o rest IH]; simpl; [done|].
  rewrite find_app_first.
  destruct (find _ (rev rest)) as [x|] eqn:Ef; simpl in *.
  - by rewrite (lookup_union_Some_l _ _ _ _ IH).
  - rewrite lookup_union_r by done. rewrite lookup_singleton.
    destruct (String.eqb_spec (to_String (field o "id")) id) as [->|Hne].
    + by rewrite decide_True.
    + rewrite decide_False; [done|]. intros Hk. by apply Hinj in Hk.
Qed.

Lemma id_writes_other key os k :
  (∀ id, key id ≠ k) → id_writes key os !! k = None.
Proof.
  intros Hk. induction os as [|o rest IH]; simpl; [done|].
  rewrite lookup_union_r by done. apply lookup_singleton_ne, Hk.
Qed.

Lemma chat_writes_id_writes deviceId chats :
  chat_writes deviceId chats = id_writes (key_chatmeta deviceId) chats.
Proof. induction chats as [|c rest IH]; simpl; [done|]. by rewrite IH. Qed.

Lemma lookup_union_ext {A} (m s1 s2 : gmap string A) k :
  s1 !! k = s2 !! k → (m ∪ s1) !! k = (m ∪ s2) !! k.
Proof. intros H. by rewrite !lookup_union, H. Qed.

Lemma lookup_writes key os (s : gmap string json_text) id :
  (∀ a b, key a = key b → a = b) →
  (id_writes key os ∪ s) !! key id
  = match last_with_id id os with
    | Some o => Some (JSON_stringify o)
    | None => s !! key id
    end.
Proof.
  intros Hinj. pose proof (id_writes_lookup key os id Hinj) as Hl.
  destruct (last_with_id id os) as [o|]; simpl in Hl.
  - by rewrite (lookup_union_Some_l _ _ _ _ Hl).
  - by rewrite lookup_union_r.
Qed.

(** X10. With Redis reachable, after [chats.upsert] the metadata stored
    for a conversation is the text of the last chat of the event that has its
    id, replacing what was stored, and is unchanged when the event names no
    such chat; no contact and no group metadata is touched. *)
Theorem chats_upsert_replaces deviceId CIPHERTEXT sock chats w :
  healthy w →
  let w' := world_of (handle deviceId CIPHERTEXT sock (chats_upsert chats) w) in
  (∀ jid, outcome (getChat deviceId jid w')
          = Ok (replaced_by chats jid (strings w !! key_chatmeta deviceId jid))) ∧
  (∀ jid, strings w' !! key_contact deviceId jid = strings w !! key_contact deviceId jid ∧
          strings w' !! key_groupmeta deviceId jid = strings w !! key_groupmeta deviceId jid).
Proof.
  intros H. simpl.
  destruct (on_chats_upsert_run deviceId w chats H) as (w1 & E1 & S1 & _).
  rewrite E1. simpl.
  assert (H1 : healthy w1).
  { exact (healthy_run _ _ _ _ (on_chats_upsert_evolves deviceId _) H E1). }
  rewrite chat_writes_id_writes in S1. split.
  - intros jid. run_healthy H1. rewrite S1.
    rewrite (lookup_writes _ _ _ _ (key_chatmeta_inj deviceId)).
    unfold replaced_by. by destruct (last_with_id jid chats).
  - intros jid. rewrite S1. split.
    + rewrite lookup_union_r; [done|]. apply id_writes_other.
      intros id. apply key_chatmeta_contact.
    + rewrite lookup_union_r; [done|]. apply id_writes_other.
      intros id. apply key_chatmeta_groupmeta.
Qed.

Lemma chats_upsert_replaces_witness :
  let ann := "ann@s.whatsapp.net" in
  let chats : list obj :=
    [ {[ "id" := VStr ann; "unreadCount" := VNum 3 ]};
      {[ "id" := VStr ann; "archived" := VBool true ]} ] in
  let w' := world_of (handle "dev" 2 offline_socket (chats_upsert chats) two_conversations) in
  healthy two_conversations ∧
  outcome (getChat "dev" ann w') = Ok (VObj {[ "id" := VStr ann; "archived" := VBool true ]}).
Proof.
  intros ann chats w'. split; [exact two_conversations_healthy|].
  refine (eq_trans (proj1 (chats_upsert_replaces "dev" 2 offline_socket chats
                             two_conversations two_conversations_healthy) ann) _).
  vm_refl.
Defined.

(** *** The history snapshot *)

#[export] Instance quiet_preorder : PreOrder quiet.
Proof.
  split.
  - intros w. by split.
  - intros a b c [H1 H2] [G1 G2]. split; congruence.
Qed.

Ltac solve_quiet := simpl; repeat case_match; simpl; by split.

Section Snapshot.
Variable deviceId : string.
Variable CIPHERTEXT : Z.

Lemma history_messages_quiet messages :
  keeps quiet
    (try_catch (for_of messages (history_message deviceId CIPHERTEXT)) (fun _ => ret tt)).
Proof. autounfold with store. keeps_with solve_quiet. Qed.

Lemma history_messages_caught messages :
  keeps evolves
    (try_catch (for_of messages (history_message deviceId CIPHERTEXT)) (fun _ => ret tt)).
Proof.
  apply keeps_try_catch; [typeclasses eauto|apply history_messages_evolves|].
  intros e. apply keeps_ret. typeclasses eauto.
Qed.

Lemma history_messages_resolve messages w :
  outcome (try_catch (for_of messages (history_message deviceId CIPHERTEXT))
             (fun _ => ret tt) w) = Ok tt.
Proof.
  unfold try_catch, outcome.
  by destruct (for_of messages (history_message deviceId CIPHERTEXT) w) as [[[]|e] w1].
Qed.

Lemma history_chat_step sock w chat :
  healthy w → string_id chat →
  ∃ w', history_chat deviceId sock chat w = (Ok tt, w') ∧
    (∀ jid, strings w' !! key_chatmeta deviceId jid
            = (<[key_chatmeta deviceId (to_String (field chat "id")) := JSON_stringify chat]>
                 (strings w)) !! key_chatmeta deviceId jid) ∧
    (∀ id, strings w' !! key_contact deviceId id = strings w !! key_contact deviceId id) ∧
    calls w' = calls w ++ snapshot_requests sock [chat].
Proof.
  intros H [id Hid]. unfold history_chat, snapshot_requests, group_chat. rewrite Hid.
  run_healthy H. unfold call_groupMetadata. rewrite ?Hid.
  assert (Ha : ∀ a b, key_groupmeta deviceId a ≠ key_chatmeta deviceId b).
  { intros a b E. symmetry in E. by apply key_chatmeta_groupmeta in E. }
  assert (Hb : ∀ a b, key_groupmeta deviceId a ≠ key_contact deviceId b).
  { intros a b E. symmetry in E. by apply key_contact_groupmeta in E. }
  pose proof (key_chatmeta_contact deviceId) as Hc.
  destruct (ends_with id "@g.us"); simpl;
    [destruct (groupMetadata sock) as [answer|]; simpl;
       [destruct (answer _ _); simpl; repeat (rewrite H; simpl)|]|];
    (eexists; split; [reflexivity|]; simpl; repeat split;
     try (intros ?; by rewrite ?lookup_insert_ne by done);
     try by rewrite app_nil_r).
  - by rewrite Hid.
  - by rewrite Hid.
  - destruct (groupMetadata sock); by rewrite app_nil_r.
Qed.

Lemma snapshot_requests_cons sock chat rest :
  snapshot_requests sock (chat :: rest)
  = snapshot_requests sock [chat] ++ snapshot_requests sock rest.
Proof.
  unfold snapshot_requests. destruct (groupMetadata sock); [|done].
  simpl. by destruct (group_chat chat).
Qed.

Lemma history_chats_step sock w chats :
  healthy w → Forall string_id chats →
  ∃ w', for_of chats (history_chat deviceId sock) w = (Ok tt, w') ∧
    (∀ jid, strings w' !! key_chatmeta deviceId jid
            = (id_writes (key_chatmeta deviceId) chats ∪ strings w)
                !! key_chatmeta deviceId jid) ∧
    (∀ id, strings w' !! key_contact deviceId id = strings w !! key_contact deviceId id) ∧
    calls w' = calls w ++ snapshot_requests sock chats.
Proof.
  revert w. induction chats as [|chat rest IH]; intros w H Hs.
  - exists w. simpl. repeat split.
    + intros jid. by rewrite (left_id_L ∅ (∪)).
    + unfold snapshot_requests. destruct (groupMetadata sock); by rewrite app_nil_r.
  - inversion Hs as [|? ? Hc Hr]; subst.
    destruct (history_chat_step sock w chat H Hc) as (w1 & E1 & S1 & C1 & R1).
    assert (H1 : healthy w1).
    { exact (healthy_run _ _ _ _ (history_chat_evolves deviceId _ _) H E1). }
    destruct (IH w1 H1 Hr) as (w2 & E2 & S2 & C2 & R2).
    exists w2. simpl for_of. rewrite (bind_run _ _ _ _ _ E1), E2. repeat split.
    + intros jid. rewrite S2. simpl id_writes.
      rewrite <- (assoc_L (∪)), <- insert_union_singleton_l.
      apply lookup_union_ext, S1.
    + intros c. by rewrite C2, C1.
    + by rewrite R2, R1, (snapshot_requests_cons sock chat rest), (assoc_L (++)).
Qed.

Lemma history_contacts_step w contacts :
  healthy w →
  ∃ w', for_of contacts (set_contact deviceId) w = (Ok tt, w') ∧
    strings w' = id_writes (key_contact deviceId) contacts ∪ strings w ∧
    calls w' = calls w.
Proof.
  revert w. induction contacts as [|contact rest IH]; intros w H.
  - exists w. simpl. by rewrite (left_id_L ∅ (∪)).
  - assert (∃ w1, set_contact deviceId contact w = (Ok tt, w1) ∧
              strings w1 = <[key_contact deviceId (to_String (field contact "id"))
                             := JSON_stringify contact]> (strings w) ∧
              calls w1 = calls w) as (w1 & E1 & S1 & C1).
    { run_healthy H. by eexists. }
    assert (H1 : healthy w1).
    { exact (healthy_run _ _ _ _ (set_contact_evolves deviceId _) H E1). }
    destruct (IH w1 H1) as (w2 & E2 & S2 & C2).
    exists w2. simpl for_of. rewrite (bind_run _ _ _ _ _ E1), E2. repeat split.
    + rewrite S2, S1. simpl id_writes.
      by rewrite <- (assoc_L (∪)), <- insert_union_singleton_l.
    + congruence.
Qed.

Lemma history_snapshot_run sock w chats contacts messages :
  healthy w → Forall string_id chats →
  ∃ w', on_messaging_history_set deviceId CIPHERTEXT sock chats contacts messages w
        = (Ok tt, w') ∧
    (∀ jid, strings w' !! key_chatmeta deviceId jid
            = (id_writes (key_chatmeta deviceId) chats ∪ strings w)
                !! key_chatmeta deviceId jid) ∧
    (∀ id, strings w' !! key_contact deviceId id
           = (id_writes (key_contact deviceId) contacts ∪ strings w)
               !! key_contact deviceId id) ∧
    calls w' = calls w ++ snapshot_requests sock chats.
Proof.
  intros H Hs. unfold on_messaging_history_set.
  pose proof (history_messages_quiet messages w) as [Q1 Q2].
  pose proof (history_messages_resolve messages w) as O1.
  pose proof (history_messages_caught messages w) as V1.
  unfold world_of in Q1, Q2, V1. unfold outcome in O1.
  destruct (try_catch _ _ w) as [r1 w1] eqn:E1. simpl in *. subst r1.
  assert (H1 : healthy w1) by (by eapply evolves_healthy).
  destruct (history_chats_step sock w1 chats H1 Hs) as (w2 & E2 & S2 & C2 & R2).
  assert (H2 : healthy w2).
  { exact (healthy_run _ _ _ _ (history_chats_evolves deviceId _ _) H1 E2). }
  destruct (history_contacts_step w2 contacts H2) as (w3 & E3 & S3 & R3).
  exists w3. split.
  - unfold bind_ at 1. rewrite E1. by rewrite (bind_run _ _ _ _ _ E2).
  - repeat split.
    + intros jid. rewrite S3, lookup_union_r.
      * rewrite S2, !lookup_union. by rewrite Q1.
      * apply id_writes_other. intros id E. symmetry in E.
        by apply key_chatmeta_contact in E.
    + intros id. rewrite S3. apply lookup_union_ext. by rewrite C2, Q1.
    + by rewrite R3, R2, Q2.
Qed.
End Snapshot.

(** X7. The history handler shields its message loop: given a message whose
    key cannot be read, it keeps the messages before it, drops that message
    and all after it, and still goes on to write and register every chat of
    the snapshot, so that [getChat] answers with the snapshot's chats
    afterwards; the handler resolves. *)
Theorem history_survives_bad_message
    deviceId CIPHERTEXT sock chats contacts pre bad post w :
  healthy w → Forall has_key pre → nullish (field bad "key") = true →
  Forall string_id chats →
  let r := handle deviceId CIPHERTEXT sock
             (messaging_history_set chats contacts (pre ++ bad :: post)) w in
  outcome r = Ok tt ∧
  (∀ c, stored_messages deviceId (world_of r) c
        = stored_messages deviceId w c ++ appended_for c pre) ∧
  known deviceId (world_of r) = chat_ids chats ∪ message_jids pre ∪ known deviceId w ∧
  (∀ jid, outcome (getChat deviceId jid (world_of r))
          = Ok (replaced_by chats jid (strings w !! key_chatmeta deviceId jid))).
Proof.
  intros H Hp Hb Hs. simpl. unfold on_messaging_history_set.
  assert (∃ w1, for_of (pre ++ bad :: post) (history_message deviceId CIPHERTEXT) w
                = (Throw TypeError, w1) ∧ healthy w1 ∧
                (∀ c, stored_messages deviceId w1 c
                      = stored_messages deviceId w c ++ appended_for c pre) ∧
                (∀ key, set_at w1 key =
                   if decide (key_knownJIDs deviceId = key)
                   then message_jids pre ∪ set_at w key else set_at w key))
    as (w1 & E1 & H1 & L1 & K1).
  { destruct (message_loop_run deviceId w pre H Hp) as (w1 & E1 & S1 & L1 & K1).
    exists w1. rewrite for_of_app.
    rewrite <- (history_loop_run deviceId CIPHERTEXT) in E1 by done.
    rewrite (bind_run _ _ _ _ _ E1). simpl. unfold bind_.
    rewrite (history_message_keyless deviceId CIPHERTEXT bad w1 Hb).
    repeat split; try done.
    exact (healthy_run _ _ _ _ (history_messages_evolves deviceId CIPHERTEXT _) H E1). }
  destruct (history_chats_run deviceId sock w1 chats H1 Hs) as (w2 & E2 & L2 & K2).
  assert (H2 : healthy w2).
  { exact (healthy_run _ _ _ _ (history_chats_evolves deviceId _ _) H1 E2). }
  destruct (history_contacts_run deviceId w2 contacts H2) as (w3 & E3 & L3 & K3).
  assert (Er : (try_catch (for_of (pre ++ bad :: post) (history_message deviceId CIPHERTEXT))
                  (λ _, ret tt) ;;
                for_of chats (history_chat deviceId sock) ;;
                for_of contacts (set_contact deviceId)) w = (Ok tt, w3)).
  { unfold bind_ at 1, try_catch. rewrite E1. simpl.
    by rewrite (bind_run _ _ _ _ _ E2), E3. }
  assert (H3 : healthy w3).
  { eapply evolves_healthy; [|exact H].
    exact (keeps_run _ _ _ _ _
             (handle_evolves deviceId CIPHERTEXT sock
                (messaging_history_set chats contacts (pre ++ bad :: post))) Er). }
  destruct (history_snapshot_run deviceId CIPHERTEXT sock w chats contacts
              (pre ++ bad :: post) H Hs) as (w3' & Er' & S3 & _).
  unfold on_messaging_history_set in Er'. rewrite Er in Er'.
  injection Er' as <-.
  rewrite Er. simpl. split; [done|]. split; [|split].
  - intros c. rewrite <- L1. unfold stored_messages, list_at. by rewrite L3, L2.
  - unfold known, set_at. rewrite K3. fold (set_at w2 (key_knownJIDs deviceId)).
    rewrite K2, K1, !decide_True by done. set_solver.
  - intros jid. run_healthy H3. rewrite S3.
    rewrite (lookup_writes _ _ _ _ (key_chatmeta_inj deviceId)).
    unfold replaced_by. by destruct (last_with_id jid chats).
Qed.

Lemma history_survives_bad_message_witness :
  let c := "ann@s.whatsapp.net" in
  let m1 := text_message c "1" "one" in
  let bad : obj := {[ "message" := VObj {[ "conversation" := VStr "two" ]} ]} in
  let m3 := text_message c "3" "three" in
  let chats : list obj := [ {[ "id" := VStr "team@g.us" ]} ] in
  let r := handle "dev" 2 offline_socket
             (messaging_history_set chats [] [m1; bad; m3]) fresh_world in
  (healthy fresh_world ∧ Forall has_key [m1] ∧ nullish (field bad "key") = true ∧
   Forall string_id chats) ∧
  outcome r = Ok tt ∧
  stored_messages "dev" (world_of r) c = [JSON_stringify m1] ∧
  known "dev" (world_of r) = {[ "team@g.us"; c ]} ∧
  outcome (getChat "dev" "team@g.us" (world_of r)) = Ok (VObj {[ "id" := VStr "team@g.us" ]}).
Proof.
  intros c m1 bad m3 chats r.
  assert (Hp : Forall has_key [m1]) by (repeat constructor).
  assert (Hb : nullish (field bad "key") = true) by reflexivity.
  assert (Hs : Forall string_id chats) by (repeat econstructor).
  split; [exact (conj fresh_world_healthy (conj Hp (conj Hb Hs)))|].
  destruct (history_survives_bad_message "dev" 2 offline_socket chats [] [m1] bad [m3]
              fresh_world fresh_world_healthy Hp Hb Hs) as (Ho & Hl & Hk & Hc).
  split; [exact Ho|]. split; [|split].
  - refine (eq_trans (Hl c) _). vm_refl.
  - refine (eq_trans Hk _). vm_refl.
  - refine (eq_trans (Hc "team@g.us") _). vm_refl.
Defined.

(** X11. With Redis reachable, a history snapshot whose chat ids are
    strings replaces chat metadata and contacts wholesale, whatever its
    messages are: afterwards [getChat] and [getContact] answer with the last
    chat, respectively the last contact, of the snapshot that has the id, as
    it reads back from its text, with nothing of the stored contact merged
    in, and answer as before for an id the snapshot does not name. *)
Theorem history_snapshot_replaces deviceId CIPHERTEXT sock chats contacts messages w :
  healthy w → Forall string_id chats →
  let w' := world_of (handle deviceId CIPHERTEXT sock
                        (messaging_history_set chats contacts messages) w) in
  ∀ jid,
    outcome (getChat deviceId jid w')
    = Ok (replaced_by chats jid (strings w !! key_chatmeta deviceId jid)) ∧
    outcome (getContact deviceId jid w')
    = Ok (replaced_by contacts jid (strings w !! key_contact deviceId jid)).
Proof.
  intros H Hs. simpl.
  destruct (history_snapshot_run deviceId CIPHERTEXT sock w chats contacts messages H Hs)
    as (w1 & E1 & S1 & C1 & _).
  assert (H1 : healthy w1).
  { eapply evolves_healthy; [|exact H].
    exact (keeps_run _ _ _ _ _
             (handle_evolves deviceId CIPHERTEXT sock
                (messaging_history_set chats contacts messages)) E1). }
  rewrite E1. simpl. intros jid. split.
  - run_healthy H1. rewrite S1.
    rewrite (lookup_writes _ _ _ _ (key_chatmeta_inj deviceId)).
    unfold replaced_by. by destruct (last_with_id jid chats).
  - run_healthy H1. rewrite C1.
    rewrite (lookup_writes _ _ _ _ (key_contact_inj deviceId)).
    unfold replaced_by. by destruct (last_with_id jid contacts).
Qed.

Lemma history_snapshot_replaces_witness :
  let ann := "ann@s.whatsapp.net" in
  let w := world_of (handle "dev" 2 offline_socket
                       (contacts_upsert [ {[ "id" := VStr ann; "name" := VStr "Ann" ]} ])
                       two_conversations) in
  let chats : list obj := [ {[ "id" := VStr ann; "unreadCount" := VNum 1 ]} ] in
  let contacts : list obj := [ {[ "id" := VStr ann; "notify" := VStr "A" ]} ] in
  let w' := world_of (handle "dev" 2 offline_socket
                        (messaging_history_set chats contacts []) w) in
  (healthy w ∧ Forall string_id chats) ∧
  outcome (getContact "dev" ann w) = Ok (VObj {[ "id" := VStr ann; "name" := VStr "Ann" ]}) ∧
  outcome (getContact "dev" ann w') = Ok (VObj {[ "id" := VStr ann; "notify" := VStr "A" ]}) ∧
  outcome (getChat "dev" ann w') = Ok (VObj {[ "id" := VStr ann; "unreadCount" := VNum 1 ]}).
Proof.
  intros ann w chats contacts w'.
  assert (H : healthy w).
  { eapply evolves_healthy; [|exact two_conversations_healthy].
    apply handle_evolves. }
  assert (Hs : Forall string_id chats).
  { repeat constructor. by exists ann. }
  pose proof (history_snapshot_replaces "dev" 2 offline_socket chats contacts [] w H Hs ann)
    as [Hc Hn].
  split; [exact (conj H Hs)|]. split; [vm_refl|]. split.
  - refine (eq_trans Hn _). vm_refl.
  - refine (eq_trans Hc _). vm_refl.
Defined.

(** X12. With Redis reachable, the handler of a history snapshot whose
    chat ids are strings resolves whatever its messages are and whatever the
    remote side answers, and asks the socket for group metadata exactly once
    for each chat whose id ends in [@g.us], in the order of the snapshot, and
    for nothing else; with a socket that has no [groupMetadata] it asks for
    nothing. *)
Theorem history_snapshot_requests deviceId CIPHERTEXT sock chats contacts messages w :
  healthy w → Forall string_id chats →
  let r := handle deviceId CIPHERTEXT sock
             (messaging_history_set chats contacts messages) w in
  outcome r = Ok tt ∧
  calls (world_of r)
  = calls w ++ match groupMetadata sock with
               | Some _ => map (λ chat, field chat "id") (List.filter group_chat chats)
               | None => []
               end.
Proof.
  intros H Hs. simpl.
  destruct (history_snapshot_run deviceId CIPHERTEXT sock w chats contacts messages H Hs)
    as (w1 & E1 & _ & _ & R1).
  rewrite E1. split; [done|]. exact R1.
Qed.

Lemma history_snapshot_requests_witness :
  let chats : list obj :=
    [ {[ "id" := VStr "team@g.us" ]}; {[ "id" := VStr "ann@s.whatsapp.net" ]};
      {[ "id" := VStr "club@g.us" ]} ] in
  let r := handle "dev" 2 offline_socket
             (messaging_history_set chats [] [ {[ "messageStubType" := VNum 2 ]} ])
             fresh_world in
  (healthy fresh_world ∧ Forall string_id chats) ∧
  outcome r = Ok tt ∧
  calls (world_of r) = [ VStr "team@g.us"; VStr "club@g.us" ].
Proof.
  intros chats r.
  assert (Hs : Forall string_id chats).
  { repeat constructor; by eexists. }
  pose proof (history_snapshot_requests "dev" 2 offline_socket chats []
                [ {[ "messageStubType" := VNum 2 ]} ] fresh_world fresh_world_healthy Hs)
    as [Ho Hc].
  split; [exact (conj fresh_world_healthy Hs)|]. split; [exact Ho|].
  refine (eq_trans Hc _). vm_refl.
Defined.

(** *** Group metadata *)

Section Groups.
Variable deviceId : string.

Lemma on_groups_upsert_run w groups :
  healthy w →
  ∃ w', on_groups_upsert deviceId groups w = (Ok tt, w') ∧
    strings w' = id_writes (key_groupmeta deviceId) groups ∪ strings w ∧
    lists w' = lists w ∧ sets w' = sets w ∧ calls w' = calls w ∧
    socketRef w' = socketRef w ∧ down w' = down w.
Proof.
  unfold on_groups_upsert.
  revert w. induction groups as [|group rest IH]; intros w H.
  - exists w. simpl. by rewrite (left_id_L ∅ (∪)).
  - assert (∃ w1, upsert_group deviceId group w = (Ok tt, w1) ∧
              strings w1 = <[key_groupmeta deviceId (to_String (field group "id"))
                             := JSON_stringify group]> (strings w) ∧
              lists w1 = lists w ∧ sets w1 = sets w ∧ calls w1 = calls w ∧
              socketRef w1 = socketRef w ∧ down w1 = down w)
      as (w1 & E1 & S1 & L1 & K1 & C1 & R1 & D1).
    { run_healthy H. by eexists. }
    assert (H1 : healthy w1) by (intros n; rewrite D1; apply H).
    destruct (IH w1 H1) as (w2 & E2 & S2 & L2 & K2 & C2 & R2 & D2).
    exists w2. simpl for_of. rewrite (bind_run _ _ _ _ _ E1), E2. split; [done|].
    split; [|repeat split; congruence].
    rewrite S2, S1. simpl id_writes.
    by rewrite <- (assoc_L (∪)), <- insert_union_singleton_l.
Qed.

(** Stored metadata is answered from the store. *)
Lemma getGroupMetadata_stored w jid t :
  healthy w → strings w !! key_groupmeta deviceId jid = Some t →
  let r := getGroupMetadata deviceId jid w in
  outcome r = Ok (VObj (JSON_parse t)) ∧
  calls (world_of r) = calls w ∧ strings (world_of r) = strings w.
Proof. intros H E. run_healthy H. by rewrite E. Qed.

Lemma update_group_run w group :
  healthy w →
  let key := key_groupmeta deviceId (to_String (field group "id")) in
  let existingMeta := parse_or_empty (strings w !! key) in
  ∃ w', on_groups_update deviceId [group] w = (Ok tt, w') ∧
    strings w' =
      <[key := JSON_stringify (merged_group existingMeta group (clock w (ticks w)))]>
        (strings w) ∧
    calls w' = calls w ∧ down w' = down w ∧ ticks w' = S (ticks w).
Proof.
  intros H. unfold on_groups_update. simpl for_of.
  run_healthy H. unfold Date_now. simpl. repeat (rewrite H; simpl).
  by eexists.
Qed.
End Groups.

(** X13. With Redis reachable, the metadata that [groups.upsert] delivers
    for a group is what [getGroupMetadata] answers afterwards, as the last
    group of the event with that id reads back from its text; neither the
    handler nor the accessor makes a remote request then, also on a store
    bound to a socket that could be asked, and chat metadata, contacts, lists
    and the known set are as before the event. *)
Theorem groups_upsert_read_back deviceId CIPHERTEXT sock groups w jid group :
  healthy w → last_with_id jid groups = Some group →
  let w' := world_of (handle deviceId CIPHERTEXT sock (groups_upsert groups) w) in
  let r := getGroupMetadata deviceId jid w' in
  outcome r = Ok (VObj (JSON_parse (JSON_stringify group))) ∧
  calls (world_of r) = calls w ∧
  (∀ id, strings w' !! key_chatmeta deviceId id = strings w !! key_chatmeta deviceId id ∧
         strings w' !! key_contact deviceId id = strings w !! key_contact deviceId id) ∧
  lists w' = lists w ∧ sets w' = sets w.
Proof.
  intros H Hl. simpl.
  destruct (on_groups_upsert_run deviceId w groups H)
    as (w1 & E1 & S1 & L1 & K1 & C1 & R1 & D1).
  rewrite E1. simpl.
  assert (H1 : healthy w1) by (intros n; rewrite D1; apply H).
  assert (Eg : strings w1 !! key_groupmeta deviceId jid = Some (JSON_stringify group)).
  { by rewrite S1, (lookup_writes _ _ _ _ (key_groupmeta_inj deviceId)), Hl. }
  destruct (getGroupMetadata_stored deviceId w1 jid _ H1 Eg) as (O2 & C2 & _).
  split; [exact O2|]. split; [by rewrite C2|]. split; [|done].
  intros id. rewrite S1. split.
  - rewrite lookup_union_r; [done|]. apply id_writes_other.
    intros a E. symmetry in E. by apply key_chatmeta_groupmeta in E.
  - rewrite lookup_union_r; [done|]. apply id_writes_other.
    intros a E. symmetry in E. by apply key_contact_groupmeta in E.
Qed.

Lemma groups_upsert_read_back_witness :
  let g := "team@g.us" in
  let groups : list obj :=
    [ {[ "id" := VStr g; "subject" := VStr "Old" ]};
      {[ "id" := VStr g; "subject" := VStr "New"; "desc" := VUndef ]} ] in
  let w := world_of (bind group_socket fresh_world) in
  let w' := world_of (handle "dev" 2 group_socket (groups_upsert groups) w) in
  let r := getGroupMetadata "dev" g w' in
  (healthy w ∧
   last_with_id g groups = Some {[ "id" := VStr g; "subject" := VStr "New"; "desc" := VUndef ]}) ∧
  outcome r = Ok (VObj {[ "id" := VStr g; "subject" := VStr "New" ]}) ∧
  calls (world_of r) = [].
Proof.
  intros g groups w w' r.
  assert (H : healthy w) by (intros n; reflexivity).
  assert (Hl : last_with_id g groups
               = Some {[ "id" := VStr g; "subject" := VStr "New"; "desc" := VUndef ]})
    by vm_refl.
  pose proof (groups_upsert_read_back "dev" 2 group_socket groups w g _ H Hl)
    as (Ho & Hc & _).
  split; [exact (conj H Hl)|]. split.
  - refine (eq_trans Ho _). vm_refl.
  - exact Hc.
Defined.

(** X14. With Redis reachable, [groups.update] with one partial update
    overlays it on the stored metadata of the group and stamps it:
    afterwards [getGroupMetadata] answers an object whose [lastGroupUpdate]
    is [{updatedAt}] with the time the handler read, and whose every other
    field is the update's where the update has the property and the stored
    one's where it has not, as it reads back from the text; no remote
    request is made by the handler or by the accessor. *)
Theorem groups_update_overlays deviceId CIPHERTEXT sock group w :
  healthy w →
  let jid := to_String (field group "id") in
  let existingMeta := parse_or_empty (strings w !! key_groupmeta deviceId jid) in
  let w' := world_of (handle deviceId CIPHERTEXT sock (groups_update [group]) w) in
  let r := getGroupMetadata deviceId jid w' in
  ∃ meta,
    outcome r = Ok (VObj meta) ∧
    field meta "lastGroupUpdate" = VObj {[ "updatedAt" := VNum (clock w (ticks w)) ]} ∧
    (∀ k, k ≠ "lastGroupUpdate" →
       field meta k
       = json_norm (if decide (is_Some (group !! k)) then field group k
                    else field existingMeta k)) ∧
    calls (world_of r) = calls w.
Proof.
  intros H. simpl.
  destruct (update_group_run deviceId w group H) as (w1 & E1 & S1 & C1 & D1 & _).
  rewrite E1. simpl.
  assert (H1 : healthy w1) by (intros n; rewrite D1; apply H).
  set (jid := to_String (field group "id")) in *.
  set (merged := merged_group _ _ _) in S1.
  assert (Eg : strings w1 !! key_groupmeta deviceId jid = Some (JSON_stringify merged)).
  { by rewrite S1, lookup_insert_eq. }
  destruct (getGroupMetadata_stored deviceId w1 jid _ H1 Eg) as (O2 & C2 & _).
  exists (JSON_parse (JSON_stringify merged)). split; [exact O2|]. split; [|split].
  - simpl. rewrite field_json_obj. unfold merged, merged_group, field.
    rewrite lookup_insert_eq. simpl. by f_equal.
  - intros k Hk. simpl. rewrite field_json_obj. f_equal.
    unfold merged, merged_group, field, spread.
    rewrite lookup_insert_ne by done.
    case_decide as Hg.
    + destruct Hg as [v Hv]. by rewrite (lookup_union_Some_l _ _ _ _ Hv), Hv.
    + apply eq_None_not_Some in Hg. by rewrite lookup_union_r.
  - by rewrite C2.
Qed.

Lemma groups_update_overlays_witness :
  let g := "team@g.us" in
  let group : obj := {[ "id" := VStr g; "subject" := VStr "Crew" ]} in
  let w' := world_of (handle "dev" 2 group_socket (groups_update [group]) one_group) in
  healthy one_group ∧
  ∃ meta,
    outcome (getGroupMetadata "dev" g w') = Ok (VObj meta) ∧
    field meta "lastGroupUpdate" = VObj {[ "updatedAt" := VNum 1700000000000 ]} ∧
    field meta "subject" = VStr "Crew" ∧
    read_prop (field meta "participants") "length" = VNum 2.
Proof.
  intros g group w'.
  assert (H : healthy one_group) by (intros n; reflexivity).
  split; [exact H|].
  destruct (groups_update_overlays "dev" 2 group_socket group one_group H)
    as (meta & Ho & Hs & Hf & _).
  exists meta. split; [exact Ho|]. split; [exact Hs|]. split.
  - rewrite (Hf "subject") by done. vm_refl.
  - rewrite (Hf "participants") by done. vm_refl.
Defined.

(** X15. When the remote fetch of [getGroupMetadata] succeeds but Redis
    fails on the command that would store the result, the accessor answers
    [null]: the request has been made, and the metadata it obtained is
    neither stored nor returned. *)
Theorem fetched_metadata_lost_on_failed_set deviceId w g sock answer meta :
  down w (cmds w) = false → down w (S (cmds w)) = true →
  strings w !! key_groupmeta deviceId g = None →
  socketRef w = Some sock → groupMetadata sock = Some answer →
  answer (length (calls w)) (VStr g) = Some meta →
  let r := getGroupMetadata deviceId g w in
  outcome r = Ok VNull ∧
  calls (world_of r) = calls w ++ [VStr g] ∧
  strings (world_of r) = strings w.
Proof.
  intros D0 D1 Eg Es Ea Em.
  autounfold with store.
  unfold bind_, command, try_catch, lift, ret, throw, world_of, outcome,
    get_socketRef, call_socketRef, call_groupMetadata, has_groupMetadata.
  simpl. rewrite D0. simpl. rewrite Eg, Es. simpl. rewrite Ea. simpl.
  rewrite ?bool_decide_eq_true_2 by done. simpl. rewrite Em. simpl.
  rewrite D1. done.
Qed.

Lemma fetched_metadata_lost_on_failed_set_witness :
  let g := "team@g.us" in
  let w := world_of (bind team_socket flaky_world) in
  let r := getGroupMetadata "dev" g w in
  outcome r = Ok VNull ∧ calls (world_of r) = [VStr g] ∧ strings (world_of r) = ∅.
Proof.
  intros g w r.
  exact (fetched_metadata_lost_on_failed_set "dev" w g team_socket
           (λ _ _, Some {["subject" := VStr "Team"]}) {["subject" := VStr "Team"]}
           eq_refl eq_refl eq_refl eq_refl eq_refl eq_refl).
Defined.

(** *** The export *)

(** A record filled by assignment, one value for each name of a list
    without repetition. *)
Lemma foldl_assign (f : string → value) (jids : list string) (r : js_record) :
  NoDup jids → settable (f "__proto__") = true →
  props r !! "__proto__" = None → proto r = None ∨ "__proto__" ∉ jids →
  let filled := foldl (λ acc j, assign acc j (f j)) r jids in
  (∀ jid, props filled !! jid
          = if decide (jid ∈ jids ∧ jid ≠ "__proto__") then Some (f jid)
            else props r !! jid) ∧
  proto filled = if decide ("__proto__" ∈ jids) then Some (f "__proto__") else proto r.
Proof.
  intros Hnd Hset. revert r.
  induction Hnd as [|j rest Hj Hnd IH]; intros r Hown Hp; cbn [foldl].
  - split.
    + intros jid. case_decide as Hc; [|done]. destruct Hc as [Hin _].
      by apply elem_of_nil in Hin.
    + case_decide as Hc; [|done]. by apply elem_of_nil in Hc.
  - destruct (String.eqb_spec j "__proto__") as [->|Hne].
    + assert (Hr : setter_reached r = true).
      { unfold setter_reached. rewrite Hown.
        destruct Hp as [->|Hp]; [done|]. exfalso. apply Hp, list_elem_of_here. }
      assert (Ea : assign r "__proto__" (f "__proto__")
                   = {| props := props r; proto := Some (f "__proto__") |}).
      { unfold assign. simpl. by rewrite Hr, Hset. }
      rewrite Ea.
      destruct (IH {| props := props r; proto := Some (f "__proto__") |} Hown
                  (or_intror Hj)) as [Hprops Hproto].
      split.
      * intros jid. rewrite Hprops. cbn [props proto].
        destruct (decide (jid ∈ rest ∧ jid ≠ "__proto__")) as [[Hin Hn]|Hn].
        -- rewrite decide_True; [done|]. split; [by apply list_elem_of_further|done].
        -- rewrite decide_False; [done|]. intros [Hin Hq]. apply Hn. split; [|done].
           apply elem_of_cons in Hin. by destruct Hin.
      * rewrite Hproto. rewrite decide_False by done. cbn [props proto].
        rewrite decide_True; [done|]. apply list_elem_of_here.
    + assert (Ea : assign r j (f j)
                   = {| props := <[j := f j]> (props r); proto := proto r |}).
      { unfold assign. by rewrite (proj2 (String.eqb_neq _ _) Hne). }
      rewrite Ea.
      destruct (IH {| props := <[j := f j]> (props r); proto := proto r |}) as [Hprops Hproto].
      { cbn [props]. by rewrite lookup_insert_ne. }
      { cbn [proto]. destruct Hp as [Hp|Hp]; [by left|]. right. intros Hin. apply Hp.
        by apply list_elem_of_further. }
      split.
      * intros jid. rewrite Hprops. cbn [props proto].
        destruct (decide (jid ∈ rest ∧ jid ≠ "__proto__")) as [[Hin Hn]|Hn].
        -- rewrite decide_True; [done|]. split; [by apply list_elem_of_further|done].
        -- destruct (decide (j = jid)) as [<-|Hjj].
           ++ rewrite lookup_insert_eq. rewrite decide_True; [done|].
              split; [apply list_elem_of_here|done].
           ++ rewrite lookup_insert_ne by done. rewrite decide_False; [done|].
              intros [Hin Hq]. apply elem_of_cons in Hin as [->|Hin]; [done|].
              apply Hn. by split.
      * rewrite Hproto. cbn [props proto]. destruct (decide ("__proto__" ∈ rest)) as [Hin|Hin].
        -- rewrite decide_True; [done|]. by apply list_elem_of_further.
        -- rewrite decide_False; [done|]. intros Hc.
           apply elem_of_cons in Hc as [Hc|Hc]; [by subst|done].
Qed.

Section Exporting.
Variable deviceId : string.

Lemma toJSON_loop_run jids chatmeta messages contacts w :
  healthy w →
  outcome (toJSON_loop deviceId jids chatmeta messages contacts w)
  = Ok (foldl (λ acc j, assign acc j (parse_or VNull (strings w !! key_chatmeta deviceId j)))
          chatmeta jids,
        foldl (λ acc j,
                 assign acc j (VArr (map VObj (map JSON_parse (stored_messages deviceId w j)))))
          messages jids,
        foldl (λ acc j, assign acc j (parse_or VNull (strings w !! key_contact deviceId j)))
          contacts jids).
Proof.
  revert chatmeta messages contacts w.
  induction jids as [|jid rest IH]; intros chatmeta messages contacts w H; [done|].
  simpl toJSON_loop. run_healthy H. rewrite lrange_all.
  match goal with |- context [toJSON_loop _ _ ?a ?b ?c ?w1] =>
    pose proof (IH a b c w1 H) as E end.
  unfold outcome in E. simpl in E.
  destruct (toJSON_loop _ _ _ _ _ _) as [r w2]. simpl in *. by subst r.
Qed.
End Exporting.

(** X16. With Redis reachable, [toJSON] resolves with three records
    whose own properties are exactly the known conversations other than
    [__proto__]: under such an id, [chatmeta] holds what [getChat] answers,
    [messages] the array of what [getMessages] answers and [contacts] what
    [getContact] answers ([null] where nothing is stored); a contact or a
    message list of an id that is not known is not exported. A known
    conversation whose id is [__proto__] gets no entry: its three values
    become the prototypes of the three records, which otherwise keep the
    prototype they were created with. *)
Theorem toJSON_covers_known deviceId w :
  healthy w →
  ∃ chatmeta messages contacts,
    outcome (toJSON deviceId w) = Ok (chatmeta, messages, contacts) ∧
    (∀ jid,
       if decide (jid ∈ known deviceId w ∧ jid ≠ "__proto__") then
         (∃ chat ms contact,
            props chatmeta !! jid = Some chat ∧
            props messages !! jid = Some (VArr (map VObj ms)) ∧
            props contacts !! jid = Some contact ∧
            outcome (getChat deviceId jid w) = Ok chat ∧
            outcome (getMessages deviceId jid w) = Ok ms ∧
            outcome (getContact deviceId jid w) = Ok contact)
       else
         props chatmeta !! jid = None ∧ props messages !! jid = None ∧
         props contacts !! jid = None) ∧
    (if decide ("__proto__" ∈ known deviceId w) then
       (∃ chat ms contact,
          proto chatmeta = Some chat ∧
          proto messages = Some (VArr (map VObj ms)) ∧
          proto contacts = Some contact ∧
          outcome (getChat deviceId "__proto__" w) = Ok chat ∧
          outcome (getMessages deviceId "__proto__" w) = Ok ms ∧
          outcome (getContact deviceId "__proto__" w) = Ok contact)
     else
       proto chatmeta = None ∧ proto messages = None ∧ proto contacts = None).
Proof.
  intros H.
  pose proof (toJSON_loop_run deviceId (elements (known deviceId w))
                empty_record empty_record empty_record (issued w) H) as E.
  assert (Hnd : NoDup (elements (known deviceId w))) by apply NoDup_elements.
  set (fc := λ j, parse_or VNull (strings w !! key_chatmeta deviceId j)).
  set (fm := λ j, VArr (map VObj (map JSON_parse (stored_messages deviceId w j)))).
  set (ft := λ j, parse_or VNull (strings w !! key_contact deviceId j)).
  assert (Hc : settable (fc "__proto__") = true).
  { unfold fc. by destruct (strings w !! _). }
  assert (Ht : settable (ft "__proto__") = true).
  { unfold ft. by destruct (strings w !! _). }
  destruct (foldl_assign fc _ empty_record Hnd Hc eq_refl (or_introl eq_refl)) as [Pc Qc].
  destruct (foldl_assign fm _ empty_record Hnd eq_refl eq_refl (or_introl eq_refl)) as [Pm Qm].
  destruct (foldl_assign ft _ empty_record Hnd Ht eq_refl (or_introl eq_refl)) as [Pt Qt].
  exists (foldl (λ acc j, assign acc j (fc j)) empty_record (elements (known deviceId w))),
    (foldl (λ acc j, assign acc j (fm j)) empty_record (elements (known deviceId w))),
    (foldl (λ acc j, assign acc j (ft j)) empty_record (elements (known deviceId w))).
  split; [|split].
  - unfold toJSON, getKnownJIDs, redis_smembers, bind_, command, outcome.
    rewrite H. simpl. exact E.
  - intros jid. rewrite Pc, Pm, Pt.
    destruct (decide (jid ∈ known deviceId w ∧ jid ≠ "__proto__")) as [[Hk Hn]|Hk].
    + rewrite !decide_True by (split; [by apply elem_of_elements|done]).
      eexists _, _, _. repeat split.
      * by run_healthy H.
      * by rewrite getMessages_run.
      * by run_healthy H.
    + rewrite !decide_False; [done|..]; intros [Hin Hn]; apply Hk;
        (split; [by apply elem_of_elements|done]).
  - rewrite Qc, Qm, Qt.
    destruct (decide ("__proto__" ∈ known deviceId w)) as [Hk|Hk].
    + rewrite !decide_True by (by apply elem_of_elements).
      eexists _, _, _. repeat split.
      * by run_healthy H.
      * by rewrite getMessages_run.
      * by run_healthy H.
    + rewrite !decide_False; [done|..]; by rewrite elem_of_elements.
Qed.

Lemma toJSON_covers_known_witness :
  let bob := "bob@s.whatsapp.net" in
  let cat := "cat@s.whatsapp.net" in
  let w := world_of (handle "dev" 2 offline_socket
                       (contacts_upsert [ {[ "id" := VStr cat; "name" := VStr "Cat" ]} ])
                       (world_of (handle "dev" 2 offline_socket
                                    (chats_upsert [ {[ "id" := VStr "__proto__" ]} ])
                                    two_conversations))) in
  healthy w ∧
  ∃ chatmeta messages contacts,
    outcome (toJSON "dev" w) = Ok (chatmeta, messages, contacts) ∧
    props chatmeta !! bob = Some VNull ∧
    props messages !! bob = Some (VArr [ VObj (text_message bob "2" "hi") ]) ∧
    props contacts !! cat = None ∧
    props chatmeta !! "__proto__" = None ∧
    proto chatmeta = Some (VObj {[ "id" := VStr "__proto__" ]}).
Proof.
  intros bob cat w.
  assert (H : healthy w) by (intros n; reflexivity).
  split; [exact H|].
  destruct (toJSON_covers_known "dev" w H)
    as (chatmeta & messages & contacts & E & Hj & Hp).
  exists chatmeta, messages, contacts. split; [exact E|].
  pose proof (Hj bob) as Hb. pose proof (Hj cat) as Hc. pose proof (Hj "__proto__") as Hq.
  rewrite decide_True in Hb by vm_decide.
  rewrite decide_False in Hc by vm_decide.
  rewrite decide_False in Hq by (intros [_ Hn]; exact (Hn eq_refl)).
  rewrite decide_True in Hp by vm_decide.
  destruct Hb as (chat & ms & contact & B1 & B2 & _ & B4 & B5 & _).
  destruct Hc as (_ & _ & C3). destruct Hq as (Q1 & _).
  destruct Hp as (pchat & _ & _ & P1 & _ & _ & P4 & _).
  assert (chat = VNull) as ->.
  { assert (Ok chat = Ok VNull :> result value) as [= ->]; [|done].
    rewrite <- B4. vm_refl. }
  assert (ms = [ text_message bob "2" "hi" ]) as ->.
  { assert (Ok ms = Ok [ text_message bob "2" "hi" ] :> result (list obj)) as [= ->]; [|done].
    rewrite <- B5. vm_refl. }
  assert (pchat = VObj {[ "id" := VStr "__proto__" ]}) as ->.
  { assert (Ok pchat = Ok (VObj {[ "id" := VStr "__proto__" ]}) :> result value)
      as [= ->]; [|done].
    rewrite <- P4. vm_refl. }
  split; [exact B1|]. split; [exact B2|]. split; [exact C3|]. split; [exact Q1|exact P1].
Defined.

(** *** The entries of the summaries view *)

Lemma chat_entry_name_set jid chat contact lastMessage :
  nullish (field (chat_entry jid chat contact lastMessage) "name") = false.
Proof.
  unfold chat_entry, field. cbv zeta.
  rewrite !lookup_insert_ne by done. rewrite lookup_insert_eq. simpl.
  unfold js_coalesce.
  destruct (nullish (opt_prop contact "name")) eqn:E1; [|done].
  destruct (nullish (opt_prop contact "notify")) eqn:E2; [|done].
  by destruct (nullish (default VUndef (chat !! "name"))) eqn:E3.
Qed.

Lemma chat_entry_unreadCount_set jid chat contact lastMessage :
  nullish (field (chat_entry jid chat contact lastMessage) "unreadCount") = false.
Proof.
  unfold chat_entry, field. cbv zeta.
  rewrite !lookup_insert_ne by done. rewrite lookup_insert_eq. simpl.
  unfold js_coalesce.
  by destruct (nullish (default VUndef (chat !! "unreadCount"))) eqn:E.
Qed.

Lemma chat_entry_isGroup jid chat contact lastMessage :
  field (chat_entry jid chat contact lastMessage) "isGroup" = VBool (ends_with jid "@g.us").
Proof. unfold chat_entry, field. cbv zeta. by rewrite lookup_insert_eq. Qed.

Lemma chat_entry_carries jid chat contact lastMessage k :
  computed_field k = false →
  field (chat_entry jid chat contact lastMessage) k = field chat k.
Proof.
  unfold computed_field. intros Hk. apply bool_decide_eq_false in Hk.
  unfold chat_entry, field. cbv zeta.
  rewrite !lookup_insert_ne; [done|..]; intros <-; apply Hk; set_solver.
Qed.

Lemma NoDup_omap_tagged {A B} (g : string → option A) (f : A → B) (tag : string → B)
    (l : list string) :
  (∀ a b, tag a = tag b → a = b) →
  (∀ j e, g j = Some e → f e = tag j) →
  NoDup l → NoDup (map f (omap g l)).
Proof.
  intros Hinj Hg. induction 1 as [|j rest Hn Hr IH]; simpl; [constructor|].
  destruct (g j) as [e|] eqn:Ej; [|exact IH].
  simpl. constructor; [|exact IH].
  intros Hin. apply list_elem_of_fmap in Hin as (e' & Hf & Hin).
  apply list_elem_of_omap in Hin as (j' & Hj' & Ej').
  rewrite (Hg _ _ Ej), (Hg _ _ Ej') in Hf. apply Hinj in Hf. by subst.
Qed.

(** X17. With Redis reachable, no conversation appears twice in the
    result of [getAllChats], and every entry, for its conversation [jid],
    has a [name] and an [unreadCount] that are neither [null] nor
    [undefined], has [isGroup] set exactly when [jid] ends in [@g.us], and
    carries every property of the stored chat metadata but the six the
    accessor computes. *)
Theorem summaries_are_complete_entries deviceId w :
  healthy w →
  ∃ result,
    outcome (getAllChats deviceId w) = Ok result ∧
    NoDup (map (λ entry, field entry "jid") result) ∧
    ∀ entry, entry ∈ result →
      ∃ jid t,
        field entry "jid" = VStr jid ∧
        strings w !! key_chatmeta deviceId jid = Some t ∧
        nullish (field entry "name") = false ∧
        nullish (field entry "unreadCount") = false ∧
        field entry "isGroup" = VBool (ends_with jid "@g.us") ∧
        ∀ k, computed_field k = false → field entry k = field (JSON_parse t) k.
Proof.
  intros H. eexists. split; [by apply getAllChats_run|]. split.
  - apply (NoDup_omap_tagged _ _ VStr).
    + by intros a b [= ->].
    + intros j e Hs. unfold summary_of in Hs.
      destruct (strings w !! _); [|done]. injection Hs as <-. apply chat_entry_jid.
    + apply NoDup_elements.
  - intros entry Hin. apply list_elem_of_omap in Hin as (jid & _ & Hs).
    unfold summary_of in Hs.
    destruct (strings w !! key_chatmeta deviceId jid) as [t|] eqn:Et; [|done].
    injection Hs as <-. exists jid, t. split; [apply chat_entry_jid|].
    split; [done|]. split; [apply chat_entry_name_set|].
    split; [apply chat_entry_unreadCount_set|].
    split; [apply chat_entry_isGroup|]. intros k. apply chat_entry_carries.
Qed.

Lemma summaries_are_complete_entries_witness :
  healthy two_conversations ∧
  ∃ result,
    outcome (getAllChats "dev" two_conversations) = Ok result ∧
    NoDup (map (λ entry, field entry "jid") result) ∧
    ∀ entry, entry ∈ result →
      nullish (field entry "name") = false ∧ nullish (field entry "unreadCount") = false.
Proof.
  split; [exact two_conversations_healthy|].
  destruct (summaries_are_complete_entries "dev" two_conversations two_conversations_healthy)
    as (result & E & Hn & Hall).
  exists result. split; [exact E|]. split; [exact Hn|].
  intros entry Hin. destruct (Hall entry Hin) as (jid & t & _ & _ & Hname & Hu & _).
  exact (conj Hname Hu).
Defined.

(** *** Windows *)

Lemma lrange_earliest_nonpositive {A} (l : list A) (k : Z) :
  (k ≤ 0)%Z → lrange l 0 (k - 1)%Z = take (length l - Z.to_nat (- k)) l.
Proof.
  intros Hk. unfold lrange. simpl.
  set (n := Z.of_nat (length l)).
  rewrite (proj2 (Z.ltb_lt (k - 1) 0)) by lia.
  destruct (Z.ltb_spec (n + (k - 1)) 0) as [Hs|Hs]; simpl.
  - replace (length l - Z.to_nat (- k)) with 0 by (unfold n in Hs; lia).
    by rewrite take_0.
  - rewrite (proj2 (Z.leb_gt n 0)) by lia.
    rewrite (proj2 (Z.leb_gt n (n + (k - 1)))) by lia.
    change (Z.to_nat 0) with 0. rewrite drop_0. f_equal. unfold n. lia.
Qed.

Lemma lrange_latest_nonpositive {A} (l : list A) (k : Z) :
  (k ≤ 0)%Z →
  lrange l (Z.max (Z.of_nat (length l) - k) 0) (Z.of_nat (length l) - 1) = [].
Proof.
  intros Hk. unfold lrange.
  set (n := Z.of_nat (length l)).
  assert (0 ≤ n)%Z by (unfold n; lia).
  rewrite (proj2 (Z.ltb_ge (Z.max (n - k) 0) 0)) by lia.
  rewrite (proj2 (Z.ltb_ge (Z.max (n - k) 0) 0)) by lia.
  rewrite (proj2 (Z.leb_le n (Z.max (n - k) 0))) by lia.
  by rewrite orb_true_r.
Qed.

(** X18. With Redis reachable, a count that is zero or negative gives
    nothing in direction [latest], but in direction [earliest] gives the
    stored messages without the last [-count] of them: the whole
    conversation for a count of zero. *)
Theorem windows_of_nonpositive_count deviceId w jid k :
  healthy w → (k ≤ 0)%Z →
  let l := stored_messages deviceId w jid in
  outcome (getSingleChatMessages deviceId jid (Some k) (Some latest) w) = Ok [] ∧
  outcome (getSingleChatMessages deviceId jid (Some k) (Some earliest) w)
  = Ok (map JSON_parse (take (length l - Z.to_nat (- k)) l)).
Proof.
  intros H Hk. split.
  - run_healthy H. by rewrite lrange_latest_nonpositive.
  - run_healthy H. unfold stored_messages. by rewrite lrange_earliest_nonpositive.
Qed.

Lemma windows_of_nonpositive_count_witness :
  let ann := "ann@s.whatsapp.net" in
  let m1 := text_message ann "1" "hello" in
  let m2 := text_message ann "3" "again" in
  let m3 := text_message ann "4" "bye" in
  let w := world_of (handle "dev" 2 offline_socket (messages_upsert [m2; m3])
                       two_conversations) in
  (healthy w ∧ (-1 ≤ 0)%Z) ∧
  outcome (getSingleChatMessages "dev" ann (Some (-1)%Z) (Some latest) w) = Ok [] ∧
  outcome (getSingleChatMessages "dev" ann (Some (-1)%Z) (Some earliest) w) = Ok [m1; m2].
Proof.
  intros ann m1 m2 m3 w.
  assert (H : healthy w) by (intros n; reflexivity).
  assert (Hk : (-1 ≤ 0)%Z) by lia.
  destruct (windows_of_nonpositive_count "dev" w ann (-1) H Hk) as [Hl He].
  split; [exact (conj H Hk)|]. split; [exact Hl|].
  refine (eq_trans He _). vm_refl.
Defined.

(** X19. With Redis reachable, on a conversation that has no more
    stored messages than the count asked for (at least one), both
    directions return what [getMessages] returns: all its messages, oldest
    first. With count and direction omitted this is so for every
    conversation of at most twenty messages. *)
Theorem windows_cover_short_conversations deviceId w jid k :
  healthy w → (1 ≤ k)%Z →
  (Z.of_nat (length (stored_messages deviceId w jid)) ≤ k)%Z →
  ∀ direction,
    outcome (getSingleChatMessages deviceId jid (Some k) direction w)
    = outcome (getMessages deviceId jid w) ∧
    (k = 20%Z →
     outcome (getSingleChatMessages deviceId jid None direction w)
     = outcome (getMessages deviceId jid w)).
Proof.
  intros H Hk Hn direction.
  assert (E : outcome (getSingleChatMessages deviceId jid (Some k) direction w)
              = outcome (getMessages deviceId jid w)).
  { rewrite getMessages_run by done. simpl.
    destruct direction as [[]|].
    - rewrite getSingleChatMessages_latest by (done || lia).
      replace (length _ - Z.to_nat k) with 0 by lia. by rewrite drop_0.
    - rewrite getSingleChatMessages_earliest by done.
      by rewrite take_ge by lia.
    - change (getSingleChatMessages deviceId jid (Some k) None w)
        with (getSingleChatMessages deviceId jid (Some k) (Some latest) w).
      rewrite getSingleChatMessages_latest by (done || lia).
      replace (length _ - Z.to_nat k) with 0 by lia. by rewrite drop_0. }
  split; [exact E|]. intros ->. exact E.
Qed.

Lemma windows_cover_short_conversations_witness :
  let ann := "ann@s.whatsapp.net" in
  (healthy two_conversations ∧ (1 ≤ 20)%Z ∧
   (Z.of_nat (length (stored_messages "dev" two_conversations ann)) ≤ 20)%Z) ∧
  outcome (getSingleChatMessages "dev" ann None None two_conversations)
  = outcome (getMessages "dev" ann two_conversations).
Proof.
  intros ann.
  assert (Hk : (1 ≤ 20)%Z) by lia.
  assert (Hn : (Z.of_nat (length (stored_messages "dev" two_conversations ann)) ≤ 20)%Z).
  { replace (stored_messages "dev" two_conversations ann)
      with [JSON_stringify (text_message ann "1" "hello")] by vm_refl.
    simpl. lia. }
  split; [exact (conj two_conversations_healthy (conj Hk Hn))|].
  exact (proj2 (windows_cover_short_conversations "dev" two_conversations ann 20
                  two_conversations_healthy Hk Hn None) eq_refl).
Defined.

(** *** Remote requests *)

#[export] Instance silent_preorder : PreOrder silent.
Proof. split; unfold silent; [done|congruence]. Qed.

Ltac solve_silent := unfold silent; simpl; repeat case_match; simpl; done.

Lemma silent_asks requests w w' : silent w w' → asks requests w w'.
Proof. intros E. exists []. rewrite app_nil_r. split; [done|apply prefix_nil]. Qed.

Lemma asks_silent_l requests w w1 w2 : silent w w1 → asks requests w1 w2 → asks requests w w2.
Proof. intros E (extra & E2 & Hp). exists extra. by rewrite E2, E. Qed.

Lemma asks_silent_r requests w w1 w2 : asks requests w w1 → silent w1 w2 → asks requests w w2.
Proof. intros (extra & E1 & Hp) E. exists extra. by rewrite E, E1. Qed.

Section Requests.
Variable deviceId : string.
Variable CIPHERTEXT : Z.

Lemma history_chat_asks sock chat w :
  let r := history_chat deviceId sock chat w in
  ∃ extra, calls (world_of r) = calls w ++ extra ∧
    match outcome r with
    | Ok _ => extra = snapshot_requests sock [chat]
    | Throw _ => extra = []
    end.
Proof.
  unfold history_chat, snapshot_requests, group_chat.
  autounfold with store.
  unfold bind_, command, try_catch, lift, ret, throw, world_of, outcome, call_groupMetadata.
  simpl.
  destruct (down w (cmds w)); simpl; [by exists []; rewrite app_nil_r|].
  destruct (down w (S (cmds w))); simpl; [by exists []; rewrite app_nil_r|].
  destruct (field chat "id") as [| |b|n|s|xs|o] eqn:Hid; simpl;
    try (by exists []; rewrite app_nil_r).
  destruct (ends_with s "@g.us"); simpl.
  - destruct (groupMetadata sock) as [answer|]; simpl.
    + destruct (answer _ _); simpl; [destruct (down w _); simpl|];
        (eexists; split; [reflexivity|]; by rewrite ?Hid).
    + by exists []; rewrite app_nil_r.
  - exists []. rewrite app_nil_r. by destruct (groupMetadata sock).
Qed.

Lemma history_chats_asks sock chats w :
  asks (snapshot_requests sock chats) w
    (world_of (for_of chats (history_chat deviceId sock) w)).
Proof.
  revert w. induction chats as [|chat rest IH]; intros w.
  - by apply silent_asks.
  - simpl for_of. unfold bind_, world_of.
    destruct (history_chat_asks sock chat w) as (e1 & E1 & Ho).
    unfold world_of, outcome in E1, Ho.
    destruct (history_chat deviceId sock chat w) as [[[]|e] w1]; simpl in *.
    + destruct (IH w1) as (e2 & E2 & Hp). unfold world_of in E2.
      exists (e1 ++ e2). split.
      * by rewrite E2, E1, (assoc_L (++)).
      * rewrite (snapshot_requests_cons sock chat rest), Ho. by apply prefix_app.
    + exists []. subst e1. split; [done|apply prefix_nil].
Qed.

Lemma history_messages_silent messages :
  keeps silent
    (try_catch (for_of messages (history_message deviceId CIPHERTEXT)) (fun _ => ret tt)).
Proof. autounfold with store. keeps_with solve_silent. Qed.

Lemma history_contacts_silent contacts :
  keeps silent (for_of contacts (set_contact deviceId)).
Proof. autounfold with store. keeps_with solve_silent. Qed.

Lemma history_asks sock chats contacts messages w :
  asks (snapshot_requests sock chats) w
    (world_of (on_messaging_history_set deviceId CIPHERTEXT sock chats contacts messages w)).
Proof.
  unfold on_messaging_history_set, bind_ at 1.
  pose proof (history_messages_silent messages w) as S1.
  pose proof (history_messages_resolve deviceId CIPHERTEXT messages w) as O1.
  unfold world_of in *. unfold outcome in O1.
  destruct (try_catch _ _ w) as [r1 w1]. simpl in *. subst r1.
  apply (asks_silent_l _ _ _ _ S1). unfold bind_.
  pose proof (history_chats_asks sock chats w1) as A2. unfold world_of in A2.
  destruct (for_of chats _ w1) as [[[]|e] w2]; simpl in *; [|exact A2].
  apply (asks_silent_r _ _ _ _ A2).
  exact (history_contacts_silent contacts w2).
Qed.

Lemma participants_update_asks sock update w :
  asks (requests_of (op_event sock (group_participants_update update))) w
    (world_of (on_group_participants_update deviceId sock update w)).
Proof.
  unfold on_group_participants_update, requests_of, asks.
  autounfold with store.
  unfold bind_, command, try_catch, lift, ret, throw, world_of, outcome, call_groupMetadata,
    Date_now.
  simpl.
  destruct (down w (cmds w)); simpl;
    [by exists []; rewrite app_nil_r; split; [|apply prefix_nil]|].
  destruct (groupMetadata sock) as [answer|]; simpl.
  - destruct (answer _ _) as [meta|]; simpl.
    + destruct (adminList_of meta); simpl; [destruct (down w _); simpl|]; by eexists.
    + destruct (adminList_of ∅); simpl; [destruct (down w _); simpl|]; by eexists.
  - destruct (adminList_of ∅); simpl; [destruct (down w _); simpl|];
      by exists []; rewrite app_nil_r.
Qed.

Lemma getGroupMetadata_asks jid w :
  asks [VStr jid] w (world_of (getGroupMetadata deviceId jid w)).
Proof.
  unfold asks. autounfold with store.
  unfold bind_, command, try_catch, lift, ret, throw, world_of, outcome,
    get_socketRef, call_socketRef, call_groupMetadata, has_groupMetadata.
  simpl.
  destruct (down w (cmds w)); simpl;
    [by exists []; rewrite app_nil_r; split; [|apply prefix_nil]|].
  destruct (strings w !! _); simpl;
    [by exists []; rewrite app_nil_r; split; [|apply prefix_nil]|].
  destruct (socketRef w) as [sock|]; simpl;
    [|by exists []; rewrite app_nil_r; split; [|apply prefix_nil]].
  destruct (groupMetadata sock) as [answer|]; simpl.
  - rewrite ?bool_decide_eq_true_2 by done. simpl.
    destruct (answer _ _); simpl; [destruct (down w _); simpl|]; by eexists.
  - rewrite ?bool_decide_eq_false_2 by (by intros [? ?]). simpl.
    by exists []; rewrite app_nil_r; split; [|apply prefix_nil].
Qed.

Lemma handle_silent sock e :
  match e with
  | messaging_history_set _ _ _ | group_participants_update _ => False
  | _ => True
  end →
  keeps silent (handle deviceId CIPHERTEXT sock e).
Proof.
  destruct e; simpl; try done; intros _;
    autounfold with store; keeps_with solve_silent.
Qed.
End Requests.

(** X20. Whatever Redis and the remote side do, an operation asks the
    socket for nothing but group metadata, and only for the groups it is
    about: after any operation the requests made so far are those made
    before followed by an initial part of the list of the group chats of
    the snapshot (history), the group of the update (participants update) or
    the group asked about ([getGroupMetadata]); every other event and every
    other accessor makes no request at all. *)
Theorem remote_requests_are_bounded deviceId CIPHERTEXT o w :
  ∃ extra,
    calls (perform deviceId CIPHERTEXT o w) = calls w ++ extra ∧
    extra `prefix_of` requests_of o.
Proof.
  change (asks (requests_of o) w (perform deviceId CIPHERTEXT o w)).
  destruct o as [sock|sock e| | | | | | | | | |];
    try (match goal with
         | |- asks _ _ (perform _ _ ?o _) =>
             apply silent_asks;
             exact (proj1 (proj2 (proj2 (proj2 (proj2
                      (perform_untouched deviceId CIPHERTEXT o w eq_refl))))))
         end).
  - by apply silent_asks.
  - destruct e;
      try (match goal with
           | |- asks _ _ (perform _ _ (op_event _ ?e) _) =>
               apply silent_asks; exact (handle_silent deviceId CIPHERTEXT sock e I w)
           end).
    + apply history_asks.
    + apply participants_update_asks.
  - apply getGroupMetadata_asks.
Qed.

(** ** The earlier version of the store *)

#[export] Hint Unfold
  Legacy.store_message Legacy.on_messaging_history_set Legacy.on_messages_upsert
  Legacy.on_contacts_upsert Legacy.handle Legacy.getAllChats Legacy.getGroupMetadata
  : store.

Section LegacyRunning.
Variable deviceId : string.

Lemma legacy_store_message_evolves msg : keeps evolves (Legacy.store_message deviceId msg).
Proof. step_evolves. Qed.

Lemma legacy_store_message_run w msg :
  healthy w → has_key msg →
  ∃ w', Legacy.store_message deviceId msg w = (Ok tt, w') ∧
    strings w' = strings w ∧
    (∀ c, stored_messages deviceId w' c =
       stored_messages deviceId w c
         ++ (if Legacy.addressed_to c msg then [JSON_stringify msg] else [])) ∧
    (∀ key, set_at w' key =
       if decide (key_knownJIDs deviceId = key)
       then (if Legacy.addressed msg then {[to_String (remoteJid_of msg)]} else ∅)
              ∪ set_at w key
       else set_at w key).
Proof.
  intros H Hk. unfold has_key in Hk.
  unfold Legacy.addressed_to, Legacy.addressed, remoteJid_of.
  unfold Legacy.store_message, get_prop. rewrite Hk.
  set (jid := read_prop (field msg "key") "remoteJid").
  unfold bind_ at 1, lift; simpl.
  destruct (truthy jid) eqn:Ea; simpl.
  - run_healthy H. eexists; split; [reflexivity|]. simpl. repeat split.
    + intros c. unfold stored_messages. rewrite list_at_insert.
      destruct (String.eqb_spec (to_String jid) c) as [->|Hne].
      * by rewrite decide_True.
      * rewrite decide_False; [by rewrite app_nil_r|].
        intros Heq. by apply key_messages_inj in Heq.
    + intros key. rewrite set_at_insert. case_decide; subst; [|done].
      assert (toArg jid = to_String jid) as ->; [|done].
      unfold toArg. destruct jid; simpl in *; done.
  - exists w. repeat split.
    + intros c. by rewrite app_nil_r.
    + intros key. case_decide; [|done]. by rewrite (left_id_L ∅ (∪)).
Qed.

Lemma legacy_message_loop_run w messages :
  healthy w → Forall has_key messages →
  ∃ w', for_of messages (Legacy.store_message deviceId) w = (Ok tt, w') ∧
    healthy w' ∧ strings w' = strings w ∧
    (∀ c, stored_messages deviceId w' c =
       stored_messages deviceId w c
         ++ map JSON_stringify (List.filter (Legacy.addressed_to c) messages)) ∧
    (∀ c, c ∈ known deviceId w' ↔
       c ∈ known deviceId w ∨
       ∃ msg, msg ∈ messages ∧ Legacy.addressed_to c msg = true).
Proof.
  revert w. induction messages as [|msg rest IH]; intros w H Hk; simpl.
  - exists w. repeat split; try done.
    + intros c. by rewrite app_nil_r.
    + by left.
    + intros [?|(msg & Hin & _)]; [done|]. by apply elem_of_nil in Hin.
  - inversion Hk as [|? ? Hm Hr]; subst.
    destruct (legacy_store_message_run w msg H Hm) as (w1 & E1 & S1 & L1 & K1).
    assert (H1 : healthy w1).
    { exact (healthy_run _ _ _ _ (legacy_store_message_evolves _) H E1). }
    destruct (IH w1 H1 Hr) as (w2 & E2 & H2 & S2 & L2 & K2).
    exists w2. rewrite (bind_run _ _ _ _ _ E1), E2. repeat split; try done.
    + congruence.
    + intros c. rewrite L2, L1, <- (assoc_L (++)). f_equal.
      by destruct (Legacy.addressed_to c msg).
    + intros Hc. apply K2 in Hc as [Hc|(m & Hin & Ha)].
      * unfold known in Hc. rewrite K1, decide_True in Hc by done.
        apply elem_of_union in Hc as [Hc|Hc]; [|by left].
        right. exists msg. split; [apply list_elem_of_here|].
        unfold Legacy.addressed_to.
        destruct (Legacy.addressed msg); [|by apply elem_of_empty in Hc].
        apply elem_of_singleton in Hc. subst c. simpl. apply String.eqb_refl.
      * right. exists m. split; [by apply list_elem_of_further|done].
    + intros [Hc|(m & Hin & Ha)]; apply K2.
      * left. unfold known. rewrite K1, decide_True by done. set_solver.
      * apply elem_of_cons in Hin as [->|Hin]; [|right; by exists m].
        left. unfold known. rewrite K1, decide_True by done.
        unfold Legacy.addressed_to in Ha. apply andb_true_iff in Ha as [Ha Hq].
        rewrite Ha. apply String.eqb_eq in Hq. set_solver.
Qed.

Lemma legacy_store_message_keyless msg w :
  ¬ has_key msg → Legacy.store_message deviceId msg w = (Throw TypeError, w).
Proof.
  unfold has_key, Legacy.store_message, get_prop, bind_, lift.
  by destruct (nullish (field msg "key")).
Qed.

Lemma legacy_store_message_agrees msg w :
  truthy (field msg "message") = true →
  Legacy.store_message deviceId msg w = upsert_message deviceId msg w.
Proof.
  intros Hm. unfold Legacy.store_message, upsert_message, bind_, lift.
  destruct (get_prop (field msg "key") "remoteJid") as [jid|e]; [|done].
  by rewrite Hm, andb_true_r.
Qed.

Lemma legacy_getAllChats_loop_run jids result w :
  healthy w →
  outcome (Legacy.getAllChats_loop deviceId jids result w)
  = Ok (result ++ map (Legacy.summary_of deviceId w) jids).
Proof.
  revert result w. induction jids as [|jid rest IH]; intros result w H.
  - simpl. by rewrite app_nil_r.
  - simpl Legacy.getAllChats_loop. run_healthy H.
    match goal with |- context [Legacy.getAllChats_loop _ _ ?r ?w1] =>
      pose proof (IH r w1 H) as E end.
    unfold outcome in E. rewrite E. by rewrite <- (assoc_L (++)).
Qed.
End LegacyRunning.

Lemma contacts_loop_run deviceId w contacts :
  healthy w →
  ∃ w', for_of contacts (set_contact deviceId) w = (Ok tt, w') ∧
    healthy w' ∧
    strings w' = id_writes (key_contact deviceId) contacts ∪ strings w ∧
    lists w' = lists w ∧ sets w' = sets w.
Proof.
  intros H.
  destruct (history_contacts_step deviceId w contacts H) as (w1 & E1 & S1 & _).
  destruct (history_contacts_run deviceId w contacts H) as (w2 & E2 & L2 & K2).
  assert (w2 = w1) as -> by congruence.
  exists w1. repeat split; try done.
  eapply evolves_healthy; [|exact H].
  refine (keeps_run _ _ _ _ _ _ E1). apply keeps_for_of; [typeclasses eauto|].
  intros contact. apply set_contact_evolves.
Qed.

(** X21. The earlier version stores a message whether or not it has a
    content payload: with Redis reachable, after its [messages.upsert]
    listener has run on messages whose key can be read, the list of every
    conversation is the list before followed by the texts of the messages
    addressed to it (a non-empty [remoteJid]), in order, and the known
    conversations are those before and those a message is addressed to. *)
Theorem legacy_stores_every_addressed_message deviceId messages w :
  healthy w → Forall has_key messages →
  let r := Legacy.handle deviceId (messages_upsert messages) w in
  outcome r = Ok tt ∧
  (∀ c, stored_messages deviceId (world_of r) c
        = stored_messages deviceId w c
            ++ map JSON_stringify (List.filter (Legacy.addressed_to c) messages)) ∧
  (∀ c, c ∈ known deviceId (world_of r) ↔
        c ∈ known deviceId w ∨ ∃ msg, msg ∈ messages ∧ Legacy.addressed_to c msg = true).
Proof.
  intros H Hk. simpl. unfold Legacy.on_messages_upsert.
  destruct (legacy_message_loop_run deviceId w messages H Hk) as (w1 & E1 & _ & _ & L1 & K1).
  rewrite E1. simpl. split; [done|]. split; [exact L1|exact K1].
Qed.

Lemma legacy_stores_every_addressed_message_witness :
  let team := "team@g.us" in
  let stub := stub_message team "7" 20 in
  let r := Legacy.handle "dev" (messages_upsert [stub]) fresh_world in
  (healthy fresh_world ∧ Forall has_key [stub]) ∧
  stored_messages "dev" (world_of r) team = [JSON_stringify stub] ∧
  stored_messages "dev"
    (world_of (handle "dev" 2 offline_socket (messages_upsert [stub]) fresh_world)) team = [].
Proof.
  intros team stub r.
  assert (Hk : Forall has_key [stub]) by (repeat constructor).
  destruct (legacy_stores_every_addressed_message "dev" [stub] fresh_world
              fresh_world_healthy Hk) as (_ & Hl & _).
  split; [exact (conj fresh_world_healthy Hk)|]. split.
  - refine (eq_trans (Hl team) _). vm_refl.
  - vm_refl.
Defined.

(** X22. On messages that all carry a content payload the two versions
    of the [messages.upsert] listener do the same, in every state of Redis:
    same result, same data set. *)
Theorem versions_agree_on_content_messages deviceId CIPHERTEXT sock messages w :
  Forall (λ msg, truthy (field msg "message") = true) messages →
  Legacy.handle deviceId (messages_upsert messages) w
  = handle deviceId CIPHERTEXT sock (messages_upsert messages) w.
Proof.
  intros Hm. simpl. unfold Legacy.on_messages_upsert, on_messages_upsert.
  revert w. induction Hm as [|msg rest Hc Hr IH]; intros w; simpl; [done|].
  unfold bind_. rewrite (legacy_store_message_agrees deviceId msg w Hc).
  destruct (upsert_message deviceId msg w) as [[[]|e] w1]; [|done].
  apply IH.
Qed.

Lemma versions_agree_on_content_messages_witness :
  let ann := "ann@s.whatsapp.net" in
  let messages := [ text_message ann "3" "again"; text_message "" "4" "lost" ] in
  Legacy.handle "dev" (messages_upsert messages) two_conversations
  = handle "dev" 2 offline_socket (messages_upsert messages) two_conversations.
Proof.
  intros ann messages.
  apply (versions_agree_on_content_messages "dev" 2 offline_socket messages two_conversations).
  repeat constructor.
Defined.

(** X23. The earlier version writes the chats and the contacts of a
    history snapshot before its messages and does not shield the message
    loop: with Redis reachable, given a message whose key cannot be read the
    listener rejects with a type error after the chats and contacts have
    replaced the stored ones and the messages before the bad one have been
    appended; the bad message and all after it are dropped. *)
Theorem legacy_history_rejects_at_bad_message deviceId chats contacts pre bad post w :
  healthy w → Forall has_key pre → ¬ has_key bad →
  let r := Legacy.handle deviceId
             (messaging_history_set chats contacts (pre ++ bad :: post)) w in
  let w' := world_of r in
  outcome r = Throw TypeError ∧
  (∀ jid,
     outcome (getChat deviceId jid w')
     = Ok (replaced_by chats jid (strings w !! key_chatmeta deviceId jid)) ∧
     outcome (getContact deviceId jid w')
     = Ok (replaced_by contacts jid (strings w !! key_contact deviceId jid))) ∧
  (∀ c, stored_messages deviceId w' c
        = stored_messages deviceId w c
            ++ map JSON_stringify (List.filter (Legacy.addressed_to c) pre)).
Proof.
  intros H Hp Hb. simpl. unfold Legacy.on_messaging_history_set.
  destruct (on_chats_upsert_run deviceId w chats H) as (w1 & E1 & S1 & L1 & _).
  assert (H1 : healthy w1).
  { exact (healthy_run _ _ _ _ (on_chats_upsert_evolves deviceId _) H E1). }
  destruct (contacts_loop_run deviceId w1 contacts H1) as (w2 & E2 & H2 & S2 & L2 & _).
  destruct (legacy_message_loop_run deviceId w2 pre H2 Hp) as (w3 & E3 & H3 & S3 & L3 & _).
  assert (Er : (for_of chats (upsert_chat deviceId) ;;
                for_of contacts (set_contact deviceId) ;;
                for_of (pre ++ bad :: post) (Legacy.store_message deviceId)) w
               = (Throw TypeError, w3)).
  { unfold on_chats_upsert in E1. rewrite (bind_run _ _ _ _ _ E1).
    rewrite (bind_run _ _ _ _ _ E2). rewrite for_of_app.
    rewrite (bind_run _ _ _ _ _ E3). simpl. unfold bind_.
    by rewrite (legacy_store_message_keyless deviceId bad w3 Hb). }
  rewrite Er. simpl. split; [done|]. split.
  - intros jid. rewrite chat_writes_id_writes in S1. split.
    + run_healthy H3. rewrite S3, S2, lookup_union_r.
      * rewrite S1, (lookup_writes _ _ _ _ (key_chatmeta_inj deviceId)).
        unfold replaced_by. by destruct (last_with_id jid chats).
      * apply id_writes_other. intros id E. symmetry in E.
        by apply key_chatmeta_contact in E.
    + run_healthy H3. rewrite S3, S2.
      rewrite (lookup_writes _ _ _ _ (key_contact_inj deviceId)).
      unfold replaced_by. destruct (last_with_id jid contacts); [done|].
      rewrite S1, lookup_union_r; [done|].
      apply id_writes_other. intros id. apply key_chatmeta_contact.
  - intros c. rewrite L3. unfold stored_messages, list_at. by rewrite L2, L1.
Qed.

Lemma legacy_history_rejects_at_bad_message_witness :
  let ann := "ann@s.whatsapp.net" in
  let chats : list obj := [ {[ "id" := VStr ann; "unreadCount" := VNum 1 ]} ] in
  let m1 := text_message ann "1" "one" in
  let bad : obj := {[ "message" := VObj {[ "conversation" := VStr "two" ]} ]} in
  let m3 := text_message ann "3" "three" in
  let r := Legacy.handle "dev" (messaging_history_set chats [] [m1; bad; m3]) fresh_world in
  (healthy fresh_world ∧ Forall has_key [m1] ∧ ¬ has_key bad) ∧
  outcome r = Throw TypeError ∧
  outcome (getChat "dev" ann (world_of r))
  = Ok (VObj {[ "id" := VStr ann; "unreadCount" := VNum 1 ]}) ∧
  stored_messages "dev" (world_of r) ann = [JSON_stringify m1].
Proof.
  intros ann chats m1 bad m3 r.
  assert (Hp : Forall has_key [m1]) by (repeat constructor).
  assert (Hb : ¬ has_key bad) by (unfold has_key; simpl; discriminate).
  destruct (legacy_history_rejects_at_bad_message "dev" chats [] [m1] bad [m3] fresh_world
              fresh_world_healthy Hp Hb) as (Ho & Hc & Hl).
  split; [exact (conj fresh_world_healthy (conj Hp Hb))|]. split; [exact Ho|]. split.
  - refine (eq_trans (proj1 (Hc ann)) _). vm_refl.
  - refine (eq_trans (Hl ann) _). vm_refl.
Defined.

(** X24. With Redis reachable, [getAllChats] of the earlier version
    answers with one entry for every known conversation, chat metadata
    stored or not. Where chat metadata is stored, the entry carries every
    property of it, the stored [jid] and [name] included when it has them;
    where none is stored the entry is the conversation's id with a name the
    contact gives, or the empty string. *)
Theorem legacy_summaries_list_every_known deviceId w :
  healthy w →
  ∃ result,
    outcome (Legacy.getAllChats deviceId w) = Ok result ∧
    length result = size (known deviceId w) ∧
    ∀ jid, jid ∈ known deviceId w →
      ∃ entry, entry ∈ result ∧
        match strings w !! key_chatmeta deviceId jid with
        | Some t =>
            ∀ k, is_Some (JSON_parse t !! k) → field entry k = field (JSON_parse t) k
        | None =>
            field entry "jid" = VStr jid ∧ nullish (field entry "name") = false ∧
            ∀ k, is_Some (entry !! k) → k = "jid" ∨ k = "name"
        end.
Proof.
  intros H. exists (map (Legacy.summary_of deviceId w) (elements (known deviceId w))).
  split; [|split].
  - unfold Legacy.getAllChats, getKnownJIDs, redis_smembers, bind_, command, outcome.
    rewrite H. simpl.
    exact (legacy_getAllChats_loop_run deviceId _ [] (issued w) H).
  - by rewrite length_map.
  - intros jid Hk. exists (Legacy.summary_of deviceId w jid). split.
    + apply list_elem_of_fmap. exists jid. split; [done|]. by apply elem_of_elements.
    + unfold Legacy.summary_of, Legacy.chat_entry, spread, field. cbv zeta.
      destruct (strings w !! key_chatmeta deviceId jid) as [t|]; simpl.
      * intros k [v Hv]. by rewrite (lookup_union_Some_l _ _ _ _ Hv), Hv.
      * rewrite (left_id_L ∅ (∪)). split; [|split].
        -- rewrite lookup_insert_ne by done. by rewrite lookup_insert_eq.
        -- rewrite lookup_insert_eq. simpl. unfold js_coalesce. simpl.
           by repeat case_match.
        -- intros k [v Hv].
           destruct (decide (k = "name")) as [->|Hn]; [by right|].
           rewrite lookup_insert_ne in Hv by done.
           destruct (decide (k = "jid")) as [->|Hj]; [by left|].
           by rewrite lookup_insert_ne in Hv by done.
Qed.

Lemma legacy_summaries_list_every_known_witness :
  let bob := "bob@s.whatsapp.net" in
  healthy two_conversations ∧
  ∃ result,
    outcome (Legacy.getAllChats "dev" two_conversations) = Ok result ∧
    length result = 2 ∧
    outcome (getAllChats "dev" two_conversations)
    = Ok (omap (summary_of "dev" two_conversations) (elements (known "dev" two_conversations))) ∧
    summary_of "dev" two_conversations bob = None.
Proof.
  intros bob. split; [exact two_conversations_healthy|].
  destruct (legacy_summaries_list_every_known "dev" two_conversations
              two_conversations_healthy) as (result & E & Hlen & _).
  exists result. split; [exact E|]. split.
  - rewrite Hlen. vm_refl.
  - split; [exact (getAllChats_run "dev" two_conversations two_conversations_healthy)|].
    vm_refl.
Defined.

(** X25. [getGroupMetadata] of the earlier version only reads: it
    changes nothing and asks the remote side for nothing, and with Redis
    reachable it answers the stored metadata, or [null]. The later version
    answers the same whenever metadata is stored or no socket with a
    [groupMetadata] method has been bound. *)
Theorem legacy_group_metadata_is_local deviceId jid w :
  untouched w (world_of (Legacy.getGroupMetadata deviceId jid w)) ∧
  (healthy w →
   outcome (Legacy.getGroupMetadata deviceId jid w)
   = Ok (parse_or VNull (strings w !! key_groupmeta deviceId jid)) ∧
   (is_Some (strings w !! key_groupmeta deviceId jid) ∨
    has_groupMetadata (socketRef w) = false →
    outcome (getGroupMetadata deviceId jid w)
    = outcome (Legacy.getGroupMetadata deviceId jid w))).
Proof.
  split.
  - revert w. fold (keeps untouched (Legacy.getGroupMetadata deviceId jid)).
    autounfold with store. keeps_with solve_untouched.
  - intros H. split; [by run_healthy H|].
    intros Hc. run_healthy H.
    destruct (strings w !! key_groupmeta deviceId jid) as [t|] eqn:Et; simpl; [done|].
    destruct Hc as [[? [=]]|Hs]. by rewrite Hs.
Qed.

Lemma legacy_group_metadata_is_local_witness :
  let g := "team@g.us" in
  let w := world_of (bind group_socket one_group) in
  healthy w ∧
  outcome (Legacy.getGroupMetadata "dev" g w) = outcome (getGroupMetadata "dev" g w) ∧
  calls (world_of (Legacy.getGroupMetadata "dev" g w)) = [].
Proof.
  intros g w.
  assert (H : healthy w) by (intros n; reflexivity).
  destruct (legacy_group_metadata_is_local "dev" g w) as [Hu Hh].
  destruct (Hh H) as [_ Ha].
  split; [exact H|]. split.
  - symmetry. apply Ha. left. vm_decide.
  - exact (proj1 (proj2 (proj2 (proj2 (proj2 Hu))))).
Defined.

(** X26. The earlier version does not merge contacts: with Redis
    reachable, after its [contacts.upsert] listener [getContact] answers
    with the last contact of the event that has the id, as it reads back
    from its text, and with nothing of what was stored for it before. *)
Theorem legacy_contacts_upsert_replaces deviceId contacts w :
  healthy w →
  let r := Legacy.handle deviceId (contacts_upsert contacts) w in
  outcome r = Ok tt ∧
  ∀ jid,
    outcome (getContact deviceId jid (world_of r))
    = Ok (replaced_by contacts jid (strings w !! key_contact deviceId jid)).
Proof.
  intros H. simpl. unfold Legacy.on_contacts_upsert.
  destruct (contacts_loop_run deviceId w contacts H) as (w1 & E1 & H1 & S1 & _).
  rewrite E1. simpl. split; [done|]. intros jid.
  run_healthy H1. rewrite S1, (lookup_writes _ _ _ _ (key_contact_inj deviceId)).
  unfold replaced_by. by destruct (last_with_id jid contacts).
Qed.

Lemma legacy_contacts_upsert_replaces_witness :
  let ann := "ann@s.whatsapp.net" in
  let first : obj := {[ "id" := VStr ann; "name" := VStr "Ann" ]} in
  let second : obj := {[ "id" := VStr ann; "notify" := VStr "A" ]} in
  let w := world_of (Legacy.handle "dev" (contacts_upsert [first]) fresh_world) in
  healthy w ∧
  outcome (getContact "dev" ann (world_of (Legacy.handle "dev" (contacts_upsert [second]) w)))
  = Ok (VObj second) ∧
  outcome (getContact "dev" ann
             (world_of (handle "dev" 2 offline_socket (contacts_upsert [second]) w)))
  = Ok (VObj {[ "id" := VStr ann; "name" := VStr "Ann"; "notify" := VStr "A" ]}).
Proof.
  intros ann first second w.
  assert (H : healthy w) by (intros n; reflexivity).
  split; [exact H|]. split.
  - refine (eq_trans (proj2 (legacy_contacts_upsert_replaces "dev" [second] w H) ann) _).
    vm_refl.
  - vm_refl.
Defined.

(** ** Replaying a contact update *)

Lemma vsize_element xs x : x ∈ xs → vsize x < vsize (VArr xs).
Proof.
  intros Hin. simpl. induction Hin as [x xs|x y xs Hin IH]; simpl; lia.
Qed.

Lemma vsize_property (o : obj) k x : o !! k = Some x → vsize x < vsize (VObj o).
Proof.
  intros Hk. simpl.
  rewrite <- (insert_delete_id o k x Hk).
  rewrite map_fold_insert_L.
  - lia.
  - intros. lia.
  - apply lookup_delete_eq.
Qed.

Lemma json_norm_idemp_bounded n v : vsize v < n → json_norm (json_norm v) = json_norm v.
Proof.
  revert v. induction n as [|n IH]; intros v Hn; [lia|].
  destruct v as [| |b|z|s|xs|o]; try done.
  - simpl. f_equal. rewrite map_map.
    apply map_ext_in. intros x Hx. apply list_elem_of_In in Hx.
    pose proof (vsize_element xs x Hx) as Hs.
    destruct x; try done.
    + change (json_norm (json_norm (VArr xs0)) = json_norm (VArr xs0)).
      apply IH. lia.
    + change (json_norm (json_norm (VObj o)) = json_norm (VObj o)).
      apply IH. lia.
  - simpl. f_equal. apply map_eq. intros k. rewrite !lookup_omap.
    destruct (o !! k) as [x|] eqn:Ek; simpl; [|done].
    pose proof (vsize_property o k x Ek) as Hs.
    destruct x; try done.
    + simpl. f_equal.
      change (json_norm (json_norm (VArr xs)) = json_norm (VArr xs)).
      apply IH. lia.
    + simpl. f_equal.
      change (json_norm (json_norm (VObj o0)) = json_norm (VObj o0)).
      apply IH. lia.
Qed.

(** Reading a text back and writing it again gives the same text. *)
Lemma json_norm_idemp v : json_norm (json_norm v) = json_norm v.
Proof. exact (json_norm_idemp_bounded (S (vsize v)) v (Nat.lt_succ_diag_r _)). Qed.

Lemma json_field_norm v : json_field (json_norm v) = json_field v.
Proof.
  destruct v; try done.
  - unfold json_field. change (Some (json_norm (json_norm (VArr xs))) = Some (json_norm (VArr xs))).
    by rewrite json_norm_idemp.
  - unfold json_field. change (Some (json_norm (json_norm (VObj o))) = Some (json_norm (VObj o))).
    by rewrite json_norm_idemp.
Qed.

Lemma json_field_Some x y : json_field x = Some y → y = json_norm x.
Proof. unfold json_field. destruct x; intros [= <-]; done. Qed.

Lemma json_obj_idemp o : json_obj (json_obj o) = json_obj o.
Proof.
  apply map_eq. intros k. unfold json_obj. rewrite !lookup_omap.
  destruct (o !! k) as [x|]; simpl; [|done].
  destruct (json_field x) as [y|] eqn:Ex; simpl; [|done].
  apply json_field_Some in Ex as Ey. subst y.
  rewrite json_field_norm. exact Ex.
Qed.

Lemma merged_contact_name_lookup existing contact k :
  name_field k = true →
  merged_contact existing contact !! k
  = Some (js_or (field contact k) (field existing k)).
Proof.
  unfold name_field. intros Hk.
  apply orb_true_iff in Hk as [Hk|Hk]; [apply orb_true_iff in Hk as [Hk|Hk]|];
    apply String.eqb_eq in Hk; subst k; unfold merged_contact.
  - by rewrite lookup_insert_ne, lookup_insert_ne, lookup_insert_eq by done.
  - by rewrite lookup_insert_ne, lookup_insert_eq by done.
  - by rewrite lookup_insert_eq.
Qed.

Lemma merged_contact_replay existing contact :
  json_obj (merged_contact (json_obj (merged_contact existing contact)) contact)
  = json_obj (merged_contact existing contact).
Proof.
  apply map_eq. intros k. unfold json_obj at 1 3. rewrite !lookup_omap.
  destruct (name_field k) eqn:Hk.
  - rewrite !merged_contact_name_lookup by done. simpl.
    rewrite field_json_obj, merged_contact_name by done.
    unfold js_or. destruct (truthy (field contact k)); [done|].
    apply json_field_norm.
  - rewrite !merged_contact_other by done.
    destruct (contact !! k) as [v|] eqn:Ec; [done|].
    unfold json_obj. rewrite lookup_omap, merged_contact_other, Ec by done.
    destruct (existing !! k) as [x|]; simpl; [|done].
    destruct (json_field x) as [y|] eqn:Ex; simpl; [|done].
    apply json_field_Some in Ex as Ey. subst y.
    rewrite json_field_norm. exact Ex.
Qed.

(** X27. With Redis reachable, delivering the same [contacts.upsert]
    of one contact a second time changes nothing: the record written by the
    replay is the record the first delivery wrote, and lists and sets are not
    touched. *)
Theorem contacts_upsert_replay_is_idle deviceId CIPHERTEXT sock contact w :
  healthy w →
  let e := contacts_upsert [contact] in
  let w1 := world_of (handle deviceId CIPHERTEXT sock e w) in
  let w2 := world_of (handle deviceId CIPHERTEXT sock e w1) in
  strings w2 = strings w1 ∧ lists w2 = lists w1 ∧ sets w2 = sets w1.
Proof.
  intros H. simpl.
  destruct (upsert_contact_run deviceId w contact H) as (w1 & E1 & S1 & L1 & K1).
  unfold on_contacts_upsert; simpl for_of. rewrite (bind_run _ _ _ _ _ E1). simpl.
  assert (H1 : healthy w1).
  { refine (healthy_run _ _ _ _ _ H E1). step_evolves. }
  destruct (upsert_contact_run deviceId w1 contact H1) as (w2 & E2 & S2 & L2 & K2).
  rewrite (bind_run _ _ _ _ _ E2). simpl.
  split; [|done]. rewrite S2.
  apply insert_id. rewrite S1, !lookup_insert_eq. simpl.
  unfold JSON_stringify. simpl. by rewrite merged_contact_replay.
Qed.

Lemma contacts_upsert_replay_is_idle_witness :
  let ann := "ann@s.whatsapp.net" in
  let e := contacts_upsert [ {[ "id" := VStr ann; "name" := VStr ""; "notify" := VStr "A" ]} ] in
  let w1 := world_of (handle "dev" 2 offline_socket e two_conversations) in
  let w2 := world_of (handle "dev" 2 offline_socket e w1) in
  healthy two_conversations ∧ strings w2 = strings w1.
Proof.
  intros ann e w1 w2. split; [exact two_conversations_healthy|].
  exact (proj1 (contacts_upsert_replay_is_idle "dev" 2 offline_socket
                  {[ "id" := VStr ann; "name" := VStr ""; "notify" := VStr "A" ]}
                  two_conversations two_conversations_healthy)).
Defined.
